(** * Incident RAG engine: a shallow embedding of [rag_incidents.py]

    The development follows the class [IncidentRAG]: the embedding
    provider, the ingestion pipeline, similarity search and the galaxy
    layout cache.  Python dictionaries are finite maps, Python floats are
    binary64 floats, exceptions are the left summand of a result type, and
    the mutable collection and cache file are passed explicitly.  Line
    numbers are those of [rag_incidents.py] unless another file is named. *)

From Stdlib Require Import ZArith Floats Uint63 String Ascii DecimalString DecimalNat.
From stdpp Require Import base option list strings gmap.

#[local] Set Warnings "-inexact-float".
Local Open Scope string_scope.
Local Open Scope Z_scope.

(** ** Python values *)

(** [s[:n]].  One element of the Rocq string stands for one character of
    the Python [str]; key literals are only compared for equality, so
    their spelling as bytes is immaterial. *)
Fixpoint str_take (n : nat) (s : string) : string :=
  match n, s with
  | O, _ => EmptyString
  | S _, EmptyString => EmptyString
  | S n', String c s' => String c (str_take n' s')
  end.

(** [s[n:]]. *)
Fixpoint str_drop (n : nat) (s : string) : string :=
  match n, s with
  | O, _ => s
  | S _, EmptyString => EmptyString
  | S n', String _ s' => str_drop n' s'
  end.

(** [s.endswith(suffix)]. *)
Definition endswith (s suffix : string) : bool :=
  (String.length suffix <=? String.length s)%nat
  && String.eqb (str_drop (String.length s - String.length suffix) s) suffix.

(** [str(n)] for a non-negative integer. *)
Definition str_of_nat (n : nat) : string :=
  NilEmpty.string_of_uint (Nat.to_uint n).

(** [float(z)] for an integer small enough to be represented exactly. *)
Definition float_of_Z (z : Z) : float :=
  if z <? 0 then PrimFloat.opp (PrimFloat.of_uint63 (Uint63.of_Z (- z)))
  else PrimFloat.of_uint63 (Uint63.of_Z z).

(** An exception: its class name and [str(e)]. *)
Record exn := Exn { exc_type : string; exc_msg : string }.

(** The outcome of a block of code that may raise. *)
Definition res (A : Type) : Type := exn + A.

Definition raise {A} (e : exn) : res A := inl e.
Definition ret {A} (a : A) : res A := inr a.
Definition bind {A B} (m : res A) (k : A -> res B) : res B :=
  match m with
  | inl e => inl e
  | inr a => k a
  end.

Notation "'do' x <- m ; k" := (bind m (fun x => k))
  (at level 10, x name, m at level 100, k at level 200).

(** [l[i]], raising [IndexError] out of range. *)
Definition index {A} (l : list A) (i : nat) : res A :=
  match l !! i with
  | Some a => ret a
  | None => raise (Exn "IndexError" "list index out of range")
  end.

(** [d[k]] on a dictionary, raising [KeyError] when the key is absent. *)
Definition getitem (d : gmap string string) (k : string) : res string :=
  match d !! k with
  | Some v => ret v
  | None => raise (Exn "KeyError" k)
  end.

(** [d.get(k, dflt)]. *)
Definition dict_get (d : gmap string string) (k : string) (dflt : string) : string :=
  default dflt (d !! k).

(** [traceback.format_exc()]: the rendered stack frames are not modelled,
    only the final line that names the exception. *)
Definition format_exc (e : exn) : string :=
  "Traceback (most recent call last):" ++ exc_type e ++ ": " ++ exc_msg e.

Definition vec : Type := list float.

(** ** The world outside the process *)

(** The answer to one [requests.post] against the embedding endpoint. *)
Inductive response :=
| TransportError (e : exn)
    (* the call raised: connection refused, timeout, ... *)
| HttpResponse (status_code : Z) (embedding : option vec).
    (* [embedding] is [None] when [response.json()] or
       [data['embedding']] raises *)

(** What [str(v)] and [v is not None] see of a JSON value. *)
Inductive pyval :=
| PyNone
| PyVal (rendering : string).

Definition py_str (v : pyval) : string :=
  match v with
  | PyNone => "None"
  | PyVal s => s
  end.

(** A parsed JSON document, as far as [_load_incidents_from_file] looks:
    an item of the list of entries is a dictionary, given by its
    [items()] in order, or something else. *)
Inductive jitem :=
| ItemDict (fields : list (string * pyval))
| ItemOther.

(** A value of the root dictionary: a list, or something else. *)
Inductive jfield :=
| FieldList (items : list jitem)
| FieldOther.

(** The root of the document. *)
Inductive jroot :=
| RootDict (fields : list (string * jfield))
| RootList (items : list jitem)
| RootOther.

(** A [pandas.DataFrame] after [read_csv]: its column labels, its index
    and its rows; a row gives [str(row[col])] for each label of
    [df_columns].  [df_index i] is the label of the row at position [i],
    as an f-string renders it: [read_csv] numbers the rows 0, 1, ...
    unless the rows of the file hold one field more than the header, in
    which case it takes the labels from the first column, where they may
    repeat. *)
Record dataframe := DataFrame {
  df_columns : list string;
  df_index : nat -> string;
  df_rows : list (string -> string)
}.

(** A file found under one of [possible_paths]: what [json.load] and
    [pd.read_csv] make of it. *)
Record file := File {
  json_load : res jroot;
  read_csv : res dataframe
}.

(** ** The vector store

    The store is the third-party [chromadb] library; its code is not part
    of the repository.  The collection is modelled by the contract the
    specification gives for it. *)

Module Chroma.

(** A stored entry: [(id, document_text, embedding_vector, metadata)]. *)
Record entry := Entry {
  e_id : string;
  e_document : string;
  e_embedding : vec;
  e_metadata : gmap string string
}.

(** The collection, in insertion order. *)
Definition collection : Type := list entry.

(** The ids of the stored entries. *)
Definition ids (c : collection) : list string := e_id <$> c.

(** Modelled from the spec: [count()], the cardinality of the
    collection. *)
Definition count (c : collection) : nat := length c.

(** What [get(include=['metadatas', 'documents'])] returns. *)
Record get_result := GetResult {
  g_ids : list string;
  g_documents : list string;
  g_metadatas : list (gmap string string)
}.

(** Modelled from the spec: [get(include=[...])], the bulk dump of all
    stored ids, documents and metadata, without embeddings. *)
Definition get (c : collection) : get_result :=
  GetResult (e_id <$> c) (e_document <$> c) (e_metadata <$> c).

(** What [query(...)] returns: one inner list per query embedding. *)
Record query_result := QueryResult {
  r_ids : list (list string);
  r_distances : list (list float);
  r_documents : list (list string);
  r_metadatas : list (list (gmap string string))
}.

(** The rows of a batch handed to [add] or [upsert]; the four argument
    lists must have one shape. *)
Fixpoint rows (ids documents : list string) (embeddings : list vec)
    (metadatas : list (gmap string string)) : option (list entry) :=
  match ids, documents, embeddings, metadatas with
  | [], [], [], [] => Some []
  | i :: ids', d :: documents', v :: embeddings', m :: metadatas' =>
      cons (Entry i d v m) <$> rows ids' documents' embeddings' metadatas'
  | _, _, _, _ => None
  end.

(** An id occurs twice in the batch. *)
Definition has_duplicates (l : list string) : bool :=
  bool_decide (¬ NoDup l).

(** An id of the batch is stored already. *)
Definition conflicts (c : collection) (l : list string) : bool :=
  bool_decide (Exists (λ i, i ∈ ids c) l).

(** Modelled from the spec: [add(ids, documents, embeddings,
    metadatas)] fails on a duplicate id under strict semantics, and
    appends the batch otherwise. *)
Definition add (c : collection) (ids documents : list string)
    (embeddings : list vec) (metadatas : list (gmap string string))
    : res collection :=
  match rows ids documents embeddings metadatas with
  | None => raise (Exn "ValueError" "Unequal lengths for fields")
  | Some batch =>
      if has_duplicates ids || conflicts c ids
      then raise (Exn "DuplicateIDError" "Expected IDs to be unique")
      else ret (c ++ batch)%list
  end.

(** Replace the entry that has the id of [e], or append [e]. *)
Fixpoint upsert_entry (c : collection) (e : entry) : collection :=
  match c with
  | [] => [e]
  | e' :: c' =>
      if decide (e_id e' = e_id e) then e :: c'
      else e' :: upsert_entry c' e
  end.

(** Modelled from the spec: [upsert(...)] has the shape of [add] and
    replace-on-conflict semantics. *)
Definition upsert (c : collection) (ids documents : list string)
    (embeddings : list vec) (metadatas : list (gmap string string))
    : res collection :=
  match rows ids documents embeddings metadatas with
  | None => raise (Exn "ValueError" "Unequal lengths for fields")
  | Some batch => ret (foldl upsert_entry c batch)
  end.

End Chroma.

(** The collaborators the engine reaches through I/O.  One value of this
    record describes the outside world during one call of a public
    operation. *)
Record World := {
  (** [requests.post(.../api/embeddings, json={model, prompt})]: the answer
      to the [i]-th request of the running operation. *)
  ollama_post : nat -> string -> response;
  (** [SentenceTransformer.encode(texts).tolist()]. *)
  st_encode : list string -> res (list vec);
  (** [collection.query(query_embeddings=[q], n_results=n, where=w)]: the
      nearest-neighbour search of the store. *)
  chroma_query : Chroma.collection -> vec -> Z -> option (gmap string string)
                 -> res Chroma.query_result;
  (** The first of [possible_paths] that exists, if any. *)
  find_file : string -> option file;
  (** [session.get(url)] followed by [soup.find_all(...)]: the stripped
      text of each element whose class names an incident, or the exception
      raised on the way. *)
  incident_elements : string -> res (list string);
  (** The exception [open(cache_file, 'w')] raises, if any; the file is
      then left as it was. *)
  cache_write : option exn
}.

(** Pure library functions the layout uses. *)
Record PyLib := {
  (** [int(hashlib.md5(s.encode()).hexdigest(), 16)]. *)
  md5_int : string -> Z;
  np_cos : float -> float;
  np_sin : float -> float
}.

(** ** Data of the engine *)

(** An incident record under ingestion: a [Dict[str, str]]. *)
Abbreviation Incident := (gmap string string).

(** One incident of a sun, as the layout exposes it. *)
Record galaxy_incident := GalaxyIncident {
  gi_id : string;
  gi_text : string;
  gi_metadata : gmap string string
}.

(** One project's node in the layout. *)
Record sun := Sun {
  s_name : string;
  s_x : float;
  s_y : float;
  s_z : float;
  s_size : nat;
  s_incident_count : nat;
  s_incidents : list galaxy_incident;
  s_has_more : bool
}.

(** The structure [get_galaxy_data] builds and writes to the cache. *)
Record galaxy_data := GalaxyData {
  gd_success : bool;
  gd_suns : list sun;
  gd_total_projects : nat;
  gd_total_incidents : nat
}.

(** The value a cached document holds under ['total_incidents'], as far as
    [==] against an integer sees it: a number that equals the integer [n],
    or anything else. *)
Inductive cached_value :=
| CachedInt (n : Z)
| CachedOther.

(** A cached document that is a dictionary; ['total_incidents'] may be
    missing. *)
Record cached_dict := CachedDict {
  cd_total_incidents : option cached_value;
  cd_success : bool;
  cd_suns : list sun;
  cd_total_projects : nat
}.

(** The file [galaxy_cache.json]. *)
Inductive cache_file :=
| CacheMissing
| CacheUnreadable (e : exn)   (* [open] or [json.load] raises *)
| CacheNotDict                (* a document without a [get] method *)
| CacheData (d : cached_dict).

(** The state of an [IncidentRAG] object and of the directory it owns. *)
Record IncidentRAG := Rag {
  use_ollama : bool;
  collection : Chroma.collection;
  galaxy_cache : cache_file
}.

Definition set_collection (rag : IncidentRAG) (c : Chroma.collection) : IncidentRAG :=
  Rag (use_ollama rag) c (galaxy_cache rag).

Definition set_galaxy_cache (rag : IncidentRAG) (f : cache_file) : IncidentRAG :=
  Rag (use_ollama rag) (collection rag) f.

(** ** Embedding provider *)

(** [[0.0] * 768]. *)
Definition zero_vector : vec := replicate 768 0%float.

(** One iteration of the loop of [_generate_embeddings]: request [i], for
    [text]. *)
Definition ollama_embedding (W : World) (i : nat) (text : string) : vec :=
  match ollama_post W i (str_take 2000 text) with
  | HttpResponse status_code (Some embedding) =>
      if status_code =? 200 then embedding else zero_vector
  | HttpResponse _ None => zero_vector
  | TransportError _ => zero_vector
  end.

Fixpoint ollama_embeddings (W : World) (i : nat) (texts : list string) : list vec :=
  match texts with
  | [] => []
  | text :: texts' => ollama_embedding W i text :: ollama_embeddings W (S i) texts'
  end.

(** [_generate_embeddings(texts)]; [first] numbers the first request. *)
Definition _generate_embeddings (W : World) (rag : IncidentRAG) (first : nat)
    (texts : list string) : res (list vec) :=
  if use_ollama rag then ret (ollama_embeddings W first texts)
  else st_encode W texts.

(** ** Ingestion pipeline *)

(** [range(0, len(l), size)] with the slice [l[start:start + size]] of
    each step. *)
Fixpoint batches_from {A} (fuel size start : nat) (l : list A) : list (nat * list A) :=
  match fuel, l with
  | S fuel', _ :: _ =>
      (start, take size l) :: batches_from fuel' size (start + size)%nat (drop size l)
  | _, _ => []
  end.

Definition batches {A} (size : nat) (l : list A) : list (nat * list A) :=
  batches_from (length l) size 0 l.

(** [item.get(k, dflt)] on a JSON object. *)
Fixpoint item_get {V} (item : list (string * V)) (k : string) (dflt : V) : V :=
  match item with
  | [] => dflt
  | (k', v) :: item' => if decide (k' = k) then v else item_get item' k dflt
  end.

Definition in_item {V} (item : list (string * V)) (k : string) : bool :=
  bool_decide (k ∈ item.*1).

(** Lines 197-200: the first priority key that holds a list. *)
Fixpoint first_list_under (keys : list string) (data : list (string * jfield)) : list jitem :=
  match keys with
  | [] => []
  | key :: keys' =>
      match item_get data key FieldOther with
      | FieldList items => items
      | FieldOther => first_list_under keys' data
      end
  end.

(** Lines 204-207: the first value that is a list. *)
Fixpoint first_list_value (data : list (string * jfield)) : list jitem :=
  match data with
  | [] => []
  | (_, FieldList items) :: _ => items
  | (_, FieldOther) :: data' => first_list_value data'
  end.

Definition items_to_process (data : jroot) : list jitem :=
  match data with
  | RootDict fields =>
      match first_list_under ["incidencias"; "data"; "items"; "incidents"; "records"] fields with
      | [] => first_list_value fields
      | items => items
      end
  | RootList items => items
  | RootOther => []
  end.

(** Lines 231-233: one step of the loop over [item.items()]. *)
Definition add_extra_json (incident : Incident) (kv : string * pyval) : Incident :=
  match incident !! kv.1, kv.2 with
  | None, PyVal s => <[kv.1 := str_take 500 s]> incident
  | _, _ => incident
  end.

(** Lines 222-235: the incident built from the dictionary at position [n]
    of [items_to_process]. *)
Definition json_incident (filename : string) (n : nat) (item : list (string * pyval)) : Incident :=
  let incident : Incident :=
    <["Proyecto" := py_str (item_get item "Proyecto" (item_get item "proyecto"
                      (item_get item "project" (PyVal "Sin proyecto"))))]>
    (<["source" := filename]>
    (<["description" := py_str (item_get item "description" (item_get item "descripcion"
                      (item_get item "Descripción" (item_get item "desc" (PyVal "")))))]>
    (<["title" := py_str (item_get item "title" (item_get item "titulo"
                      (item_get item "Proyecto" (item_get item "nombre" (PyVal "Sin título")))))]>
    (<["id" := py_str (item_get item "id" (item_get item "ID"
                      (item_get item "_id" (PyVal ("json_" ++ str_of_nat n)))))]> ∅)))) in
  foldl add_extra_json incident item.

(** The body of the loop over one batch (lines 219-235). *)
Fixpoint json_batch (filename : string) (batch_start idx : nat) (batch : list jitem) : list Incident :=
  match batch with
  | [] => []
  | ItemDict item :: batch' =>
      json_incident filename (batch_start + idx) item
        :: json_batch filename batch_start (S idx) batch'
  | ItemOther :: batch' => json_batch filename batch_start (S idx) batch'
  end.

Definition json_incidents (filename : string) (data : jroot) : list Incident :=
  mjoin ((λ b, json_batch filename b.1 0 b.2) <$> batches 100 (items_to_process data)).

(** [row.get(col, dflt)] followed by [str]. *)
Definition row_get (df : dataframe) (row : string -> string) (col dflt : string) : string :=
  if decide (col ∈ df_columns df) then row col else dflt.

(** Lines 260-262: one step of the loop over [df.columns]. *)
Definition add_extra_csv (row : string -> string) (incident : Incident) (col : string) : Incident :=
  match incident !! col with
  | None => <[col := row col]> incident
  | Some _ => incident
  end.

(** Lines 251-264: the incident built from the row labelled [idx]. *)
Definition csv_incident (filename : string) (df : dataframe) (idx : string)
    (row : string -> string) : Incident :=
  let incident : Incident :=
    <["Proyecto" := row_get df row "Proyecto" "Sin proyecto"]>
    (<["source" := filename]>
    (<["description" := row_get df row "description" (row_get df row "descripcion" "")]>
    (<["title" := row_get df row "title" (row_get df row "titulo" (row_get df row "Proyecto" ""))]>
    (<["id" := row_get df row "id" (row_get df row "ID" ("csv_" ++ idx))]> ∅)))) in
  foldl (add_extra_csv row) incident (df_columns df).

(** Line 250: [df.iterrows()] yields each row with its label. *)
Definition csv_incidents (filename : string) (df : dataframe) : list Incident :=
  imap (λ i row, csv_incident filename df (df_index df i) row) (df_rows df).

(** [_load_incidents_from_file(filename)]. *)
Definition _load_incidents_from_file (W : World) (filename : string) : res (list Incident) :=
  match find_file W filename with
  | None => raise (Exn "FileNotFoundError" ("Archivo no encontrado: " ++ filename))
  | Some f =>
      if endswith filename ".json" then
        match json_load f with
        | inl e =>
            if decide (exc_type e = "JSONDecodeError")
            then raise (Exn "ValueError" ("Error al parsear JSON: " ++ exc_msg e))
            else raise e
        | inr data => ret (json_incidents filename data)
        end
      else if endswith filename ".csv" then
        do df <- read_csv f; ret (csv_incidents filename df)
      else ret []
  end.

(** Lines 147-156: the incident of the element at position [i]. *)
Definition web_incident (url : string) (i : nat) (text : string) : option Incident :=
  if (20 <? String.length text)%nat then
    Some (<["Proyecto" := "Web Scraping"]>
         (<["source" := url]>
         (<["description" := text]>
         (<["title" := str_take 100 text]>
         (<["id" := "web_" ++ str_of_nat i]> ∅)))))
  else None.

(** [_scrape_incidents_from_url(url)]: any exception is printed and the
    incidents gathered so far, none, are returned. *)
Definition _scrape_incidents_from_url (W : World) (url : string) : list Incident :=
  match incident_elements W url with
  | inl _ => []
  | inr elements => omap id (imap (web_incident url) elements)
  end.

(** [[f(x) for x in l]] where [f] may raise. *)
Fixpoint traverse {A B} (f : A -> res B) (l : list A) : res (list B) :=
  match l with
  | [] => ret []
  | a :: l' => do b <- f a; do bs <- traverse f l'; ret (b :: bs)
  end.

(** Line 283: the text that is embedded. *)
Definition document_text (inc : Incident) : string :=
  dict_get inc "title" "" ++ " " ++ dict_get inc "description" "" ++ " "
    ++ dict_get inc "Proyecto" "".

(** Line 287: the incident without its id. *)
Definition metadata_of (inc : Incident) : gmap string string :=
  filter (λ kv, kv.1 ≠ "id") inc.

(** A block of statements that mutates the collection: the collection it
    leaves, and the exception it raised, if any. *)
Definition effect : Type := Chroma.collection * option exn.

(** Lines 281-295: the four lists of one batch. *)
Definition prepare_batch (W : World) (rag : IncidentRAG) (batch_start : nat)
    (batch : list Incident)
    : res (list string * list string * list vec * list (gmap string string)) :=
  do ids <- traverse (λ inc, getitem inc "id") batch;
  let documents := document_text <$> batch in
  let metadatas := metadata_of <$> batch in
  do embeddings <- _generate_embeddings W rag batch_start documents;
  ret (ids, documents, embeddings, metadatas).

(** Lines 298-314: [add], and on any exception [upsert] of the same
    batch. *)
Definition add_or_upsert (c : Chroma.collection) (ids documents : list string)
    (embeddings : list vec) (metadatas : list (gmap string string)) : effect :=
  match Chroma.add c ids documents embeddings metadatas with
  | inr c' => (c', None)
  | inl _ =>
      match Chroma.upsert c ids documents embeddings metadatas with
      | inr c' => (c', None)
      | inl e => (c, Some e)
      end
  end.

(** Lines 279-314: one iteration of the loop of [_add_incidents_to_db]. *)
Definition write_batch (W : World) (rag : IncidentRAG) (c : Chroma.collection)
    (batch_start : nat) (batch : list Incident) : effect :=
  match prepare_batch W rag batch_start batch with
  | inl e => (c, Some e)
  | inr (ids, documents, embeddings, metadatas) =>
      add_or_upsert c ids documents embeddings metadatas
  end.

Fixpoint write_batches (W : World) (rag : IncidentRAG) (c : Chroma.collection)
    (bs : list (nat * list Incident)) : effect :=
  match bs with
  | [] => (c, None)
  | (batch_start, batch) :: bs' =>
      match write_batch W rag c batch_start batch with
      | (c', None) => write_batches W rag c' bs'
      | raised => raised
      end
  end.

(** [_add_incidents_to_db(incidents)], on the collection of [rag]. *)
Definition _add_incidents_to_db (W : World) (rag : IncidentRAG)
    (incidents : list Incident) : effect :=
  match incidents with
  | [] => (collection rag, None)
  | _ =>
      let batch_size := if use_ollama rag then 10%nat else 50%nat in
      write_batches W rag (collection rag) (batches batch_size incidents)
  end.

(** What [load_incidents] returns: the three dictionaries it can build. *)
Inductive load_payload :=
| LoadSuccess (incidents_loaded : nat) (source source_type : string)
    (* {"success": True, "incidents_loaded", "source", "source_type"} *)
| LoadError (error : string)
    (* {"error"} *)
| LoadException (error traceback : string).
    (* {"error", "traceback"} *)

Definition payload_keys (p : load_payload) : list string :=
  match p with
  | LoadSuccess _ _ _ => ["success"; "incidents_loaded"; "source"; "source_type"]
  | LoadError _ => ["error"]
  | LoadException _ _ => ["error"; "traceback"]
  end.

(** Lines 105-110: the incidents parsed from the source; [None] for a
    source type that is not supported. *)
Definition parse_source (W : World) (source source_type : string)
    : option (res (list Incident)) :=
  if decide (source_type = "url") then Some (ret (_scrape_incidents_from_url W source))
  else if decide (source_type = "file") then Some (_load_incidents_from_file W source)
  else None.

Definition load_exception (e : exn) : load_payload :=
  LoadException ("Error al cargar incidencias: " ++ exc_msg e) (format_exc e).

(** [load_incidents(source, source_type)]: the payload and the object
    after the call. *)
Definition load_incidents (W : World) (rag : IncidentRAG) (source source_type : string)
    : load_payload * IncidentRAG :=
  match parse_source W source source_type with
  | None => (LoadError ("Tipo de fuente no soportado: " ++ source_type), rag)
  | Some (inl e) => (load_exception e, rag)
  | Some (inr []) => (LoadError "No se encontraron incidencias", rag)
  | Some (inr incidents) =>
      match _add_incidents_to_db W rag incidents with
      | (c, None) =>
          (LoadSuccess (length incidents) source source_type, set_collection rag c)
      | (c, Some e) => (load_exception e, set_collection rag c)
      end
  end.

(** ** Similarity search *)

(** One entry of [similar_incidents]. *)
Record similar_incident := SimilarIncident {
  si_id : string;
  similarity_score : float;
  si_text : string;
  si_full_text : string;
  si_metadata : gmap string string
}.

(** Lines 376-379: the keys the pass-through comprehension leaves out. *)
Definition excluded_keys : list string :=
  ["ID"; "id"; "Identificador_incidencia"; "Proyecto"; "proyecto"; "Fecha"; "fecha";
   "Descripción"; "descripcion"; "Solución"; "solucion";
   "Estado"; "estado"; "Prioridad"; "prioridad"; "source";
   "Fecha_envío_incidencia"; "Descripción_incidencia"].

(** Lines 364-380: the ['metadata'] dictionary of a result.  The unpacked
    comprehension comes last in the literal, so its keys win. *)
Definition display_metadata (metadata : gmap string string) (id document : string)
    : gmap string string :=
  filter (λ kv, kv.1 ∉ excluded_keys) metadata ∪
  list_to_map
    [("ID", dict_get metadata "ID" (dict_get metadata "id"
              (dict_get metadata "Identificador_incidencia" id)));
     ("Proyecto", dict_get metadata "Proyecto" (dict_get metadata "proyecto" "No especificado"));
     ("Fecha", dict_get metadata "Fecha" (dict_get metadata "fecha"
              (dict_get metadata "Fecha_envío_incidencia"
                (dict_get metadata "Fecha del incidente" "N/A"))));
     ("Descripción", dict_get metadata "Descripción" (dict_get metadata "descripcion"
              (dict_get metadata "Descripcion Problema"
                (dict_get metadata "Descripción_incidencia" (str_take 200 document)))));
     ("Solución", dict_get metadata "Solución" (dict_get metadata "solucion"
              (dict_get metadata "Solucion" "No registrada")));
     ("Estado", dict_get metadata "Estado" (dict_get metadata "estado"
              (dict_get metadata "status" "")));
     ("Prioridad", dict_get metadata "Prioridad" (dict_get metadata "prioridad"
              (dict_get metadata "priority" "")))].

(** Lines 351-382: the body of the loop, at index [i]; [None] when the
    result is below the threshold. *)
Definition format_row (results : Chroma.query_result) (i : nat) : res (option similar_incident) :=
  do distances <- index (Chroma.r_distances results) 0;
  do distance <- index distances i;
  let similarity := (1 - distance)%float in
  if PrimFloat.ltb 0.3 similarity then
    do metadatas <- index (Chroma.r_metadatas results) 0;
    do metadata <- index metadatas i;
    do ids <- index (Chroma.r_ids results) 0;
    do id <- index ids i;
    do documents <- index (Chroma.r_documents results) 0;
    do document <- index documents i;
    ret (Some (SimilarIncident id similarity (str_take 300 document) document
                 (display_metadata metadata id document)))
  else ret None.

(** Lines 347-382. *)
Definition format_results (results : Chroma.query_result) : res (list similar_incident) :=
  match Chroma.r_ids results with
  | [] => ret []
  | ids :: _ =>
      do rows <- traverse (format_row results) (seq 0 (length ids));
      ret (omap id rows)
  end.

(** Lines 333-337. *)
Definition where_clause (filters : option (gmap string string)) : option (gmap string string) :=
  match filters with
  | None => None
  | Some f => if decide (f = ∅) then None else Some f
  end.

(** What [search_similar] returns. *)
Inductive search_payload :=
| SearchResult (query : string) (similar_incidents : list similar_incident)
    (total_found : nat) (search_time_ms : Z)
| SearchFailure (query error traceback : string)
    (similar_incidents : list similar_incident).

Definition query_of (p : search_payload) : string :=
  match p with
  | SearchResult q _ _ _ => q
  | SearchFailure q _ _ _ => q
  end.

Definition similar_incidents (p : search_payload) : list similar_incident :=
  match p with
  | SearchResult _ l _ _ => l
  | SearchFailure _ _ _ l => l
  end.

Definition total_found (p : search_payload) : option nat :=
  match p with
  | SearchResult _ _ n _ => Some n
  | SearchFailure _ _ _ _ => None
  end.

(** Lines 327-382: the [try] block of [search_similar]. *)
Definition search_try (W : World) (rag : IncidentRAG) (incident_description : string)
    (top_k : Z) (filters : option (gmap string string)) : res (list similar_incident) :=
  do embeddings <- _generate_embeddings W rag 0 [incident_description];
  do query_embedding <- index embeddings 0;
  do results <- chroma_query W (collection rag) query_embedding (Z.min top_k 50)
                  (where_clause filters);
  format_results results.

(** [search_similar(incident_description, top_k, filters)]. *)
Definition search_similar (W : World) (rag : IncidentRAG) (incident_description : string)
    (top_k : Z) (filters : option (gmap string string)) : search_payload :=
  match search_try W rag incident_description top_k filters with
  | inr similar => SearchResult incident_description similar (length similar) 0
  | inl e =>
      SearchFailure incident_description ("Error en búsqueda: " ++ exc_msg e)
        (format_exc e) []
  end.

(** ** Layout cache *)

(** Line 497. *)
Definition project_of (metadata : gmap string string) : string :=
  dict_get metadata "Proyecto" (dict_get metadata "proyecto" "Sin proyecto").

(** [projects_temp]: a dictionary in insertion order. *)
Definition projects : Type := list (string * list galaxy_incident).

(** Lines 499-506: create the group if it is new, then append to it. *)
Fixpoint group_append (ps : projects) (project_name : string) (inc : galaxy_incident)
    : projects :=
  match ps with
  | [] => [(project_name, [inc])]
  | (n, incidents) :: ps' =>
      if decide (n = project_name) then (n, (incidents ++ [inc])%list) :: ps'
      else (n, incidents) :: group_append ps' project_name inc
  end.

(** Lines 496-506: the loop over [enumerate(results['metadatas'])], from
    index [i]. *)
Fixpoint group_projects (results : Chroma.get_result) (i : nat)
    (metadatas : list (gmap string string)) (ps : projects) : res projects :=
  match metadatas with
  | [] => ret ps
  | metadata :: metadatas' =>
      let project_name := project_of metadata in
      do id <- index (Chroma.g_ids results) i;
      do document <- index (Chroma.g_documents results) i;
      group_projects results (S i) metadatas'
        (group_append ps project_name
           (GalaxyIncident id (str_take 150 document) (str_take 50 <$> metadata)))
  end.

(** Lines 511-537: the sun of one project. *)
Definition make_sun (L : PyLib) (p : string * list galaxy_incident) : sun :=
  let '(project_name, incidents) := p in
  let hash_val := md5_int L project_name in
  let angle := (float_of_Z (hash_val mod 360) * (3.14159 / 180))%float in
  let radius := 30 + hash_val mod 50 in
  let x := (np_cos L angle * float_of_Z radius)%float in
  let y := hash_val mod 20 - 10 in
  let z := (np_sin L angle * float_of_Z radius)%float in
  let max_incidents_to_show := 500%nat in
  Sun project_name x (float_of_Z y) z (length incidents) (length incidents)
      (take max_incidents_to_show incidents)
      (max_incidents_to_show <? length incidents)%nat.

(** What [get_galaxy_data] returns, by the [return] statement that
    produced it. *)
Inductive galaxy_result :=
| FromCache (cached_data : cached_dict)          (* line 469 *)
| NoData (error : string)                        (* lines 484-487 *)
| Generated (galaxy_data : galaxy_data)          (* line 556 *)
| GalaxyFailure (error traceback : string).      (* lines 560-564 *)

(** Line 467: [cached_data.get('total_incidents') == current_count]. *)
Definition cache_matches (cached_data : cached_dict) (current_count : nat) : bool :=
  match cd_total_incidents cached_data with
  | Some (CachedInt n) => n =? Z.of_nat current_count
  | Some CachedOther => false
  | None => false
  end.

(** Lines 459-473: the cached document, when it is used. *)
Definition load_cache (rag : IncidentRAG) (use_cache : bool) : option cached_dict :=
  if use_cache then
    match galaxy_cache rag with
    | CacheMissing => None
    | CacheUnreadable _ => None
    | CacheNotDict => None
    | CacheData cached_data =>
        if cache_matches cached_data (Chroma.count (collection rag))
        then Some cached_data else None
    end
  else None.

(** [json.dump(galaxy_data, f)], read back. *)
Definition cached_of (g : galaxy_data) : cached_dict :=
  CachedDict (Some (CachedInt (Z.of_nat (gd_total_incidents g))))
    (gd_success g) (gd_suns g) (gd_total_projects g).

(** Lines 547-553: the write is best effort. *)
Definition save_cache (W : World) (rag : IncidentRAG) (g : galaxy_data) : IncidentRAG :=
  match cache_write W with
  | None => set_galaxy_cache rag (CacheData (cached_of g))
  | Some _ => rag
  end.

(** Lines 475-564. *)
Definition generate_galaxy (L : PyLib) (W : World) (rag : IncidentRAG)
    : galaxy_result * IncidentRAG :=
  let results := Chroma.get (collection rag) in
  match Chroma.g_ids results with
  | [] => (NoData "No hay datos en la base de datos. Carga incidencias primero.", rag)
  | _ =>
      let total_incidents := length (Chroma.g_ids results) in
      match group_projects results 0 (Chroma.g_metadatas results) [] with
      | inl e => (GalaxyFailure (exc_msg e) (format_exc e), rag)
      | inr projects_temp =>
          let suns := make_sun L <$> projects_temp in
          let galaxy_data := GalaxyData true suns (length suns) total_incidents in
          (Generated galaxy_data, save_cache W rag galaxy_data)
      end
  end.

(** [get_galaxy_data(use_cache)]: the result and the object after the
    call. *)
Definition get_galaxy_data (L : PyLib) (W : World) (rag : IncidentRAG) (use_cache : bool)
    : galaxy_result * IncidentRAG :=
  match load_cache rag use_cache with
  | Some cached_data => (FromCache cached_data, rag)
  | None => generate_galaxy L W rag
  end.

(** The value under ['total_incidents'] in a result, if the key is there. *)
Definition reported_total (r : galaxy_result) : option cached_value :=
  match r with
  | FromCache cached_data => cd_total_incidents cached_data
  | Generated g => Some (CachedInt (Z.of_nat (gd_total_incidents g)))
  | NoData _ => None
  | GalaxyFailure _ _ => None
  end.

(** ** A reference world

    A store that searches by brute force, an embedding endpoint that is
    down, and a few files: the inputs the examples below run on. *)

Module Reference.
Import Chroma.

(** Squared Euclidean distance, the default metric of the store. *)
Fixpoint l2 (a b : vec) : float :=
  match a, b with
  | x :: a', y :: b' => ((x - y) * (x - y) + l2 a' b')%float
  | _, _ => 0%float
  end.

Definition matches (w : option (gmap string string)) (e : entry) : bool :=
  match w with
  | None => true
  | Some f => bool_decide (map_Forall (λ k v, e_metadata e !! k = Some v) f)
  end.

Fixpoint insert_hit (x : float * entry) (l : list (float * entry)) : list (float * entry) :=
  match l with
  | [] => [x]
  | y :: l' => if PrimFloat.leb x.1 y.1 then x :: l else y :: insert_hit x l'
  end.

Definition nearest (q : vec) (c : collection) : list (float * entry) :=
  foldr insert_hit [] ((λ e, (l2 q (e_embedding e), e)) <$> c).

(** Modelled from the spec: [query(query_embedding, k,
    metadata_filter?)] returns up to [k] nearest neighbours ranked by
    similarity, each with id, distance, document text and metadata. *)
Definition query (c : collection) (q : vec) (n : Z) (w : option (gmap string string))
    : res query_result :=
  let hits := take (Z.to_nat n) (nearest q (filter (λ e, matches w e = true) c)) in
  ret (QueryResult [(λ h, e_id h.2) <$> hits] [fst <$> hits]
         [(λ h, e_document h.2) <$> hits] [(λ h, e_metadata h.2) <$> hits]).

Definition unreachable : response :=
  TransportError (Exn "ConnectionError" "Connection refused").

(** A row of a table, from its cells; a missing cell reads as NaN. *)
Definition row_of (cells : list (string * string)) : string -> string :=
  λ col, item_get cells col "nan".

Definition repeat_char (a : ascii) (n : nat) : string :=
  string_of_list_ascii (replicate n a).

(** The table of three rows with the columns [Proyecto] and
    [Descripción]; as in the tables below, the rows are numbered. *)
Definition three_rows : dataframe :=
  DataFrame ["Proyecto"; "Descripción"] str_of_nat
    [row_of [("Proyecto", "A"); ("Descripción", repeat_char "x" 30)];
     row_of [("Proyecto", "B"); ("Descripción", repeat_char "y" 5)];
     row_of [("Proyecto", "A"); ("Descripción", repeat_char "z" 30)]].

(** A table with a header and no row. *)
Definition no_rows : dataframe := DataFrame ["Proyecto"; "Descripción"] str_of_nat [].

(** A table with one extra column whose cell holds 501 characters. *)
Definition long_notes : dataframe :=
  DataFrame ["Proyecto"; "notas"] str_of_nat
    [row_of [("Proyecto", "A"); ("notas", repeat_char "n" 501)]].

(** The projects of [three_rows], met in the other order. *)
Definition reversed_rows : dataframe :=
  DataFrame ["Proyecto"; "Descripción"] str_of_nat
    [row_of [("Proyecto", "B"); ("Descripción", repeat_char "b" 40)];
     row_of [("Proyecto", "A"); ("Descripción", repeat_char "a" 40)]].

Definition not_json : res jroot :=
  raise (Exn "JSONDecodeError" "Expecting value: line 1 column 1 (char 0)").

Definition files (filename : string) : option file :=
  if decide (filename = "three.csv") then Some (File not_json (ret three_rows))
  else if decide (filename = "empty.csv") then Some (File not_json (ret no_rows))
  else if decide (filename = "long.csv") then Some (File not_json (ret long_notes))
  else if decide (filename = "reversed.csv") then Some (File not_json (ret reversed_rows))
  else None.

(** The world with the embedding endpoint down and no local model. *)
Definition offline : World := {|
  ollama_post := λ _ _, unreachable;
  st_encode := λ _, raise (Exn "OSError" "model files are missing");
  chroma_query := query;
  find_file := files;
  incident_elements := λ _, raise (Exn "ClientConnectorError" "Cannot connect to host");
  cache_write := None
|}.

(** An endpoint that answers: the text ["far"] is embedded away from
    every other text. *)
Definition toy_embedding (prompt : string) : vec :=
  if decide (prompt = "far") then [0.5; 0.5; 0.5]%float else [0; 0; 0]%float.

Definition online : World := {|
  ollama_post := λ _ prompt, HttpResponse 200 (Some (toy_embedding prompt));
  st_encode := λ texts, ret (toy_embedding <$> texts);
  chroma_query := query;
  find_file := files;
  incident_elements := λ _, raise (Exn "ClientConnectorError" "Cannot connect to host");
  cache_write := None
|}.

(** A fresh object with the remote backend, and one with the local
    backend. *)
Definition fresh : IncidentRAG := Rag true [] CacheMissing.
Definition fresh_local : IncidentRAG := Rag false [] CacheMissing.

(** A stand-in for the hash and the trigonometry of the layout. *)
Definition toy_lib : PyLib := {|
  md5_int := λ s, 7919 * Z.of_nat (String.length s) + 12345;
  np_cos := λ a, (1 - a * a / 2)%float;
  np_sin := λ a, a
|}.

(** The object after the table of three rows has been ingested. *)
Definition loaded : IncidentRAG :=
  (load_incidents online fresh "three.csv" "file").2.
End Reference.

(** ** Vocabulary of the properties *)

(** The request did not succeed: a transport failure or timeout, or a
    status other than 200. *)
Definition request_failed (r : response) : Prop :=
  match r with
  | TransportError _ => True
  | HttpResponse status_code _ => status_code ≠ 200
  end.

(** The incident holds the key ["id"]. *)
Definition has_id (inc : Incident) : Prop := is_Some (inc !! "id").

(** The store answers within the number of results it is asked for. *)
Definition query_bounded (W : World) : Prop :=
  ∀ c q n w results,
    chroma_query W c q n w = inr results →
    Forall (λ ids, Z.of_nat (length ids) ≤ Z.max 0 n) (Chroma.r_ids results).

(** A store whose answer lacks the list of distances. *)
Definition ragged_store : World := {|
  ollama_post := ollama_post Reference.online;
  st_encode := st_encode Reference.online;
  chroma_query := λ _ _ _ _, ret (Chroma.QueryResult [["a"]] [] [["doc"]] [[∅]]);
  find_file := find_file Reference.online;
  incident_elements := incident_elements Reference.online;
  cache_write := None
|}.

(** A JSON document with one entry, whose field [Solución] holds the
    text that is also the placeholder of that field. *)
Definition solved_json : jroot :=
  RootList [ItemDict [("title", PyVal "Caida del servicio");
                      ("Solución", PyVal "No registrada")]].

(** The world of [Reference.online] with that document under
    [sol.json]. *)
Definition solved_world : World := {|
  ollama_post := ollama_post Reference.online;
  st_encode := st_encode Reference.online;
  chroma_query := chroma_query Reference.online;
  find_file := λ filename,
    if decide (filename = "sol.json")
    then Some (File (ret solved_json) (raise (Exn "ParserError" "Error tokenizing data")))
    else None;
  incident_elements := incident_elements Reference.online;
  cache_write := None
|}.

(** The object after the document has been ingested. *)
Definition solved : IncidentRAG :=
  (load_incidents solved_world Reference.fresh "sol.json" "file").2.

(** The canonical display fields of a search result. *)
Inductive display_field :=
| FieldID | FieldProyecto | FieldFecha | FieldDescripcion
| FieldSolucion | FieldEstado | FieldPrioridad.

(** All of them. *)
Definition display_fields : list display_field :=
  [FieldID; FieldProyecto; FieldFecha; FieldDescripcion;
   FieldSolucion; FieldEstado; FieldPrioridad].

(** The key of a field in the output. *)
Definition field_key (f : display_field) : string :=
  match f with
  | FieldID => "ID"
  | FieldProyecto => "Proyecto"
  | FieldFecha => "Fecha"
  | FieldDescripcion => "Descripción"
  | FieldSolucion => "Solución"
  | FieldEstado => "Estado"
  | FieldPrioridad => "Prioridad"
  end.

(** The spellings a field is read from, in priority order. *)
Definition aliases (f : display_field) : list string :=
  match f with
  | FieldID => ["ID"; "id"; "Identificador_incidencia"]
  | FieldProyecto => ["Proyecto"; "proyecto"]
  | FieldFecha => ["Fecha"; "fecha"; "Fecha_envío_incidencia"; "Fecha del incidente"]
  | FieldDescripcion =>
      ["Descripción"; "descripcion"; "Descripcion Problema"; "Descripción_incidencia"]
  | FieldSolucion => ["Solución"; "solucion"; "Solucion"]
  | FieldEstado => ["Estado"; "estado"; "status"]
  | FieldPrioridad => ["Prioridad"; "prioridad"; "priority"]
  end.

(** The placeholder of a field, for the result with this id and
    document. *)
Definition placeholder (f : display_field) (id document : string) : string :=
  match f with
  | FieldID => id
  | FieldProyecto => "No especificado"
  | FieldFecha => "N/A"
  | FieldDescripcion => str_take 200 document
  | FieldSolucion => "No registrada"
  | FieldEstado => ""
  | FieldPrioridad => ""
  end.

(** First present wins: the value of the first alias the metadata
    holds. *)
Fixpoint first_present (keys : list string) (metadata : gmap string string) : option string :=
  match keys with
  | [] => None
  | k :: keys' =>
      match metadata !! k with
      | Some v => Some v
      | None => first_present keys' metadata
      end
  end.

(** The object that stores three incidents, with a cache file written
    for two. *)
Definition stale : IncidentRAG :=
  set_galaxy_cache Reference.loaded
    (CacheData (CachedDict (Some (CachedInt 2)) true [] 0)).

(** The position of a project, from its name alone: the hash of the name,
    reduced modulo 360 to an angle in degrees, modulo 50 to a radius from
    30, and modulo 20 to a vertical offset from -10. *)
Definition position_of (L : PyLib) (project_name : string) : float * float * float :=
  let h := md5_int L project_name in
  let angle := (float_of_Z (h mod 360) * (3.14159 / 180))%float in
  let radius := float_of_Z (30 + h mod 50) in
  ((np_cos L angle * radius)%float, float_of_Z (h mod 20 - 10),
   (np_sin L angle * radius)%float).

(** The coordinates of a sun. *)
Definition sun_position (s : sun) : float * float * float := (s_x s, s_y s, s_z s).

(** The suns of a result that was generated. *)
Definition generated_suns (r : galaxy_result) : list sun :=
  match r with
  | Generated g => gd_suns g
  | _ => []
  end.

(** The object after the table with the projects in the other order has
    been ingested. *)
Definition reversed : IncidentRAG :=
  (load_incidents Reference.online Reference.fresh "reversed.csv" "file").2.

(** The [i]-th sun of a generated result. *)
Definition sun_at (r : galaxy_result) (i : nat) : sun :=
  default (Sun "" 0 0 0 0 0 [] false) (generated_suns r !! i).

(** The keys every incident holds, whatever its source. *)
Definition canonical_keys : list string :=
  ["id"; "title"; "description"; "source"; "Proyecto"].

(** Every field outside the canonical keys holds at most 500
    characters. *)
Definition extras_bounded (inc : Incident) : Prop :=
  map_Forall (λ k v, k ∈ canonical_keys ∨ (String.length v ≤ 500)%nat) inc.

(** The incident of the item at position [n], if the item is a dictionary. *)
Definition json_item_incident (filename : string) (n : nat) (item : jitem) : option Incident :=
  match item with
  | ItemDict fields => Some (json_incident filename n fields)
  | ItemOther => None
  end.

(** The id an incident holds, if any. *)
Definition incident_id (inc : Incident) : option string := inc !! "id".

(** An item that is a dictionary holds none of the keys an id is read
    from. *)
Definition lacks_id (item : jitem) : Prop :=
  match item with
  | ItemDict fields => ("id" ∉ fields.*1) ∧ ("ID" ∉ fields.*1) ∧ ("_id" ∉ fields.*1)
  | ItemOther => True
  end.

(** The last character of a string, if it has one. *)
Fixpoint last_char (s : string) : option ascii :=
  match s with
  | "" => None
  | String c "" => Some c
  | String _ s' => last_char s'
  end.

(** The entry holds the incident: its id, the text built from it and the
    incident without its id. *)
Definition stores (e : Chroma.entry) (inc : Incident) : Prop :=
  incident_id inc = Some (Chroma.e_id e)
  ∧ Chroma.e_document e = document_text inc
  ∧ Chroma.e_metadata e = metadata_of inc.

(** The distinct elements of a list, in the order in which they first
    occur. *)
Fixpoint first_seen (l : list string) : list string :=
  match l with
  | [] => []
  | x :: l' => x :: filter (λ y, y ≠ x) (first_seen l')
  end.

(** The project a stored entry is filed under. *)
Definition entry_project (e : Chroma.entry) : string :=
  project_of (Chroma.e_metadata e).

(** The stored entries of a project, in storage order. *)
Definition entries_of_project (c : list Chroma.entry) (project_name : string)
    : list Chroma.entry :=
  filter (λ e, entry_project e = project_name) c.

(** What the layout shows of a stored entry. *)
Definition shown (e : Chroma.entry) : galaxy_incident :=
  GalaxyIncident (Chroma.e_id e) (str_take 150 (Chroma.e_document e))
    (str_take 50 <$> Chroma.e_metadata e).

(** The groups built from the entries [p]. *)
Definition grouped (p : list Chroma.entry) (ps : projects) : Prop :=
  ps.*1 = first_seen (entry_project <$> p)
  ∧ Forall (λ g, g.2 = shown <$> entries_of_project p g.1) ps.

(** What [search_similar] makes of the answer of the store to one query
    vector. *)
Definition search_with (W : World) (rag : IncidentRAG) (query_embedding : vec)
    (top_k : Z) (filters : option (gmap string string)) : res (list similar_incident) :=
  do results <- chroma_query W (collection rag) query_embedding (Z.min top_k 50)
                  (where_clause filters);
  format_results results.

(** The texts of 51 elements of a page, each of 22 characters or more. *)
Definition fifty_one_texts : list string :=
  (λ i, Reference.repeat_char "x" 21 ++ str_of_nat i) <$> seq 0 51.

(** A world whose page holds those elements, and whose local model
    encodes a full batch of 50 texts and runs out of memory on any
    other. *)
Definition second_batch_fails : World := {|
  ollama_post := ollama_post Reference.online;
  st_encode := λ texts,
    if decide (length texts = 50%nat) then ret (Reference.toy_embedding <$> texts)
    else raise (Exn "RuntimeError" "out of memory");
  chroma_query := chroma_query Reference.online;
  find_file := find_file Reference.online;
  incident_elements := λ _, ret fifty_one_texts;
  cache_write := None
|}.

(** Line 276: the size of a batch of [_add_incidents_to_db]. *)
Definition batch_size_of (rag : IncidentRAG) : nat :=
  if use_ollama rag then 10%nat else 50%nat.

(** The incident holds the five keys every parser sets, and names
    [source] as where it was read from. *)
Definition complete_from (source : string) (inc : Incident) : Prop :=
  inc !! "source" = Some source
  ∧ Forall (λ k, is_Some (inc !! k)) canonical_keys.

(** ** Statistics and reset *)

(** [sub in s]. *)
Fixpoint str_in (sub s : string) : bool :=
  String.prefix sub s
  || match s with
     | EmptyString => false
     | String _ s' => str_in sub s'
     end.

(** An entry of [rag_dir], as [pathlib] presents it: [file.name] and
    [file.suffix]. *)
Record dir_entry := DirEntry {
  de_name : string;
  de_suffix : string
}.

(** The directory the object owns and the client of the store, during one
    call of [get_stats] or [clear_database]. *)
Record Disk := {
  (** [self.rag_dir.iterdir()], run to its end, or the exception raised on
      the way. *)
  iterdir : res (list dir_entry);
  (** [str.lower]. *)
  str_lower : string -> string;
  (** The exception [client.delete_collection] raises, if any; the
      collection is then left as it was. *)
  delete_collection : option exn;
  (** The exception [client.create_collection] raises, if any. *)
  create_collection : option exn
}.

(** The dictionary under ['files']. *)
Record stats_files := StatsFiles {
  sf_faiss : bool;
  sf_pkl : bool;
  sf_chroma : bool
}.

(** What [get_stats] returns. *)
Inductive stats_payload :=
| Stats (total_incidents : nat) (collection_name : string) (has_data : bool)
    (files : stats_files) (rag_ready : bool)
| StatsError (error : string).
    (* {"error", "total_incidents": 0, "has_data": False, "rag_ready": False} *)

(** Lines 413-419: the three flags. *)
Definition scan_files (D : Disk) (entries : list dir_entry) : stats_files :=
  StatsFiles
    (existsb (λ file, str_in "faiss" (str_lower D (de_name file))
                      || String.eqb (de_suffix file) ".faiss") entries)
    (existsb (λ file, String.eqb (de_suffix file) ".pkl") entries)
    (existsb (λ file, String.eqb (de_name file) "chroma.sqlite3") entries).

(** [get_stats()].  The collection of the model always answers [count()];
    the error payload is the one returned when the directory cannot be
    listed. *)
Definition get_stats (D : Disk) (rag : IncidentRAG) : stats_payload :=
  let count := Chroma.count (collection rag) in
  match iterdir D with
  | inl e => StatsError (exc_msg e)
  | inr entries =>
      let files := scan_files D entries in
      Stats count "incidents" (0 <? count)%nat files
        ((0 <? count)%nat && (sf_faiss files || sf_chroma files))
  end.

(** The values under ['total_incidents'], ['has_data'] and ['rag_ready']. *)
Definition stats_total (p : stats_payload) : nat :=
  match p with
  | Stats total_incidents _ _ _ _ => total_incidents
  | StatsError _ => 0
  end.

Definition stats_has_data (p : stats_payload) : bool :=
  match p with
  | Stats _ _ has_data _ _ => has_data
  | StatsError _ => false
  end.

Definition stats_rag_ready (p : stats_payload) : bool :=
  match p with
  | Stats _ _ _ _ rag_ready => rag_ready
  | StatsError _ => false
  end.

(** What [clear_database] returns. *)
Inductive clear_payload :=
| ClearSuccess (message : string)    (* {"success": True, "message"} *)
| ClearError (error : string).       (* {"error"} *)

(** [clear_database()], lines 440-450: the payload and the object after the
    call.  That [delete_collection] followed by [create_collection]
    leaves an empty collection is the contract of the library.  When
    [delete_collection] went through and [create_collection] raised,
    [self.collection] is left bound to the deleted collection; that
    object is outside this model, and the state is [None]. *)
Definition clear_database (D : Disk) (rag : IncidentRAG)
    : clear_payload * option IncidentRAG :=
  match delete_collection D with
  | Some e => (ClearError (exc_msg e), Some rag)
  | None =>
      match create_collection D with
      | Some e => (ClearError (exc_msg e), None)
      | None => (ClearSuccess "Base de datos limpiada", Some (set_collection rag []))
      end
  end.

(** ** The HTTP bridge and the dashboard
    The handlers of [mcp_http_bridge.py] that call the engine, and the
    routes of [web_dashboard_v2.py] that call those handlers.  A handler
    is modelled from the dictionary of arguments on; the event loop and
    [jsonify] are taken not to raise. *)

(** The value under a key of a JSON object of a request, as far as the
    handlers below distinguish: the key is absent, or holds [null], or
    holds a string. *)
Inductive jarg :=
| ArgAbsent
| ArgNull
| ArgStr (s : string).

(** The JSON body of a response of the bridge. *)
Inductive bridge_body (A : Type) :=
| BridgeResult (success : bool) (result : A)   (* {'success', 'result'} *)
| BridgeError (error : string).                (* {'success': False, 'error'} *)
Arguments BridgeResult {A} success result.
Arguments BridgeError {A} error.

(** [result.get('success', False)] on the payload of [load_incidents]. *)
Definition load_success (p : load_payload) : bool :=
  match p with
  | LoadSuccess _ _ _ => true
  | LoadError _ => false
  | LoadException _ _ => false
  end.

(** [mcp_http_bridge.py], lines 292 and 303-305: the call of the engine,
    for a source that is a string.  A [source_type] that is [null]
    reaches the engine as [None], which is neither ["url"] nor
    ["file"]. *)
Definition engine_load (W : World) (rag : IncidentRAG) (source : string)
    (source_type : jarg) : load_payload * IncidentRAG :=
  match source_type with
  | ArgAbsent => load_incidents W rag source "file"
  | ArgStr t => load_incidents W rag source t
  | ArgNull => (LoadError "Tipo de fuente no soportado: None", rag)
  end.

(** [mcp_http_bridge.py], lines 290-311: [tool_load_incidents], from the
    values under ['source'] and ['source_type']; the body, the status
    and the object after the call. *)
Definition tool_load_incidents (W : World) (rag : IncidentRAG) (source source_type : jarg)
    : bridge_body load_payload * Z * IncidentRAG :=
  match source with
  | ArgStr (String c s) =>
      let '(result, rag1) := engine_load W rag (String c s) source_type in
      (BridgeResult (load_success result) result, 200, rag1)
  | _ => (BridgeError "source es requerido", 400, rag)
  end.

(** [mcp_http_bridge.py], lines 325-340: [tool_search_similar_incidents],
    from the value under ['incident_description'] and the integer under
    ['top_k'], if the key is there. *)
Definition tool_search_similar_incidents (W : World) (rag : IncidentRAG)
    (description : jarg) (top_k : option Z) : bridge_body search_payload * Z :=
  match description with
  | ArgStr (String c s) =>
      (BridgeResult true (search_similar W rag (String c s) (default 5 top_k) None), 200)
  | _ => (BridgeError "incident_description es requerido", 400)
  end.

(** [web_dashboard_v2.py], line 33. *)
Definition MCP_SERVER_URL : string := "http://192.168.30.13:9000".

(** What [requests.post] against the bridge followed by [response.json()]
    gives: one of the exceptions [call_mcp_tool] tells apart, or a body
    the bridge built. *)
Inductive transport (A : Type) :=
| ConnectionError
| Timeout
| RequestException (e : exn)
| Delivered (body : bridge_body A).
Arguments ConnectionError {A}.
Arguments Timeout {A}.
Arguments RequestException {A} e.
Arguments Delivered {A} body.

(** What [call_mcp_tool] returns. *)
Inductive mcp_result (A : Type) :=
| McpResult (result : A)       (* {'success': True, 'result'} *)
| McpError (error : string).   (* {'error', 'success': False} *)
Arguments McpResult {A} result.
Arguments McpError {A} error.

(** [web_dashboard_v2.py], lines 77-122: [call_mcp_tool], from the outcome
    of the request. *)
Definition call_mcp_tool {A} (t : transport A) : mcp_result A :=
  match t with
  | Delivered (BridgeResult true result) => McpResult result
  | Delivered (BridgeResult false _) => McpError "Error desconocido"
  | Delivered (BridgeError error) => McpError error
  | ConnectionError =>
      McpError ("No se puede conectar al servidor MCP en " ++ MCP_SERVER_URL)
  | Timeout => McpError "Timeout: El servidor tardó demasiado en responder"
  | RequestException e => McpError ("Error al llamar herramienta: " ++ exc_msg e)
  end.

(** The body of an answer of [load_rag]. *)
Inductive load_rag_body :=
| LoadRagResult (success : bool) (incidents_loaded : nat) (source : option string)
    (message : string)
| LoadRagError (error : string).

(** [web_dashboard_v2.py], lines 450-453: the arguments [load_rag] sends,
    from the values under ['source'] and ['source_type'] of its own
    request. *)
Definition load_rag_arguments (source source_type : jarg) : jarg * jarg :=
  (match source with
   | ArgAbsent => ArgStr "incidencias.json"
   | _ => source
   end,
   match source_type with
   | ArgAbsent => ArgStr "file"
   | _ => source_type
   end).

(** [web_dashboard_v2.py], lines 455-464: the answer of [load_rag], body
    and status. *)
Definition load_rag (r : mcp_result load_payload) : load_rag_body * Z :=
  match r with
  | McpResult (LoadSuccess n source _) =>
      (LoadRagResult true n (Some source) (str_of_nat n ++ " incidencias cargadas"), 200)
  | McpResult _ => (LoadRagResult false 0 None "0 incidencias cargadas", 200)
  | McpError error => (LoadRagError error, 400)
  end.

(** The body of an answer of [search_rag]. *)
Inductive search_rag_body :=
| SearchRagResult (result : search_payload)
| SearchRagError (error : string).

(** [web_dashboard_v2.py], lines 477-480: the answer of [search_rag]. *)
Definition search_rag (r : mcp_result search_payload) : search_rag_body * Z :=
  match r with
  | McpResult result => (SearchRagResult result, 200)
  | McpError error => (SearchRagError error, 400)
  end.

(** [POST /api/rag/load] when the bridge is reached and its response is
    delivered: the answer of the dashboard, and the object of the bridge
    after the call. *)
Definition dashboard_load (W : World) (rag : IncidentRAG) (source source_type : jarg)
    : load_rag_body * Z * IncidentRAG :=
  let arguments := load_rag_arguments source source_type in
  let '(body, _, rag1) := tool_load_incidents W rag arguments.1 arguments.2 in
  (load_rag (call_mcp_tool (Delivered body)), rag1).

(** [POST /api/rag/search] when the bridge is reached and its response is
    delivered; [description] is the value under ['description'] of the
    request, which [search_rag] sends on as it is. *)
Definition dashboard_search (W : World) (rag : IncidentRAG) (description : jarg)
    (top_k : option Z) : search_rag_body * Z :=
  let description := match description with ArgAbsent => ArgNull | _ => description end in
  let '(body, _) :=
    tool_search_similar_incidents W rag description (Some (default 5 top_k)) in
  search_rag (call_mcp_tool (Delivered body)).

(** * Properties *)

(** ** Strings, results and batches *)

Lemma str_take_length (n : nat) (s : string) :
  (String.length (str_take n s) ≤ n)%nat.
Proof.
  revert s. induction n as [|n IH]; intros [|c s]; simpl; try lia.
  specialize (IH s). lia.
Qed.

Lemma bind_inr {A B} (m : res A) (k : A -> res B) (b : B) :
  bind m k = inr b → ∃ a, m = inr a ∧ k a = inr b.
Proof. destruct m as [e|a]; simpl; [discriminate | eauto]. Qed.

Lemma index_inr {A} (l : list A) (i : nat) (a : A) :
  index l i = inr a ↔ l !! i = Some a.
Proof.
  unfold index. destruct (l !! i); simpl; split; intros H; try discriminate.
  - unfold ret in H. congruence.
  - unfold ret. congruence.
Qed.

Lemma traverse_inr {A B} (f : A -> res B) (l : list A) (bs : list B) :
  traverse f l = inr bs → Forall2 (λ a b, f a = inr b) l bs.
Proof.
  revert bs. induction l as [|a l IH]; simpl; intros bs H.
  - unfold ret in H. injection H as <-. constructor.
  - apply bind_inr in H as (b & Hb & H).
    apply bind_inr in H as (bs' & Hbs & H).
    unfold ret in H. injection H as <-. constructor; auto.
Qed.

Lemma traverse_total {A B} (f : A -> res B) (l : list A) :
  Forall (λ a, ∃ b, f a = inr b) l → ∃ bs, traverse f l = inr bs.
Proof.
  induction 1 as [|a l [b Hb] _ [bs Hbs]]; simpl.
  - eexists. reflexivity.
  - rewrite Hb. simpl. rewrite Hbs. simpl. eexists. reflexivity.
Qed.

Section Batches.
Context {A : Type}.
Implicit Types (l : list A) (P : A -> Prop).

Lemma batches_from_Forall P fuel size start l :
  Forall P l → Forall (λ b, Forall P b.2) (batches_from fuel size start l).
Proof.
  revert start l. induction fuel as [|fuel IH]; intros start l Hl; simpl.
  - destruct l; constructor.
  - destruct l as [|a l']; [constructor|].
    constructor.
    + simpl. by apply Forall_take.
    + apply IH. by apply Forall_drop.
Qed.

(** With a positive step the slices cover the list. *)
Lemma batches_from_concat fuel size start l :
  (0 < size)%nat → (length l ≤ fuel)%nat →
  mjoin ((batches_from fuel size start l).*2) = l.
Proof.
  intros Hsize. revert start l.
  induction fuel as [|fuel IH]; intros start l Hlen; simpl.
  - destruct l; [reflexivity | simpl in Hlen; lia].
  - destruct l as [|a l']; [reflexivity|].
    cbn [fmap list_fmap mjoin list_join snd].
    rewrite IH.
    + apply take_drop.
    + rewrite length_drop. simpl in *. lia.
Qed.

Lemma batches_cover size l a :
  (0 < size)%nat → a ∈ l → ∃ b, b ∈ batches size l ∧ a ∈ b.2.
Proof.
  intros Hsize Ha. unfold batches.
  rewrite <- (batches_from_concat (length l) size 0 l Hsize (le_n _)) in Ha.
  apply list_elem_of_join in Ha as (x & Hax & Hx).
  apply list_elem_of_fmap in Hx as (b & -> & Hb). eauto.
Qed.
End Batches.

(** ** Embedding provider *)

Lemma ollama_embedding_failed W i text :
  request_failed (ollama_post W i (str_take 2000 text)) →
  ollama_embedding W i text = zero_vector.
Proof.
  unfold ollama_embedding.
  destruct (ollama_post W i (str_take 2000 text)) as [e|status [v|]]; simpl; auto.
  intros H. apply Z.eqb_neq in H. by rewrite H.
Qed.

Lemma ollama_embeddings_length W i texts :
  length (ollama_embeddings W i texts) = length texts.
Proof. revert i. induction texts; intros i; simpl; auto. Qed.

Lemma ollama_embeddings_lookup W i texts j text :
  texts !! j = Some text →
  ollama_embeddings W i texts !! j = Some (ollama_embedding W (i + j) text).
Proof.
  revert i j. induction texts as [|t texts IH]; intros i [|j] H; simpl in *;
    try discriminate.
  - injection H as ->. by rewrite Nat.add_0_r.
  - rewrite (IH (S i) j H). do 2 f_equal. lia.
Qed.

Lemma zero_vector_spec : length zero_vector = 768%nat ∧ Forall (λ x, x = 0%float) zero_vector.
Proof.
  unfold zero_vector. split.
  - apply length_replicate.
  - apply Forall_replicate. reflexivity.
Qed.

(** ** Parsed incidents carry an id *)

Lemma add_extra_json_has_id inc kv : has_id inc → has_id (add_extra_json inc kv).
Proof.
  destruct kv as [k v]. unfold has_id, add_extra_json. simpl. intros H.
  destruct (inc !! k) eqn:Hk, v; auto.
  destruct (decide (k = "id")) as [->|Hne].
  - rewrite Hk in H. by destruct H.
  - by rewrite lookup_insert_ne.
Qed.

Lemma add_extra_csv_has_id row inc col : has_id inc → has_id (add_extra_csv row inc col).
Proof.
  unfold has_id, add_extra_csv. intros H.
  destruct (inc !! col) eqn:Hk; auto.
  destruct (decide (col = "id")) as [->|Hne].
  - rewrite Hk in H. by destruct H.
  - by rewrite lookup_insert_ne.
Qed.

Lemma foldl_preserves {A B} (P : A -> Prop) (f : A -> B -> A) (l : list B) (a : A) :
  (∀ a b, P a → P (f a b)) → P a → P (foldl f a l).
Proof. intros Hf. revert a. induction l; simpl; auto. Qed.

Lemma json_incident_has_id filename n item : has_id (json_incident filename n item).
Proof.
  unfold json_incident. apply foldl_preserves.
  - apply add_extra_json_has_id.
  - unfold has_id. rewrite !lookup_insert_ne by done. rewrite lookup_insert_eq. eauto.
Qed.

Lemma csv_incident_has_id filename df idx row : has_id (csv_incident filename df idx row).
Proof.
  unfold csv_incident. apply foldl_preserves.
  - apply add_extra_csv_has_id.
  - unfold has_id. rewrite !lookup_insert_ne by done. rewrite lookup_insert_eq. eauto.
Qed.

Lemma json_batch_Forall (P : Incident -> Prop) filename batch_start idx batch :
  (∀ n item, P (json_incident filename n item)) →
  Forall P (json_batch filename batch_start idx batch).
Proof.
  intros HP. revert idx.
  induction batch as [|[item|] batch IH]; intros idx; simpl; auto.
Qed.

Lemma json_incidents_Forall (P : Incident -> Prop) filename data :
  (∀ n item, P (json_incident filename n item)) →
  Forall P (json_incidents filename data).
Proof.
  intros HP. unfold json_incidents. apply Forall_forall. intros inc Hin.
  apply list_elem_of_join in Hin as (l & Hinc & Hl).
  apply list_elem_of_fmap in Hl as (b & -> & _).
  eapply Forall_forall; [|exact Hinc]. by apply json_batch_Forall.
Qed.

Lemma csv_incidents_Forall (P : Incident -> Prop) filename df :
  (∀ idx row, P (csv_incident filename df idx row)) →
  Forall P (csv_incidents filename df).
Proof.
  intros HP. unfold csv_incidents. apply Forall_forall. intros inc Hin.
  apply list_elem_of_lookup in Hin as (i & Hi).
  rewrite list_lookup_imap in Hi.
  destruct (df_rows df !! i); simpl in Hi; [|discriminate].
  injection Hi as <-. apply HP.
Qed.

Lemma web_incidents_Forall (P : Incident -> Prop) W url :
  (∀ i text inc, web_incident url i text = Some inc → P inc) →
  Forall P (_scrape_incidents_from_url W url).
Proof.
  intros HP. unfold _scrape_incidents_from_url.
  destruct (incident_elements W url) as [e|elements]; [constructor|].
  apply Forall_forall. intros inc Hin.
  apply list_elem_of_omap in Hin as (o & Ho & Hsome). simpl in Hsome. subst o.
  apply list_elem_of_lookup in Ho as (i & Hi).
  rewrite list_lookup_imap in Hi.
  destruct (elements !! i) as [text|]; simpl in Hi; [|discriminate].
  injection Hi as Hi. eauto.
Qed.

Lemma load_file_Forall (P : Incident -> Prop) W filename incidents :
  (∀ n item, P (json_incident filename n item)) →
  (∀ df idx row, P (csv_incident filename df idx row)) →
  _load_incidents_from_file W filename = inr incidents → Forall P incidents.
Proof.
  intros Hjson Hcsv. unfold _load_incidents_from_file.
  destruct (find_file W filename) as [f|]; [|discriminate].
  destruct (endswith filename ".json").
  { destruct (json_load f) as [e|data].
    - destruct (decide _); discriminate.
    - intros [= <-]. by apply json_incidents_Forall. }
  destruct (endswith filename ".csv").
  { intros H. apply bind_inr in H as (df & _ & [= <-]).
    by apply csv_incidents_Forall. }
  intros [= <-]. constructor.
Qed.

Lemma parse_source_has_id W source source_type incidents :
  parse_source W source source_type = Some (inr incidents) → Forall has_id incidents.
Proof.
  unfold parse_source.
  destruct (decide (source_type = "url")).
  { intros [= <-]. apply web_incidents_Forall.
    intros i text inc. unfold web_incident.
    destruct (_ <? _)%nat; [|discriminate]. intros [= <-].
    unfold has_id. rewrite !lookup_insert_ne by done. rewrite lookup_insert_eq. eauto. }
  destruct (decide (source_type = "file")); [|discriminate].
  intros [= H]. eapply load_file_Forall; [| |exact H].
  - apply json_incident_has_id.
  - intros. apply csv_incident_has_id.
Qed.

(** ** The store contract *)

Section ChromaFacts.
Import Chroma.
Implicit Types (c : collection) (e : entry) (b : list entry).

Lemma rows_ids i d v m b : rows i d v m = Some b → e_id <$> b = i.
Proof.
  revert d v m b.
  induction i as [|x i IH]; intros [|y d] [|z v] [|w m] b H; simpl in H;
    try discriminate.
  - by injection H as <-.
  - destruct (rows i d v m) as [b'|] eqn:Hb; simpl in H; [|discriminate].
    injection H as <-. simpl. f_equal. eauto.
Qed.

Lemma rows_same_length i d v m :
  length d = length i → length v = length i → length m = length i →
  is_Some (rows i d v m).
Proof.
  revert d v m.
  induction i as [|x i IH]; intros [|y d] [|z v] [|w m] Hd Hv Hm;
    simpl in *; try discriminate; eauto.
  destruct (IH d v m) as [b ->]; try lia. simpl. eauto.
Qed.

Lemma upsert_entry_ids c e i :
  i ∈ ids (upsert_entry c e) ↔ i ∈ ids c ∨ i = e_id e.
Proof.
  unfold ids. induction c as [|e' c IH]; simpl.
  - rewrite list_elem_of_singleton, elem_of_nil. tauto.
  - destruct (decide (e_id e' = e_id e)) as [Heq|Hne]; simpl.
    + rewrite !elem_of_cons, Heq. tauto.
    + rewrite !elem_of_cons, IH. tauto.
Qed.

(** Replace-on-conflict: an id that is present keeps the list of ids as
    it is. *)
Lemma upsert_entry_present c e :
  e_id e ∈ ids c → ids (upsert_entry c e) = ids c.
Proof.
  unfold ids. induction c as [|e' c IH]; simpl; intros H.
  - by apply elem_of_nil in H.
  - destruct (decide (e_id e' = e_id e)) as [Heq|Hne]; simpl.
    + by rewrite Heq.
    + f_equal. apply IH. apply elem_of_cons in H as [H|H]; [congruence|done].
Qed.

Lemma upsert_entry_absent c e :
  e_id e ∉ ids c → ids (upsert_entry c e) = (ids c ++ [e_id e])%list.
Proof.
  unfold ids. induction c as [|e' c IH]; simpl; intros H; [done|].
  apply not_elem_of_cons in H as [Hne H].
  destruct (decide (e_id e' = e_id e)); [congruence|].
  simpl. f_equal. by apply IH.
Qed.

Lemma upsert_entry_NoDup c e : NoDup (ids c) → NoDup (ids (upsert_entry c e)).
Proof.
  intros Hc. destruct (decide (e_id e ∈ ids c)) as [Hin|Hout].
  - by rewrite upsert_entry_present.
  - rewrite upsert_entry_absent by done.
    apply NoDup_app. split_and!; auto.
    + intros x Hx Hx'. apply list_elem_of_singleton in Hx'. by subst.
    + apply NoDup_singleton.
Qed.

Lemma foldl_upsert_ids b c i :
  i ∈ ids (foldl upsert_entry c b) ↔ i ∈ ids c ∨ i ∈ e_id <$> b.
Proof.
  revert c. induction b as [|e b IH]; intros c; simpl.
  - rewrite elem_of_nil. tauto.
  - rewrite IH, upsert_entry_ids, elem_of_cons. tauto.
Qed.

Lemma foldl_upsert_NoDup b c : NoDup (ids c) → NoDup (ids (foldl upsert_entry c b)).
Proof.
  revert c. induction b as [|e b IH]; intros c H; simpl; auto.
  apply IH. by apply upsert_entry_NoDup.
Qed.

Lemma foldl_upsert_present b c :
  Forall (λ e, e_id e ∈ ids c) b → ids (foldl upsert_entry c b) = ids c.
Proof.
  revert c. induction b as [|e b IH]; intros c H; simpl; [done|].
  apply Forall_cons in H as [He Hb].
  rewrite IH.
  - by apply upsert_entry_present.
  - rewrite upsert_entry_present by done. exact Hb.
Qed.

Lemma count_ids c : count c = length (ids c).
Proof. unfold count, ids. by rewrite length_fmap. Qed.

(** [add] either fails and leaves the collection alone, or appends a
    batch of fresh, distinct ids. *)
Lemma add_inr c i d v m c' :
  add c i d v m = inr c' →
  ids c' = (ids c ++ i)%list ∧ NoDup i ∧ Forall (λ x, x ∉ ids c) i.
Proof.
  unfold add. destruct (rows i d v m) as [b|] eqn:Hb; [|discriminate].
  destruct (has_duplicates i) eqn:Hdup; [discriminate|].
  destruct (conflicts c i) eqn:Hconf; [discriminate|]. simpl.
  intros [= <-]. split_and!.
  - unfold ids. rewrite fmap_app. f_equal. by apply rows_ids in Hb.
  - unfold has_duplicates in Hdup. apply bool_decide_eq_false in Hdup.
    by apply dec_stable.
  - unfold conflicts in Hconf. apply bool_decide_eq_false in Hconf.
    by apply not_Exists_Forall in Hconf; [|intros x; apply _].
Qed.

Lemma upsert_inr c i d v m c' :
  upsert c i d v m = inr c' →
  ∃ b, rows i d v m = Some b ∧ c' = foldl upsert_entry c b.
Proof.
  unfold upsert. destruct (rows i d v m) as [b|]; [|discriminate].
  intros [= <-]. eauto.
Qed.

(** An [upsert] that goes through never duplicates an id, and stores
    exactly the ids it was given besides those already there. *)
Lemma upsert_spec c i d v m c' :
  upsert c i d v m = inr c' →
  (NoDup (ids c) → NoDup (ids c')) ∧ (∀ x, x ∈ ids c' ↔ x ∈ ids c ∨ x ∈ i).
Proof.
  intros H. apply upsert_inr in H as (b & Hb & ->). split.
  - apply foldl_upsert_NoDup.
  - intros x. rewrite foldl_upsert_ids. by rewrite (rows_ids _ _ _ _ _ Hb).
Qed.
End ChromaFacts.

(** ** The write step *)

Section WriteStep.
Import Chroma.
Variables (W : World) (rag : IncidentRAG).

Lemma getitem_inr (d : gmap string string) k v : getitem d k = inr v ↔ d !! k = Some v.
Proof.
  unfold getitem. destruct (d !! k); simpl; split; intros H; try discriminate.
  - unfold ret in H. congruence.
  - unfold ret. congruence.
Qed.

Lemma prepare_batch_inr batch_start batch i d v m :
  prepare_batch W rag batch_start batch = inr (i, d, v, m) →
  Forall2 (λ inc x, inc !! "id" = Some x) batch i
  ∧ d = document_text <$> batch ∧ m = metadata_of <$> batch
  ∧ _generate_embeddings W rag batch_start d = inr v.
Proof.
  unfold prepare_batch. intros H.
  apply bind_inr in H as (i' & Hi & H).
  apply bind_inr in H as (v' & Hv & H).
  unfold ret in H. injection H as <- <- <- <-.
  split_and!; auto.
  apply traverse_inr in Hi.
  eapply Forall2_impl; [exact Hi|]. intros inc x. by apply getitem_inr.
Qed.

Lemma add_or_upsert_raise c i d v m c' e :
  add_or_upsert c i d v m = (c', Some e) → c' = c.
Proof.
  unfold add_or_upsert.
  destruct (add c i d v m); [|discriminate].
  destruct (upsert c i d v m); [|discriminate]. by intros [= <- _].
Qed.

Lemma add_or_upsert_ok c i d v m c' :
  add_or_upsert c i d v m = (c', None) → ∀ x, x ∈ ids c' ↔ x ∈ ids c ∨ x ∈ i.
Proof.
  unfold add_or_upsert.
  destruct (add c i d v m) as [e|c1] eqn:Hadd.
  - destruct (upsert c i d v m) as [e'|c2] eqn:Hup; [discriminate|].
    intros [= <-]. by apply upsert_spec in Hup as [_ Hup].
  - intros [= <-]. apply add_inr in Hadd as (-> & _ & _).
    intros x. apply elem_of_app.
Qed.

(** A batch whose ids are all stored already leaves the ids of the
    collection as they are, whether it goes through or raises. *)
Lemma add_or_upsert_present c i d v m :
  Forall (λ x, x ∈ ids c) i → ids (add_or_upsert c i d v m).1 = ids c.
Proof.
  intros Hin. unfold add_or_upsert.
  destruct (add c i d v m) as [e|c1] eqn:Hadd.
  - destruct (upsert c i d v m) as [e'|c2] eqn:Hup; [done|]. simpl.
    apply upsert_inr in Hup as (b & Hb & ->).
    apply foldl_upsert_present. apply Forall_forall. intros x Hx.
    apply (proj1 (Forall_forall _ _) Hin). rewrite <- (rows_ids _ _ _ _ _ Hb).
    by apply list_elem_of_fmap_2.
  - simpl. apply add_inr in Hadd as (-> & _ & Hfresh).
    destruct i as [|x i]; [by rewrite app_nil_r|].
    apply Forall_cons in Hin as [Hx _]. apply Forall_cons in Hfresh as [Hx' _].
    done.
Qed.

Lemma add_or_upsert_total c i d v m :
  is_Some (rows i d v m) → (add_or_upsert c i d v m).2 = None.
Proof.
  intros [b Hb]. unfold add_or_upsert.
  destruct (add c i d v m); [|done].
  unfold upsert. by rewrite Hb.
Qed.

Lemma write_batch_raise c batch_start batch c' e :
  write_batch W rag c batch_start batch = (c', Some e) → c' = c.
Proof.
  unfold write_batch.
  destruct (prepare_batch W rag batch_start batch) as [e'|[[[i d] v] m]].
  - by intros [= <- _].
  - apply add_or_upsert_raise.
Qed.

Lemma write_batch_ok c batch_start batch c' :
  write_batch W rag c batch_start batch = (c', None) →
  (∀ x, x ∈ ids c → x ∈ ids c')
  ∧ Forall (λ inc, ∃ x, inc !! "id" = Some x ∧ x ∈ ids c') batch.
Proof.
  unfold write_batch.
  destruct (prepare_batch W rag batch_start batch) as [e'|[[[i d] v] m]] eqn:Hp;
    [discriminate|].
  intros Hw. pose proof (add_or_upsert_ok _ _ _ _ _ _ Hw) as Hids.
  apply prepare_batch_inr in Hp as (Hi & _). split.
  - intros x Hx. apply Hids. by left.
  - apply Forall_forall. intros inc Hinc.
    apply list_elem_of_lookup in Hinc as (j & Hj).
    destruct (Forall2_lookup_l _ _ _ _ _ Hi Hj) as (x & Hx & Hid).
    exists x. split; [done|]. apply Hids. right.
    apply list_elem_of_lookup. eauto.
Qed.

Lemma write_batch_present c batch_start batch :
  Forall (λ inc, ∃ x, inc !! "id" = Some x ∧ x ∈ ids c) batch →
  ids (write_batch W rag c batch_start batch).1 = ids c.
Proof.
  intros Hin. unfold write_batch.
  destruct (prepare_batch W rag batch_start batch) as [e'|[[[i d] v] m]] eqn:Hp;
    [done|].
  apply add_or_upsert_present.
  apply prepare_batch_inr in Hp as (Hi & _).
  apply Forall_forall. intros x Hx.
  apply list_elem_of_lookup in Hx as (j & Hj).
  destruct (Forall2_lookup_r _ _ _ _ _ Hi Hj) as (inc & Hinc & Hid).
  assert (inc ∈ batch) as Hmem by (apply list_elem_of_lookup; eauto).
  destruct (proj1 (Forall_forall _ _) Hin inc Hmem) as (x' & Hx' & Hc).
  congruence.
Qed.

(** With the remote backend and incidents that carry an id, a batch
    never raises. *)
Lemma write_batch_remote c batch_start batch :
  use_ollama rag = true → Forall has_id batch →
  (write_batch W rag c batch_start batch).2 = None.
Proof.
  intros Hremote Hid. unfold write_batch.
  destruct (prepare_batch W rag batch_start batch) as [e|[[[i d] v] m]] eqn:Hp.
  - exfalso. unfold prepare_batch in Hp.
    destruct (traverse_total (λ inc, getitem inc "id") batch) as [i Hi].
    { eapply Forall_impl; [exact Hid|]. intros inc [x Hx]. exists x.
      by apply getitem_inr. }
    rewrite Hi in Hp. simpl in Hp.
    unfold _generate_embeddings in Hp. rewrite Hremote in Hp. discriminate.
  - apply add_or_upsert_total.
    apply prepare_batch_inr in Hp as (Hi & -> & -> & Hv).
    unfold _generate_embeddings in Hv. rewrite Hremote in Hv.
    injection Hv as <-.
    apply Forall2_length in Hi.
    apply rows_same_length;
      rewrite ?ollama_embeddings_length, !length_fmap; lia.
Qed.

Lemma write_batches_ok bs c c' :
  write_batches W rag c bs = (c', None) →
  (∀ x, x ∈ ids c → x ∈ ids c')
  ∧ Forall (λ b, Forall (λ inc, ∃ x, inc !! "id" = Some x ∧ x ∈ ids c') b.2) bs.
Proof.
  revert c. induction bs as [|[batch_start batch] bs IH]; intros c; simpl.
  - intros [= <-]. split; [done | constructor].
  - destruct (write_batch W rag c batch_start batch) as [c1 [e|]] eqn:Hb;
      [discriminate|].
    intros Hrest. apply write_batch_ok in Hb as (Hmono & Hbatch).
    apply IH in Hrest as (Hmono' & Hrest). split; [auto|].
    constructor; [|done]. simpl.
    eapply Forall_impl; [exact Hbatch|]. intros inc (x & Hx & Hc). eauto.
Qed.

Lemma write_batches_present bs c :
  Forall (λ b, Forall (λ inc, ∃ x, inc !! "id" = Some x ∧ x ∈ ids c) b.2) bs →
  ids (write_batches W rag c bs).1 = ids c.
Proof.
  revert c. induction bs as [|[batch_start batch] bs IH]; intros c Hin; simpl;
    [done|].
  apply Forall_cons in Hin as [Hb Hbs]. simpl in Hb.
  pose proof (write_batch_present c batch_start batch Hb) as Hids.
  destruct (write_batch W rag c batch_start batch) as [c1 [e|]]; simpl in Hids;
    [done|].
  rewrite IH; [done|]. by rewrite Hids.
Qed.

Lemma write_batches_remote bs c :
  use_ollama rag = true → Forall (λ b, Forall has_id b.2) bs →
  (write_batches W rag c bs).2 = None.
Proof.
  intros Hremote. revert c.
  induction bs as [|[batch_start batch] bs IH]; intros c Hid; simpl; [done|].
  apply Forall_cons in Hid as [Hb Hbs]. simpl in Hb.
  pose proof (write_batch_remote c batch_start batch Hremote Hb) as Hnone.
  destruct (write_batch W rag c batch_start batch) as [c1 [e|]]; simpl in Hnone;
    [discriminate|].
  by apply IH.
Qed.
End WriteStep.

(** ** Ingestion *)

Lemma add_incidents_remote W rag incidents :
  use_ollama rag = true → Forall has_id incidents →
  (_add_incidents_to_db W rag incidents).2 = None.
Proof.
  intros Hremote Hid. unfold _add_incidents_to_db.
  destruct incidents as [|inc incidents]; [done|].
  apply write_batches_remote; [done|]. by apply batches_from_Forall.
Qed.

(** C7. With the remote backend [_generate_embeddings] returns one vector
    per text, in the order of the texts; a text whose request fails (a
    transport error or timeout, or a status other than 200) gets the zero
    vector, which has 768 components; and under an endpoint that fails
    every request, ingesting a source from which N >= 1 incidents are
    parsed returns the success payload with [incidents_loaded = N]. *)
Theorem remote_embeddings_degrade_to_zero (W : World) (rag : IncidentRAG)
    (Hremote : use_ollama rag = true) :
  (∀ first texts, ∃ vs,
      _generate_embeddings W rag first texts = inr vs
      ∧ length vs = length texts
      ∧ ∀ j text, texts !! j = Some text →
          vs !! j = Some (ollama_embedding W (first + j) text)
          ∧ (request_failed (ollama_post W (first + j)%nat (str_take 2000 text)) →
             vs !! j = Some zero_vector))
  ∧ length zero_vector = 768%nat
  ∧ Forall (λ x, x = 0%float) zero_vector
  ∧ (∀ source source_type incidents,
      (∀ i prompt, request_failed (ollama_post W i prompt)) →
      parse_source W source source_type = Some (inr incidents) →
      incidents ≠ [] →
      (load_incidents W rag source source_type).1
      = LoadSuccess (length incidents) source source_type).
Proof.
  split_and!.
  - intros first texts. exists (ollama_embeddings W first texts).
    unfold _generate_embeddings. rewrite Hremote. split_and!; [done | |].
    + apply ollama_embeddings_length.
    + intros j text Hj.
      pose proof (ollama_embeddings_lookup W first texts j text Hj) as Hv.
      split; [done|]. intros Hfail. rewrite Hv. f_equal.
      by apply ollama_embedding_failed.
  - apply zero_vector_spec.
  - apply zero_vector_spec.
  - intros source source_type incidents _ Hparse Hne.
    unfold load_incidents. rewrite Hparse.
    destruct incidents as [|inc incidents]; [done|].
    pose proof (add_incidents_remote W rag (inc :: incidents) Hremote
                  (parse_source_has_id _ _ _ _ Hparse)) as Hnone.
    destruct (_add_incidents_to_db W rag (inc :: incidents)) as [c [e|]];
      simpl in Hnone; [discriminate|]. done.
Qed.

(** The scenario of the specification, on the table of three rows: the
    endpoint is unreachable, every stored vector is the zero vector, and
    ingestion reports success. *)
Lemma remote_embeddings_degrade_to_zero_witness :
  (load_incidents Reference.offline Reference.fresh "three.csv" "file").1
  = LoadSuccess 3 "three.csv" "file"
  ∧ _generate_embeddings Reference.offline Reference.fresh 0 ["a"; "b"]
    = inr [zero_vector; zero_vector].
Proof.
  destruct (remote_embeddings_degrade_to_zero Reference.offline Reference.fresh eq_refl)
    as (Hvs & _ & _ & Hload).
  split.
  - apply (Hload "three.csv" "file" (csv_incidents "three.csv" Reference.three_rows)).
    + intros i prompt. exact I.
    + reflexivity.
    + discriminate.
  - destruct (Hvs 0%nat ["a"; "b"]) as (vs & Hvs' & _ & Hzero).
    rewrite Hvs'. f_equal.
    destruct (Hzero 0%nat "a" eq_refl) as [_ Ha], (Hzero 1%nat "b" eq_refl) as [_ Hb].
    specialize (Ha I). specialize (Hb I).
    destruct vs as [|va [|vb [|? ?]]]; try discriminate.
    simpl in Ha, Hb. congruence.
Defined.

Lemma add_incidents_ok W rag incidents c :
  _add_incidents_to_db W rag incidents = (c, None) →
  ∀ rag', use_ollama rag' = use_ollama rag → collection rag' = c →
  ∀ W', Chroma.ids (_add_incidents_to_db W' rag' incidents).1 = Chroma.ids c.
Proof.
  unfold _add_incidents_to_db. intros Hfirst rag' Hsame Hc W'.
  destruct incidents as [|inc incidents]; [by rewrite Hc|].
  rewrite Hsame, Hc. apply write_batches_present.
  by apply write_batches_ok in Hfirst as [_ Hbs].
Qed.

Lemma reingestion_after_success W1 W2 rag source source_type n s t rag1 :
  load_incidents W1 rag source source_type = (LoadSuccess n s t, rag1) →
  parse_source W2 source source_type = parse_source W1 source source_type →
  Chroma.count (collection (load_incidents W2 rag1 source source_type).2)
  = Chroma.count (collection rag1).
Proof.
  intros Hfirst Hsame.
  unfold load_incidents in Hfirst |- *. rewrite Hsame.
  destruct (parse_source W1 source source_type) as [[e|incidents]|];
    [discriminate| |discriminate].
  destruct incidents as [|inc incidents]; [discriminate|].
  destruct (_add_incidents_to_db W1 rag (inc :: incidents)) as [c1 [e|]] eqn:Hdb;
    [discriminate|].
  injection Hfirst as _ _ _ <-.
  pose proof (add_incidents_ok W1 rag _ c1 Hdb (set_collection rag c1)
                eq_refl eq_refl W2) as Hids.
  rewrite !count_ids.
  destruct (_add_incidents_to_db W2 (set_collection rag c1) (inc :: incidents))
    as [c2 [e|]]; simpl in Hids |- *; by rewrite Hids.
Qed.

(** With the remote backend the first ingestion either changes nothing or
    returns success. *)
Lemma remote_ingestion_outcome W rag source source_type :
  use_ollama rag = true →
  (load_incidents W rag source source_type).2 = rag
  ∧ (parse_source W source source_type = None
     ∨ (∃ e, parse_source W source source_type = Some (inl e))
     ∨ parse_source W source source_type = Some (inr []))
  ∨ ∃ n s t rag1, load_incidents W rag source source_type = (LoadSuccess n s t, rag1).
Proof.
  intros Hremote. unfold load_incidents.
  destruct (parse_source W source source_type) as [[e|[|inc incidents]]|] eqn:Hparse.
  - left. eauto.
  - left. eauto.
  - right.
    pose proof (add_incidents_remote W rag (inc :: incidents) Hremote
                  (parse_source_has_id _ _ _ _ Hparse)) as Hnone.
    destruct (_add_incidents_to_db W rag (inc :: incidents)) as [c [e|]];
      simpl in Hnone; [discriminate|]. eauto 6.
  - left. eauto.
Qed.

(** C3. When a source has been ingested with success, ingesting the same
    source again leaves [count()] as it is; with the remote backend this
    holds whatever the first ingestion returned.  Whenever [add] raises,
    the same batch goes to [upsert], once, and the outcome of the write
    is the outcome of that [upsert]; an [upsert] that goes through keeps
    the ids of the collection distinct and stores the ids it was given
    besides those already there. *)
Theorem reingestion_keeps_count (W1 W2 : World) (rag : IncidentRAG)
    (source source_type : string) :
  (∀ n s t rag1,
      load_incidents W1 rag source source_type = (LoadSuccess n s t, rag1) →
      parse_source W2 source source_type = parse_source W1 source source_type →
      Chroma.count (collection (load_incidents W2 rag1 source source_type).2)
      = Chroma.count (collection rag1))
  ∧ (use_ollama rag = true →
     parse_source W2 source source_type = parse_source W1 source source_type →
     Chroma.count
       (collection
          (load_incidents W2 (load_incidents W1 rag source source_type).2
             source source_type).2)
     = Chroma.count (collection (load_incidents W1 rag source source_type).2))
  ∧ (∀ c ids documents embeddings metadatas e,
      Chroma.add c ids documents embeddings metadatas = inl e →
      add_or_upsert c ids documents embeddings metadatas
      = match Chroma.upsert c ids documents embeddings metadatas with
        | inr c' => (c', None)
        | inl e' => (c, Some e')
        end)
  ∧ (∀ c ids documents embeddings metadatas c',
      Chroma.upsert c ids documents embeddings metadatas = inr c' →
      (NoDup (Chroma.ids c) → NoDup (Chroma.ids c'))
      ∧ ∀ x, x ∈ Chroma.ids c' ↔ x ∈ Chroma.ids c ∨ x ∈ ids).
Proof.
  split_and!.
  - intros n s t rag1. apply reingestion_after_success.
  - intros Hremote Hsame.
    destruct (remote_ingestion_outcome W1 rag source source_type Hremote)
      as [[Hrag Hparse]|(n & s & t & rag1 & Hfirst)].
    + rewrite Hrag. unfold load_incidents. rewrite Hsame.
      destruct Hparse as [->|[[e ->]| ->]]; reflexivity.
    + rewrite Hfirst. simpl. by eapply reingestion_after_success.
  - intros c ids documents embeddings metadatas e Hadd.
    unfold add_or_upsert. by rewrite Hadd.
  - intros c ids documents embeddings metadatas c'. apply upsert_spec.
Qed.

(** The table of three rows, ingested twice: three entries, both times. *)
Lemma reingestion_keeps_count_witness :
  Chroma.count (collection
    (load_incidents Reference.offline
       (load_incidents Reference.offline Reference.fresh "three.csv" "file").2
       "three.csv" "file").2) = 3%nat.
Proof.
  destruct (reingestion_keeps_count Reference.offline Reference.offline
              Reference.fresh "three.csv" "file") as (Hcount & _ & _ & _).
  rewrite (Hcount 3%nat "three.csv" "file"
             (load_incidents Reference.offline Reference.fresh "three.csv" "file").2).
  - vm_compute. reflexivity.
  - reflexivity.
  - reflexivity.
Defined.

(** C8, as stated, fails: a source from which no incident is parsed makes
    [load_incidents] fail with a payload that holds ["error"] alone, and
    no ["traceback"]. *)
Lemma load_incidents_error_without_traceback :
  parse_source Reference.offline "empty.csv" "file" = Some (inr [])
  ∧ (load_incidents Reference.offline Reference.fresh "empty.csv" "file").1
    = LoadError "No se encontraron incidencias"
  ∧ payload_keys (load_incidents Reference.offline Reference.fresh "empty.csv" "file").1
    ≠ ["error"; "traceback"].
Proof. split_and!; [reflexivity | reflexivity | discriminate]. Qed.

(** C8, amended.  [load_incidents] returns one of three payloads.  When no
    incident is parsed it returns the error payload, never the success
    payload.  The success payload has the keys [success],
    [incidents_loaded], [source] and [source_type], and
    [incidents_loaded] is the number of parsed incidents, which is not
    zero.  A failure holds [error]; it holds [traceback] as well exactly
    when an exception was raised, while parsing or while writing. *)
Theorem load_incidents_payload (W : World) (rag : IncidentRAG)
    (source source_type : string) :
  (parse_source W source source_type = Some (inr []) →
   (load_incidents W rag source source_type).1 = LoadError "No se encontraron incidencias")
  ∧ match (load_incidents W rag source source_type).1 with
    | LoadSuccess incidents_loaded source' source_type' as p =>
        payload_keys p = ["success"; "incidents_loaded"; "source"; "source_type"]
        ∧ source' = source ∧ source_type' = source_type
        ∧ ∃ incidents,
            parse_source W source source_type = Some (inr incidents)
            ∧ incidents_loaded = length incidents ∧ incidents ≠ []
            ∧ (_add_incidents_to_db W rag incidents).2 = None
    | LoadError _ as p =>
        payload_keys p = ["error"]
        ∧ (parse_source W source source_type = None
           ∨ parse_source W source source_type = Some (inr []))
    | LoadException error traceback as p =>
        payload_keys p = ["error"; "traceback"]
        ∧ ∃ e, error = "Error al cargar incidencias: " ++ exc_msg e
             ∧ traceback = format_exc e
             ∧ (parse_source W source source_type = Some (inl e)
                ∨ ∃ incidents,
                    parse_source W source source_type = Some (inr incidents)
                    ∧ (_add_incidents_to_db W rag incidents).2 = Some e)
    end.
Proof.
  unfold load_incidents, load_exception.
  destruct (parse_source W source source_type) as [[e|[|inc incidents]]|] eqn:Hparse.
  - simpl. split; [discriminate|]. split; [done|]. exists e. auto.
  - simpl. split; [done|]. auto.
  - split; [discriminate|].
    destruct (_add_incidents_to_db W rag (inc :: incidents)) as [c [e|]] eqn:Hdb;
      cbn [fst payload_keys].
    + split; [done|]. exists e. split_and!; [done | done |]. right.
      exists (inc :: incidents). by rewrite Hdb.
    + split_and!; [done | done | done |].
      exists (inc :: incidents). rewrite Hdb. split_and!; done.
  - simpl. split; [discriminate|]. auto.
Qed.

(** The table of three rows loads with success; the table without rows
    does not. *)
Lemma load_incidents_payload_witness :
  (load_incidents Reference.offline Reference.fresh "empty.csv" "file").1
  = LoadError "No se encontraron incidencias".
Proof.
  apply (load_incidents_payload Reference.offline Reference.fresh "empty.csv" "file").
  reflexivity.
Defined.

(** ** Similarity search *)

Section Search.
Import Chroma.

(** What a row that passes the threshold is made of. *)
Lemma format_row_Some results i inc :
  format_row results i = inr (Some inc) →
  ∃ distances distance metadatas metadata ids id documents document,
    r_distances results !! 0%nat = Some distances ∧ distances !! i = Some distance
    ∧ r_metadatas results !! 0%nat = Some metadatas ∧ metadatas !! i = Some metadata
    ∧ r_ids results !! 0%nat = Some ids ∧ ids !! i = Some id
    ∧ r_documents results !! 0%nat = Some documents ∧ documents !! i = Some document
    ∧ PrimFloat.ltb 0.3 (1 - distance) = true
    ∧ inc = SimilarIncident id (1 - distance)%float (str_take 300 document) document
              (display_metadata metadata id document).
Proof.
  unfold format_row. intros H.
  apply bind_inr in H as (distances & Hds & H).
  apply bind_inr in H as (distance & Hd & H).
  destruct (PrimFloat.ltb 0.3 (1 - distance)) eqn:Hgt; [|discriminate].
  apply bind_inr in H as (metadatas & Hms & H).
  apply bind_inr in H as (metadata & Hm & H).
  apply bind_inr in H as (ids & His & H).
  apply bind_inr in H as (id & Hi & H).
  apply bind_inr in H as (documents & Hdocs & H).
  apply bind_inr in H as (document & Hdoc & H).
  injection H as <-.
  apply index_inr in Hds, Hd, Hms, Hm, His, Hi, Hdocs, Hdoc.
  exists distances, distance, metadatas, metadata, ids, id, documents, document.
  split_and!; done.
Qed.

Lemma length_omap_le {A B} (f : A -> option B) (l : list A) :
  (length (omap f l) ≤ length l)%nat.
Proof.
  induction l as [|a l IH]; simpl; [lia|].
  destruct (f a); simpl; change (list_omap A B f l) with (omap f l); lia.
Qed.

Lemma format_results_inr results l :
  format_results results = inr l →
  (length l ≤ length (default [] (r_ids results !! 0%nat)))%nat
  ∧ Forall (λ inc, ∃ i, format_row results i = inr (Some inc)) l.
Proof.
  unfold format_results.
  destruct (r_ids results) as [|ids rest] eqn:Hids.
  - intros [= <-]. split; [simpl; lia | constructor].
  - intros H. apply bind_inr in H as (rows & Hrows & [= <-]).
    apply traverse_inr in Hrows. split.
    + simpl. etrans; [apply length_omap_le|].
      rewrite <- (Forall2_length _ _ _ Hrows). by rewrite length_seq.
    + apply Forall_forall. intros inc Hinc.
      apply list_elem_of_omap in Hinc as (o & Ho & Hsome). simpl in Hsome. subst o.
      apply list_elem_of_lookup in Ho as (j & Hj).
      destruct (Forall2_lookup_r _ _ _ _ _ Hrows Hj) as (i & _ & Hi). eauto.
Qed.

End Search.

Lemma search_try_inr W rag incident_description top_k filters l :
  search_try W rag incident_description top_k filters = inr l →
  ∃ query_embedding results,
    chroma_query W (collection rag) query_embedding (Z.min top_k 50)
      (where_clause filters) = inr results
    ∧ format_results results = inr l.
Proof.
  unfold search_try. intros H.
  apply bind_inr in H as (embeddings & _ & H).
  apply bind_inr in H as (query_embedding & _ & H).
  apply bind_inr in H as (results & Hq & H). eauto.
Qed.

(** On binary64 floats [a < b] excludes [b <= a]. *)
Lemma float_lt_not_ge (a b : float) :
  PrimFloat.ltb a b = true → PrimFloat.leb b a = false.
Proof.
  rewrite FloatAxioms.ltb_spec, FloatAxioms.leb_spec. unfold SFltb, SFleb, SFcompare.
  destruct (Prim2SF a) as [sa|sa| |sa ma ea], (Prim2SF b) as [sb|sb| |sb mb eb];
    try destruct sa; try destruct sb; try discriminate; try reflexivity.
  all: rewrite (Z.compare_antisym ea eb);
    change (Pos.compare_cont Eq mb ma) with (Pos.compare mb ma);
    change (Pos.compare_cont Eq ma mb) with (Pos.compare ma mb);
    rewrite (Pos.compare_antisym ma mb);
    destruct (ea ?= eb)%Z; simpl; try discriminate; try reflexivity;
    destruct (ma ?= mb)%positive; simpl; try discriminate; reflexivity.
Qed.

(** C1. Every entry of [similar_incidents] has a [similarity_score]
    strictly greater than 0.3 -- so none has a score at or below 0.3 --
    and that score is 1 minus the distance the store returned at the
    entry's row of the query result. *)
Theorem similarity_above_threshold (W : World) (rag : IncidentRAG)
    (incident_description : string) (top_k : Z) (filters : option (gmap string string)) :
  Forall
    (λ inc,
       PrimFloat.ltb 0.3 (similarity_score inc) = true
       ∧ PrimFloat.leb (similarity_score inc) 0.3 = false
       ∧ ∃ query_embedding results distances ids i distance,
           chroma_query W (collection rag) query_embedding (Z.min top_k 50)
             (where_clause filters) = inr results
           ∧ Chroma.r_distances results !! 0%nat = Some distances
           ∧ distances !! i = Some distance
           ∧ Chroma.r_ids results !! 0%nat = Some ids
           ∧ ids !! i = Some (si_id inc)
           ∧ similarity_score inc = (1 - distance)%float)
    (similar_incidents (search_similar W rag incident_description top_k filters)).
Proof.
  unfold search_similar.
  destruct (search_try W rag incident_description top_k filters) as [e|l] eqn:Htry;
    simpl; [constructor|].
  apply search_try_inr in Htry as (query_embedding & results & Hq & Hfmt).
  apply format_results_inr in Hfmt as [_ Hrows].
  eapply Forall_impl; [exact Hrows|]. intros inc (i & Hi).
  apply format_row_Some in Hi
    as (distances & distance & metadatas & metadata & ids & id & documents & document
        & Hds & Hd & _ & _ & His & Hid & _ & _ & Hgt & ->).
  simpl. split; [exact Hgt|]. split; [by apply float_lt_not_ge|].
  exists query_embedding, results, distances, ids, i, distance. split_and!; done.
Qed.

Lemma reference_query_bounded c q n w results :
  Reference.query c q n w = inr results →
  Forall (λ ids, Z.of_nat (length ids) ≤ Z.max 0 n) (Chroma.r_ids results).
Proof.
  unfold Reference.query. intros [= <-]. simpl. constructor; [|constructor].
  rewrite length_fmap, length_take. lia.
Qed.

(** C2, as stated, fails for a negative [top_k]: the list of results
    cannot have fewer than zero entries. *)
Lemma negative_top_k_exceeds_min :
  query_bounded Reference.offline
  ∧ ¬ (Z.of_nat (length (similar_incidents
                           (search_similar Reference.offline Reference.fresh "q" (-1) None)))
       ≤ Z.min (-1) 50).
Proof.
  split.
  - intros c q n w results. apply reference_query_bounded.
  - vm_compute. intros H. apply H. reflexivity.
Qed.

(** C2, amended.  When the store answers within the number of results it
    is asked for, the number of entries of [similar_incidents] is at most
    [min(top_k, 50)] for every [top_k >= 0], and zero for a negative
    [top_k]; [total_found], when reported, is that number. *)
Theorem results_bounded_by_top_k (W : World) (rag : IncidentRAG)
    (incident_description : string) (top_k : Z) (filters : option (gmap string string))
    (Hstore : query_bounded W) :
  Z.of_nat (length (similar_incidents
                      (search_similar W rag incident_description top_k filters)))
  ≤ Z.max 0 (Z.min top_k 50)
  ∧ (0 ≤ top_k →
     Z.of_nat (length (similar_incidents
                         (search_similar W rag incident_description top_k filters)))
     ≤ Z.min top_k 50)
  ∧ ∀ n, total_found (search_similar W rag incident_description top_k filters) = Some n →
         n = length (similar_incidents
                       (search_similar W rag incident_description top_k filters)).
Proof.
  assert (Z.of_nat (length (similar_incidents
                      (search_similar W rag incident_description top_k filters)))
          ≤ Z.max 0 (Z.min top_k 50)) as Hbound.
  { unfold search_similar.
    destruct (search_try W rag incident_description top_k filters) as [e|l] eqn:Htry;
      simpl; [lia|].
    apply search_try_inr in Htry as (query_embedding & results & Hq & Hfmt).
    apply format_results_inr in Hfmt as [Hlen _].
    apply Hstore in Hq.
    destruct (Chroma.r_ids results) as [|ids rest]; simpl in Hlen; [lia|].
    apply Forall_cons in Hq as [Hq _]. lia. }
  split_and!; [exact Hbound | lia |].
  unfold search_similar.
  destruct (search_try W rag incident_description top_k filters); simpl;
    intros n [= <-]; done.
Qed.

(** Three entries are stored and two are asked for: two come back. *)
Lemma results_bounded_by_top_k_witness :
  Z.of_nat (length (similar_incidents
                      (search_similar Reference.online Reference.loaded "near" 2 None)))
  ≤ Z.min 2 50.
Proof.
  apply (results_bounded_by_top_k Reference.online Reference.loaded "near" 2 None).
  - intros c q n w results. apply reference_query_bounded.
  - lia.
Defined.

Example search_returns_nearest :
  total_found (search_similar Reference.online Reference.loaded "near" 2 None) = Some 2%nat
  ∧ si_id <$> similar_incidents
                (search_similar Reference.online Reference.loaded "near" 5 None)
    = ["csv_0"; "csv_1"; "csv_2"].
Proof. split; vm_compute; reflexivity. Qed.

(** The scenario of the specification: the nearest neighbour lies at
    distance 0.75, a similarity of 0.25, and nothing is returned. *)
Example search_below_threshold :
  search_similar Reference.online Reference.loaded "far" 5 None
  = SearchResult "far" [] 0 0.
Proof. vm_compute. reflexivity. Qed.

(** C9. [search_similar] returns a payload on every input.  When a step
    of its [try] block raises -- generating the embedding, taking its
    first element, querying the store, or formatting the rows -- the
    payload holds the original query, the error message, the traceback
    and an empty [similar_incidents]. *)
Theorem search_similar_never_raises (W : World) (rag : IncidentRAG)
    (incident_description : string) (top_k : Z) (filters : option (gmap string string)) :
  (∀ e, search_try W rag incident_description top_k filters = inl e →
        search_similar W rag incident_description top_k filters
        = SearchFailure incident_description ("Error en búsqueda: " ++ exc_msg e)
            (format_exc e) [])
  ∧ (∀ e, _generate_embeddings W rag 0 [incident_description] = inl e →
          search_try W rag incident_description top_k filters = inl e)
  ∧ (∀ embeddings e,
        _generate_embeddings W rag 0 [incident_description] = inr embeddings →
        index embeddings 0 = inl e →
        search_try W rag incident_description top_k filters = inl e)
  ∧ (∀ embeddings query_embedding e,
        _generate_embeddings W rag 0 [incident_description] = inr embeddings →
        index embeddings 0 = inr query_embedding →
        chroma_query W (collection rag) query_embedding (Z.min top_k 50)
          (where_clause filters) = inl e →
        search_try W rag incident_description top_k filters = inl e)
  ∧ (∀ embeddings query_embedding results e,
        _generate_embeddings W rag 0 [incident_description] = inr embeddings →
        index embeddings 0 = inr query_embedding →
        chroma_query W (collection rag) query_embedding (Z.min top_k 50)
          (where_clause filters) = inr results →
        format_results results = inl e →
        search_try W rag incident_description top_k filters = inl e)
  ∧ (∀ l, search_try W rag incident_description top_k filters = inr l →
          search_similar W rag incident_description top_k filters
          = SearchResult incident_description l (length l) 0).
Proof.
  unfold search_similar, search_try. split_and!.
  - intros e ->. reflexivity.
  - intros e ->. reflexivity.
  - intros embeddings e -> Hq. simpl. by rewrite Hq.
  - intros embeddings q e -> Hq Hres. simpl. rewrite Hq. simpl. by rewrite Hres.
  - intros embeddings q results e -> Hq Hres Hfmt. simpl. rewrite Hq. simpl.
    rewrite Hres. simpl. exact Hfmt.
  - intros l ->. reflexivity.
Qed.

(** The local model cannot be loaded: the search reports the failure and
    returns no incident. *)
Lemma search_similar_never_raises_witness :
  search_similar Reference.offline Reference.fresh_local "q" 5 None
  = SearchFailure "q" "Error en búsqueda: model files are missing"
      (format_exc (Exn "OSError" "model files are missing")) [].
Proof.
  destruct (search_similar_never_raises Reference.offline Reference.fresh_local "q" 5 None)
    as (Hfail & Hembed & _).
  apply (Hfail (Exn "OSError" "model files are missing")).
  apply Hembed. reflexivity.
Defined.

(** The store's answer lacks the distances: formatting the first row
    raises, and the search reports it. *)
Example search_on_ragged_answer :
  search_similar ragged_store Reference.fresh "q" 5 None
  = SearchFailure "q" "Error en búsqueda: list index out of range"
      (format_exc (Exn "IndexError" "list index out of range")) [].
Proof. vm_compute. reflexivity. Qed.

(** ** Display metadata *)

Lemma first_present_Some keys (metadata : gmap string string) v :
  first_present keys metadata = Some v ↔
  ∃ before k after,
    keys = (before ++ k :: after)%list
    ∧ Forall (λ k', metadata !! k' = None) before ∧ metadata !! k = Some v.
Proof.
  revert v. induction keys as [|k keys IH]; intros v; simpl.
  - split; [discriminate|]. intros (before & k & after & H & _). by destruct before.
  - destruct (metadata !! k) as [w|] eqn:Hk.
    + split.
      * intros [= <-]. exists [], k, keys. split_and!; [done | constructor | done].
      * intros ([|k' before] & k'' & after & Heq & Hnone & Hv); simplify_eq/=.
        -- congruence.
        -- apply Forall_cons in Hnone as [Hnone _]. congruence.
    + rewrite IH. split.
      * intros (before & k' & after & -> & Hnone & Hv).
        exists (k :: before), k', after. split_and!; [done | by constructor | done].
      * intros ([|k' before] & k'' & after & Heq & Hnone & Hv); simplify_eq/=.
        apply Forall_cons in Hnone as [_ Hnone]. eauto 6.
Qed.

Lemma first_present_None keys (metadata : gmap string string) :
  first_present keys metadata = None ↔ Forall (λ k, metadata !! k = None) keys.
Proof.
  induction keys as [|k keys IH]; simpl.
  - split; [constructor | done].
  - destruct (metadata !! k) eqn:Hk.
    + split; [discriminate|]. intros H. apply Forall_cons in H as [H _]. congruence.
    + rewrite IH. split; [by constructor | by intros [_ ?]%Forall_cons].
Qed.

Lemma field_key_excluded f : field_key f ∈ excluded_keys.
Proof. destruct f; refine (bool_decide_unpack _ _); vm_compute; exact I. Qed.

(** The keys of the literal of [display_metadata] are the field keys. *)
Lemma canonical_keys_fields (l : list (string * string)) k :
  l.*1 = field_key <$> display_fields → k ∈ l.*1 → ∃ f, k = field_key f.
Proof.
  intros -> Hin. apply list_elem_of_fmap in Hin as (f & -> & _). eauto.
Qed.

Lemma display_metadata_field metadata id document f :
  display_metadata metadata id document !! field_key f
  = Some (default (placeholder f id document) (first_present (aliases f) metadata)).
Proof.
  unfold display_metadata. rewrite lookup_union_r.
  2:{ apply map_lookup_filter_None_2. right. intros x _ HP. apply HP. simpl.
      apply field_key_excluded. }
  unfold dict_get.
  destruct f; simpl;
    rewrite ?lookup_insert_ne by done; rewrite lookup_insert_eq; f_equal;
    repeat (match goal with |- context [metadata !! ?k] => destruct (metadata !! k) end;
            simpl; try reflexivity).
Qed.

Lemma display_metadata_passes metadata id document k :
  k ∉ excluded_keys → display_metadata metadata id document !! k = metadata !! k.
Proof.
  intros Hk. unfold display_metadata. rewrite lookup_union_l.
  - rewrite map_lookup_filter. destruct (metadata !! k); simpl; [|done].
    by rewrite option_guard_True.
  - apply not_elem_of_list_to_map_1. intros Hin.
    apply canonical_keys_fields in Hin as [f ->]; [|reflexivity].
    apply Hk, field_key_excluded.
Qed.

Lemma display_metadata_drops metadata id document k :
  k ∈ excluded_keys → (∀ f, k ≠ field_key f) →
  display_metadata metadata id document !! k = None.
Proof.
  intros Hk Hf. unfold display_metadata. apply lookup_union_None_2.
  - apply map_lookup_filter_None_2. right. intros x _ HP. by apply HP.
  - apply not_elem_of_list_to_map_1. intros Hin.
    apply canonical_keys_fields in Hin as [f ->]; [|reflexivity].
    by apply (Hf f).
Qed.

(** Every entry of [similar_incidents] is built from one row of the
    store's answer: the row gives its id, its score, its document and the
    metadata that is displayed. *)
Lemma similar_incidents_metadata W rag incident_description top_k filters :
  Forall
    (λ inc,
       ∃ query_embedding results ids distances documents metadatas i distance metadata,
         chroma_query W (collection rag) query_embedding (Z.min top_k 50)
           (where_clause filters) = inr results
         ∧ Chroma.r_ids results !! 0%nat = Some ids
         ∧ ids !! i = Some (si_id inc)
         ∧ Chroma.r_distances results !! 0%nat = Some distances
         ∧ distances !! i = Some distance
         ∧ similarity_score inc = (1 - distance)%float
         ∧ Chroma.r_documents results !! 0%nat = Some documents
         ∧ documents !! i = Some (si_full_text inc)
         ∧ Chroma.r_metadatas results !! 0%nat = Some metadatas
         ∧ metadatas !! i = Some metadata
         ∧ si_metadata inc = display_metadata metadata (si_id inc) (si_full_text inc))
    (similar_incidents (search_similar W rag incident_description top_k filters)).
Proof.
  unfold search_similar.
  destruct (search_try W rag incident_description top_k filters) as [e|l] eqn:Htry;
    simpl; [constructor|].
  apply search_try_inr in Htry as (query_embedding & results & Hq & Hfmt).
  apply format_results_inr in Hfmt as [_ Hrows].
  eapply Forall_impl; [exact Hrows|]. intros inc (i & Hi).
  apply format_row_Some in Hi
    as (distances & distance & metadatas & metadata & ids & id & documents & document
        & Hds & Hd & Hms & Hm & His & Hi & Hdocs & Hdoc & _ & ->).
  exists query_embedding, results, ids, distances, documents, metadatas, i, distance,
    metadata.
  split_and!; done.
Qed.

(** C5, as stated, fails twice.  The key ["source"] is an alias of no
    display field and every stored incident holds it, yet no search
    result shows it.  And a field whose alias is stored need not come out
    non-default: the entry of the JSON document holds [Solución] with the
    very text of the placeholder, and the result shows the placeholder's
    text. *)
Lemma source_key_is_dropped :
  Forall (λ f, "source" ∉ aliases f) display_fields
  ∧ (λ e, Chroma.e_metadata e !! "source") <$> collection Reference.loaded
    = [Some "three.csv"; Some "three.csv"; Some "three.csv"]
  ∧ (λ inc, si_metadata inc !! "source")
      <$> similar_incidents (search_similar Reference.online Reference.loaded "near" 5 None)
    = [None; None; None]
  ∧ "Solución" ∈ aliases FieldSolucion
  ∧ (λ e, Chroma.e_metadata e !! "Solución") <$> collection solved
    = [Some "No registrada"]
  ∧ (λ inc, si_metadata inc !! field_key FieldSolucion)
      <$> similar_incidents (search_similar solved_world solved "near" 5 None)
    = [Some (placeholder FieldSolucion "json_0" "")].
Proof.
  split_and!.
  - refine (bool_decide_unpack _ _). vm_compute. exact I.
  - vm_compute. reflexivity.
  - vm_compute. reflexivity.
  - refine (bool_decide_unpack _ _). vm_compute. exact I.
  - vm_compute. reflexivity.
  - vm_compute. reflexivity.
Qed.

(** C5, amended.  The metadata of each search result is built from the
    row of the store's answer that gives the result its id, its score
    and its document.  In it, every display field whose stored metadata
    holds one of its aliases takes the value of the first alias present
    -- which is non-default whenever that value differs from the
    placeholder -- and takes its placeholder when none is present; every
    stored key outside the list of excluded keys appears unchanged; and
    an excluded key that is not the key of a display field -- the
    lower-case and long spellings, and ["source"] -- does not appear. *)
Theorem display_metadata_resolves_aliases (W : World) (rag : IncidentRAG)
    (incident_description : string) (top_k : Z) (filters : option (gmap string string)) :
  Forall
    (λ inc,
       ∃ query_embedding results ids distances documents metadatas i distance metadata,
         chroma_query W (collection rag) query_embedding (Z.min top_k 50)
           (where_clause filters) = inr results
         ∧ Chroma.r_ids results !! 0%nat = Some ids
         ∧ ids !! i = Some (si_id inc)
         ∧ Chroma.r_distances results !! 0%nat = Some distances
         ∧ distances !! i = Some distance
         ∧ similarity_score inc = (1 - distance)%float
         ∧ Chroma.r_documents results !! 0%nat = Some documents
         ∧ documents !! i = Some (si_full_text inc)
         ∧ Chroma.r_metadatas results !! 0%nat = Some metadatas
         ∧ metadatas !! i = Some metadata
         ∧ (∀ f before k after v,
              aliases f = (before ++ k :: after)%list →
              Forall (λ k', metadata !! k' = None) before →
              metadata !! k = Some v →
              si_metadata inc !! field_key f = Some v
              ∧ (v ≠ placeholder f (si_id inc) (si_full_text inc) →
                 si_metadata inc !! field_key f
                 ≠ Some (placeholder f (si_id inc) (si_full_text inc))))
         ∧ (∀ f, Forall (λ k, metadata !! k = None) (aliases f) →
              si_metadata inc !! field_key f
              = Some (placeholder f (si_id inc) (si_full_text inc)))
         ∧ (∀ k, k ∉ excluded_keys → si_metadata inc !! k = metadata !! k)
         ∧ (∀ k, k ∈ excluded_keys → (∀ f, k ≠ field_key f) →
              si_metadata inc !! k = None))
    (similar_incidents (search_similar W rag incident_description top_k filters)).
Proof.
  eapply Forall_impl; [apply similar_incidents_metadata|].
  intros inc (query_embedding & results & ids & distances & documents & metadatas & i
              & distance & metadata
              & Hq & His & Hi & Hds & Hd & Hscore & Hdocs & Hdoc & Hms & Hm & ->).
  exists query_embedding, results, ids, distances, documents, metadatas, i, distance,
    metadata.
  split_and!; try done.
  - intros f before k after v Hal Hnone Hv.
    rewrite display_metadata_field.
    assert (first_present (aliases f) metadata = Some v) as ->.
    { apply first_present_Some. eauto 8. }
    split; [done|]. simpl. congruence.
  - intros f Hnone. rewrite display_metadata_field.
    by apply first_present_None in Hnone as ->.
  - intros k. apply display_metadata_passes.
  - intros k. apply display_metadata_drops.
Qed.

(** An incident stored with the lower-case spelling [proyecto]: the
    display field [Proyecto] takes its value. *)
Example lower_case_proyecto_resolves :
  display_metadata {[ "proyecto" := "Alfa"; "source" := "a.json" ]} "json_0" "doc"
    !! "Proyecto" = Some "Alfa".
Proof.
  exact (display_metadata_field {[ "proyecto" := "Alfa"; "source" := "a.json" ]}
           "json_0" "doc" FieldProyecto).
Qed.

(** ** Layout cache *)

Lemma group_projects_total (c : Chroma.collection) metadatas i ps :
  (i + length metadatas ≤ length c)%nat →
  ∃ ps', group_projects (Chroma.get c) i metadatas ps = inr ps'.
Proof.
  revert i ps. induction metadatas as [|metadata metadatas IH]; intros i ps Hlen; simpl.
  - eexists. reflexivity.
  - simpl in Hlen.
    destruct (lookup_lt_is_Some_2 (Chroma.e_id <$> c) i) as [id Hid];
      [rewrite length_fmap; lia|].
    destruct (lookup_lt_is_Some_2 (Chroma.e_document <$> c) i) as [doc Hdoc];
      [rewrite length_fmap; lia|].
    unfold index. simpl. rewrite Hid, Hdoc. simpl. apply IH. lia.
Qed.

(** On a collection that is not empty the layout is generated, and its
    [total_incidents] is the live count. *)
Lemma generate_galaxy_nonempty L W rag :
  (0 < Chroma.count (collection rag))%nat →
  ∃ g, (generate_galaxy L W rag).1 = Generated g
       ∧ gd_total_incidents g = Chroma.count (collection rag).
Proof.
  unfold generate_galaxy, Chroma.count. intros Hpos.
  destruct (collection rag) as [|e c] eqn:Hc; [simpl in Hpos; lia|].
  destruct (group_projects_total (e :: c) (Chroma.e_metadata <$> e :: c) 0 [])
    as [ps Hps]; [by rewrite length_fmap|].
  cbn [Chroma.get Chroma.g_ids Chroma.g_metadatas fmap list_fmap] in *.
  rewrite Hps. eexists. split; [reflexivity|].
  simpl. by rewrite length_fmap.
Qed.

Lemma generate_galaxy_empty L W rag :
  Chroma.count (collection rag) = 0%nat →
  (generate_galaxy L W rag).1
  = NoData "No hay datos en la base de datos. Carga incidencias primero.".
Proof.
  unfold generate_galaxy, Chroma.count. intros Hzero.
  by destruct (collection rag).
Qed.

Lemma load_cache_Some rag d :
  load_cache rag true = Some d ↔
  galaxy_cache rag = CacheData d
  ∧ cd_total_incidents d = Some (CachedInt (Z.of_nat (Chroma.count (collection rag)))).
Proof.
  unfold load_cache, cache_matches.
  destruct (galaxy_cache rag) as [|e| |d'];
    try (split; [discriminate | by intros [? _]]).
  destruct (cd_total_incidents d') as [[n|]|] eqn:Hn.
  - destruct (Z.eqb_spec n (Z.of_nat (Chroma.count (collection rag)))) as [->|Hne].
    + split; [by intros [= <-] | by intros [[= <-] _]].
    + split; [discriminate|]. intros [[= <-] Ht]. congruence.
  - split; [discriminate|]. intros [[= <-] Ht]. congruence.
  - split; [discriminate|]. intros [[= <-] Ht]. congruence.
Qed.

(** C4, as stated, fails on an empty collection: the stale cache is not
    returned, but the regenerated output is the no-data failure, which
    reports no [total_incidents] at all. *)
Lemma stale_cache_on_empty_collection :
  (get_galaxy_data Reference.toy_lib Reference.offline
     (Rag true [] (CacheData (CachedDict (Some (CachedInt 3)) true [] 0))) true).1
  = NoData "No hay datos en la base de datos. Carga incidencias primero."
  ∧ reported_total
      (get_galaxy_data Reference.toy_lib Reference.offline
         (Rag true [] (CacheData (CachedDict (Some (CachedInt 3)) true [] 0))) true).1
    ≠ Some (CachedInt 0).
Proof. split; [reflexivity | discriminate]. Qed.

(** C4, amended.  With [use_cache=True] the cached structure is returned
    exactly when the cache file holds a dictionary whose [total_incidents]
    equals the live count.  Otherwise -- the file is absent, unreadable,
    not a dictionary, or holds another value -- the layout is regenerated:
    on a collection that is not empty the output reports [total_incidents]
    equal to the live count, and on an empty collection the output is the
    no-data failure, which reports no [total_incidents]. *)
Theorem stale_cache_is_regenerated (L : PyLib) (W : World) (rag : IncidentRAG) :
  (∀ d, (get_galaxy_data L W rag true).1 = FromCache d ↔
        galaxy_cache rag = CacheData d
        ∧ cd_total_incidents d
          = Some (CachedInt (Z.of_nat (Chroma.count (collection rag)))))
  ∧ ((∀ d, galaxy_cache rag = CacheData d →
           cd_total_incidents d
           ≠ Some (CachedInt (Z.of_nat (Chroma.count (collection rag))))) →
     ((0 < Chroma.count (collection rag))%nat →
      ∃ g, (get_galaxy_data L W rag true).1 = Generated g
           ∧ gd_total_incidents g = Chroma.count (collection rag)
           ∧ reported_total (get_galaxy_data L W rag true).1
             = Some (CachedInt (Z.of_nat (Chroma.count (collection rag)))))
     ∧ (Chroma.count (collection rag) = 0%nat →
        (get_galaxy_data L W rag true).1
        = NoData "No hay datos en la base de datos. Carga incidencias primero."
        ∧ reported_total (get_galaxy_data L W rag true).1 = None)).
Proof.
  unfold get_galaxy_data. split.
  - intros d. rewrite <- load_cache_Some.
    destruct (load_cache rag true) as [d'|] eqn:Hload; simpl.
    + split; [by intros [= <-] | by intros [= <-]].
    + split; [|discriminate]. intros Hgen.
      destruct (Nat.eq_dec (Chroma.count (collection rag)) 0%nat) as [Hz|Hnz].
      * rewrite (generate_galaxy_empty L W rag Hz) in Hgen. discriminate.
      * destruct (generate_galaxy_nonempty L W rag) as (g & Hg & _); [lia|].
        rewrite Hg in Hgen. discriminate.
  - intros Hstale.
    destruct (load_cache rag true) as [d|] eqn:Hload.
    { apply load_cache_Some in Hload as [Hd Ht]. by destruct (Hstale d Hd). }
    split.
    + intros Hpos. destruct (generate_galaxy_nonempty L W rag Hpos) as (g & Hg & Ht).
      exists g. rewrite Hg. simpl. by rewrite Ht.
    + intros Hz. by rewrite (generate_galaxy_empty L W rag Hz).
Qed.

(** Three incidents are stored and the cache was written for two: the
    layout is generated again and reports three. *)
Lemma stale_cache_is_regenerated_witness :
  ∃ g, (get_galaxy_data Reference.toy_lib Reference.online stale true).1 = Generated g
       ∧ gd_total_incidents g = 3%nat.
Proof.
  destruct (stale_cache_is_regenerated Reference.toy_lib Reference.online stale)
    as [_ Hregen].
  destruct Hregen as [Hpos _].
  - intros d [= <-]. vm_compute. discriminate.
  - destruct Hpos as (g & Hg & Ht & _).
    + vm_compute. lia.
    + exists g. split; [exact Hg|]. rewrite Ht. vm_compute. reflexivity.
Defined.

(** The scenario of the specification: the table of three rows loads as
    three incidents, the collection counts three, and the layout has two
    projects, of which ["A"] holds two incidents. *)
Example layout_of_three_rows :
  (load_incidents Reference.online Reference.fresh "three.csv" "file").1
  = LoadSuccess 3 "three.csv" "file"
  ∧ Chroma.count (collection Reference.loaded) = 3%nat
  ∧ match (get_galaxy_data Reference.toy_lib Reference.online Reference.loaded true).1 with
    | Generated g =>
        gd_total_projects g = 2%nat ∧ gd_total_incidents g = 3%nat
        ∧ (λ s, (s_name s, s_incident_count s)) <$> gd_suns g
          = [("A", 2%nat); ("B", 1%nat)]
    | _ => False
    end.
Proof. vm_compute. split_and!; reflexivity. Qed.

(** ** Sun positions *)

Lemma make_sun_position L p : sun_position (make_sun L p) = position_of L (s_name (make_sun L p)).
Proof. destruct p as [project_name incidents]. reflexivity. Qed.

Lemma generated_suns_made L W rag use_cache :
  Forall (λ s, ∃ p, s = make_sun L p)
    (generated_suns (get_galaxy_data L W rag use_cache).1).
Proof.
  unfold get_galaxy_data.
  destruct (load_cache rag use_cache); [constructor|].
  unfold generate_galaxy.
  destruct (Chroma.g_ids (Chroma.get (collection rag))); [constructor|].
  destruct (group_projects _ _ _ _) as [e|ps]; [constructor|]. simpl.
  apply Forall_forall. intros u Hu.
  apply list_elem_of_fmap in Hu as (p & -> & _). eauto.
Qed.

(** C10. In every generated layout the position of a sun is
    [position_of] its project name, a function of the name that reduces
    the integer value of the name's hash modulo 360, 50 and 20 into an
    angle, a radius and a vertical offset.  So two suns with equal names
    have equal positions, whatever collections they were generated from
    and in whatever order their incidents were inserted. *)
Theorem sun_position_depends_on_name (L : PyLib) (W1 W2 : World) (rag1 rag2 : IncidentRAG)
    (use_cache1 use_cache2 : bool) :
  Forall (λ s, sun_position s = position_of L (s_name s))
    (generated_suns (get_galaxy_data L W1 rag1 use_cache1).1)
  ∧ ∀ s1 s2,
      s1 ∈ generated_suns (get_galaxy_data L W1 rag1 use_cache1).1 →
      s2 ∈ generated_suns (get_galaxy_data L W2 rag2 use_cache2).1 →
      s_name s1 = s_name s2 →
      sun_position s1 = sun_position s2.
Proof.
  assert (∀ W rag use_cache,
            Forall (λ s, sun_position s = position_of L (s_name s))
              (generated_suns (get_galaxy_data L W rag use_cache).1)) as Hpos.
  { intros W rag use_cache.
    eapply Forall_impl; [apply generated_suns_made|].
    intros s [p ->]. apply make_sun_position. }
  split; [apply Hpos|].
  intros s1 s2 Hs1 Hs2 Hname.
  rewrite (proj1 (Forall_forall _ _) (Hpos W1 rag1 use_cache1) s1 Hs1).
  rewrite (proj1 (Forall_forall _ _) (Hpos W2 rag2 use_cache2) s2 Hs2).
  by rewrite Hname.
Qed.

(** Project ["A"] is the first sun of one layout and the second of the
    other, with other incidents: its position is the same. *)
Lemma sun_position_depends_on_name_witness :
  s_name (sun_at (get_galaxy_data Reference.toy_lib Reference.online Reference.loaded false).1 0)
  = "A"
  ∧ s_name (sun_at (get_galaxy_data Reference.toy_lib Reference.online reversed false).1 1)
    = "A"
  ∧ sun_position
      (sun_at (get_galaxy_data Reference.toy_lib Reference.online Reference.loaded false).1 0)
    = sun_position
        (sun_at (get_galaxy_data Reference.toy_lib Reference.online reversed false).1 1).
Proof.
  split_and!; [vm_compute; reflexivity | vm_compute; reflexivity |].
  apply (sun_position_depends_on_name Reference.toy_lib Reference.online Reference.online
           Reference.loaded reversed false false).
  - apply list_elem_of_lookup. exists 0%nat. vm_compute. reflexivity.
  - apply list_elem_of_lookup. exists 1%nat. vm_compute. reflexivity.
  - vm_compute. reflexivity.
Defined.

(** ** Extra fields *)

Lemma add_extra_json_bounded inc kv :
  extras_bounded inc → extras_bounded (add_extra_json inc kv).
Proof.
  destruct kv as [k v]. unfold add_extra_json. cbn [fst snd]. intros Hinc.
  destruct (inc !! k) as [old|] eqn:Hk, v as [|rendering]; try exact Hinc.
  apply map_Forall_insert_2; [|exact Hinc]. right. apply str_take_length.
Qed.

(** The JSON branch truncates: every extra field of every incident it
    builds holds at most 500 characters. *)
Lemma json_extra_fields_truncated filename data :
  Forall extras_bounded (json_incidents filename data).
Proof.
  apply json_incidents_Forall. intros n item. unfold json_incident.
  apply foldl_preserves; [apply add_extra_json_bounded|].
  repeat (apply map_Forall_insert_2;
          [left; refine (bool_decide_unpack _ _); vm_compute; exact I|]).
  apply map_Forall_empty.
Qed.

(** The URL branch builds no extra field. *)
Lemma web_no_extra_fields W url :
  Forall (λ inc, dom inc = list_to_set canonical_keys) (_scrape_incidents_from_url W url).
Proof.
  apply web_incidents_Forall. intros i text inc. unfold web_incident.
  destruct (_ <? _)%nat; [|discriminate]. intros [= <-].
  rewrite !dom_insert_L, dom_empty_L. unfold canonical_keys. simpl. set_solver.
Qed.

(** C6: the CSV branch does not truncate.  A table with the extra column
    [notas] whose cell holds 501 characters is ingested with success, and
    the stored entry keeps all 501 characters under [notas]. *)
Lemma csv_extra_field_not_truncated :
  (load_incidents Reference.offline Reference.fresh "long.csv" "file").1
  = LoadSuccess 1 "long.csv" "file"
  ∧ (λ e, String.length <$> Chroma.e_metadata e !! "notas")
      <$> collection (load_incidents Reference.offline Reference.fresh "long.csv" "file").2
    = [Some 501%nat]
  ∧ "notas" ∉ canonical_keys.
Proof.
  split_and!.
  - vm_compute. reflexivity.
  - vm_compute. reflexivity.
  - refine (bool_decide_unpack _ _). vm_compute. exact I.
Qed.

(** ** Order of the results *)

Lemma ids_of_kept_rows (xs : list string) (rows : list (option similar_incident)) :
  Forall2 (λ x o, ∀ inc, o = Some inc → si_id inc = x) xs rows →
  si_id <$> omap id rows `sublist_of` xs.
Proof.
  induction 1 as [|x o xs rows Hx _ IH]; [constructor|].
  destruct o as [inc|]; simpl.
  - rewrite (Hx inc eq_refl). by apply sublist_skip.
  - by apply sublist_cons.
Qed.

(** No re-ranking: the ids of [similar_incidents] are the ids of the
    store's answer, in the store's order, without the rows the threshold
    leaves out. *)
Theorem results_keep_store_order (W : World) (rag : IncidentRAG)
    (incident_description : string) (top_k : Z) (filters : option (gmap string string)) :
  similar_incidents (search_similar W rag incident_description top_k filters) = []
  ∨ ∃ query_embedding results ids,
      chroma_query W (collection rag) query_embedding (Z.min top_k 50)
        (where_clause filters) = inr results
      ∧ Chroma.r_ids results !! 0%nat = Some ids
      ∧ si_id <$> similar_incidents
                    (search_similar W rag incident_description top_k filters)
        `sublist_of` ids.
Proof.
  unfold search_similar.
  destruct (search_try W rag incident_description top_k filters) as [e|l] eqn:Htry;
    simpl; [by left|].
  apply search_try_inr in Htry as (query_embedding & results & Hq & Hfmt).
  unfold format_results in Hfmt.
  destruct (Chroma.r_ids results) as [|ids rest] eqn:Hids.
  { injection Hfmt as <-. by left. }
  right. exists query_embedding, results, ids. rewrite Hids. split_and!; [done | done |].
  apply bind_inr in Hfmt as (rows & Hrows & [= <-]).
  apply traverse_inr in Hrows. apply ids_of_kept_rows.
  apply Forall2_same_length_lookup_2.
  - rewrite <- (Forall2_length _ _ _ Hrows). by rewrite length_seq.
  - intros i x o Hx Ho inc ->.
    destruct (Forall2_lookup_r _ _ _ _ _ Hrows Ho) as (j & Hj & Hrow).
    apply lookup_seq in Hj as [-> _]. simpl in Hrow.
    apply format_row_Some in Hrow
      as (distances & distance & metadatas & metadata & ids' & id' & documents & document
          & _ & _ & _ & _ & Hids' & Hid' & _ & _ & _ & ->).
    rewrite Hids in Hids'. simpl in Hids'. injection Hids' as <-. simpl. congruence.
Qed.

(** The preview text of a result is the first 300 characters of its full
    text. *)
Theorem preview_text_is_bounded (W : World) (rag : IncidentRAG)
    (incident_description : string) (top_k : Z) (filters : option (gmap string string)) :
  Forall (λ inc, si_text inc = str_take 300 (si_full_text inc)
                 ∧ (String.length (si_text inc) ≤ 300)%nat)
    (similar_incidents (search_similar W rag incident_description top_k filters)).
Proof.
  unfold search_similar.
  destruct (search_try W rag incident_description top_k filters) as [e|l] eqn:Htry;
    simpl; [constructor|].
  apply search_try_inr in Htry as (query_embedding & results & Hq & Hfmt).
  apply format_results_inr in Hfmt as [_ Hrows].
  eapply Forall_impl; [exact Hrows|]. intros inc (i & Hi).
  apply format_row_Some in Hi
    as (distances & distance & metadatas & metadata & ids & id & documents & document
        & _ & _ & _ & _ & _ & _ & _ & _ & _ & ->).
  cbn [si_text si_full_text]. split; [done | apply str_take_length].
Qed.

(** ** Shape of the layout *)

Lemma group_append_names ps project_name inc :
  (group_append ps project_name inc).*1
  = if decide (project_name ∈ ps.*1) then ps.*1 else (ps.*1 ++ [project_name])%list.
Proof.
  induction ps as [|[n incidents] ps IH]; [done|].
  cbn [group_append]. destruct (decide (n = project_name)) as [->|Hne].
  - rewrite !fmap_cons. cbn [fst]. by rewrite decide_True by apply list_elem_of_here.
  - rewrite !fmap_cons. cbn [fst]. rewrite IH.
    destruct (decide (project_name ∈ ps.*1)) as [Hin|Hout].
    + by rewrite decide_True by by apply list_elem_of_further.
    + rewrite decide_False; [done|].
      intros [Heq|Hin]%elem_of_cons; [congruence | done].
Qed.

Lemma group_append_NoDup ps project_name inc :
  NoDup ps.*1 → NoDup (group_append ps project_name inc).*1.
Proof.
  intros Hps. rewrite group_append_names.
  destruct (decide (project_name ∈ ps.*1)) as [Hin|Hout]; [done|].
  apply NoDup_app. split_and!; [done | | apply NoDup_singleton].
  intros x Hx Hx'. apply list_elem_of_singleton in Hx'. by subst.
Qed.

Lemma group_append_sum ps project_name inc :
  sum_list_with (λ p, length p.2) (group_append ps project_name inc)
  = S (sum_list_with (λ p, length p.2) ps).
Proof.
  induction ps as [|[n incidents] ps IH]; simpl; [done|].
  destruct (decide (n = project_name)); simpl.
  - rewrite length_app. simpl. lia.
  - rewrite IH. lia.
Qed.

Lemma group_projects_shape results i metadatas ps ps' :
  group_projects results i metadatas ps = inr ps' →
  (NoDup ps.*1 → NoDup ps'.*1)
  ∧ sum_list_with (λ p, length p.2) ps'
    = (sum_list_with (λ p, length p.2) ps + length metadatas)%nat.
Proof.
  revert i ps. induction metadatas as [|metadata metadatas IH]; intros i ps; simpl.
  - intros [= <-]. split; [done | lia].
  - intros H. apply bind_inr in H as (id & _ & H).
    apply bind_inr in H as (document & _ & H).
    apply IH in H as [Hnodup Hsum]. split.
    + intros Hps. by apply Hnodup, group_append_NoDup.
    + rewrite Hsum, group_append_sum. lia.
Qed.

(** In a generated layout the suns have distinct names, their
    [incident_count]s add up to [total_incidents], and [total_projects]
    counts the suns. *)
Theorem layout_partitions_incidents (L : PyLib) (W : World) (rag : IncidentRAG)
    (use_cache : bool) :
  match (get_galaxy_data L W rag use_cache).1 with
  | Generated g =>
      NoDup (s_name <$> gd_suns g)
      ∧ sum_list_with s_incident_count (gd_suns g) = gd_total_incidents g
      ∧ gd_total_projects g = length (gd_suns g)
      ∧ gd_total_incidents g = Chroma.count (collection rag)
  | _ => True
  end.
Proof.
  unfold get_galaxy_data.
  destruct (load_cache rag use_cache); [done|].
  unfold generate_galaxy.
  destruct (Chroma.g_ids (Chroma.get (collection rag))) as [|id ids] eqn:Hids; [done|].
  destruct (group_projects _ _ _ _) as [e|ps] eqn:Hps; [done|].
  cbn [fst gd_suns gd_total_incidents gd_total_projects].
  apply group_projects_shape in Hps as [Hnodup Hsum].
  assert (s_name <$> (make_sun L <$> ps) = ps.*1) as Hnames.
  { rewrite <- list_fmap_compose. apply list_fmap_ext. by intros _ [n l] _. }
  assert (sum_list_with s_incident_count (make_sun L <$> ps)
          = sum_list_with (λ p, length p.2) ps) as Hcounts.
  { clear. induction ps as [|[n l] ps IH]; csimpl; [done|]. by rewrite IH. }
  rewrite Hnames, Hcounts, Hsum. simpl.
  apply (f_equal length) in Hids. unfold Chroma.get in Hids.
  cbn [Chroma.g_ids length] in Hids. rewrite length_fmap in Hids.
  unfold Chroma.count.
  split_and!; [apply Hnodup; constructor | by rewrite length_fmap | done | done].
Qed.

(** Each sun exposes at most 500 incidents, reports the true count as
    [size] and [incident_count], and flags [has_more] exactly when it
    holds more than 500. *)
Theorem sun_exposes_at_most_500 (L : PyLib) (W : World) (rag : IncidentRAG)
    (use_cache : bool) :
  Forall (λ s, length (s_incidents s) = (s_incident_count s `min` 500)%nat
               ∧ s_size s = s_incident_count s
               ∧ s_has_more s = (500 <? s_incident_count s)%nat)
    (generated_suns (get_galaxy_data L W rag use_cache).1).
Proof.
  eapply Forall_impl; [apply generated_suns_made|].
  intros s [[project_name incidents] ->]. cbn.
  split_and!; [|done|done]. rewrite length_take. lia.
Qed.

(** After a layout has been generated and written, the next call with
    [use_cache=True] returns what was written, as long as the collection
    has not changed. *)
Theorem written_cache_is_served (L L' : PyLib) (W W' : World) (rag rag' : IncidentRAG)
    (use_cache : bool) (g : galaxy_data) :
  get_galaxy_data L W rag use_cache = (Generated g, rag') →
  cache_write W = None →
  get_galaxy_data L' W' rag' true = (FromCache (cached_of g), rag').
Proof.
  unfold get_galaxy_data at 1.
  destruct (load_cache rag use_cache); [discriminate|].
  unfold generate_galaxy.
  destruct (Chroma.g_ids (Chroma.get (collection rag))) as [|id ids] eqn:Hids;
    [discriminate|].
  destruct (group_projects _ _ _ _) as [e|ps]; [discriminate|].
  intros [= <- <-] Hwrite.
  unfold get_galaxy_data, load_cache, save_cache. rewrite Hwrite.
  cbn [set_galaxy_cache galaxy_cache collection cached_of gd_total_incidents
       cache_matches cd_total_incidents].
  assert (S (length ids) = Chroma.count (collection rag)) as ->.
  { apply (f_equal length) in Hids. unfold Chroma.get in Hids.
    cbn [Chroma.g_ids length] in Hids. rewrite length_fmap in Hids. done. }
  by rewrite Z.eqb_refl.
Qed.

(** The layout of the three stored incidents is generated, then served
    from the cache. *)
Lemma written_cache_is_served_witness :
  ∃ d, (get_galaxy_data Reference.toy_lib Reference.online
          (get_galaxy_data Reference.toy_lib Reference.online Reference.loaded false).2
          true).1 = FromCache d
       ∧ cd_total_incidents d = Some (CachedInt 3).
Proof.
  set (r := get_galaxy_data Reference.toy_lib Reference.online Reference.loaded false).
  pose (g := match r.1 with
             | Generated g => g
             | _ => GalaxyData false [] 0 0
             end).
  exists (cached_of g).
  rewrite (written_cache_is_served Reference.toy_lib Reference.toy_lib
             Reference.online Reference.online Reference.loaded r.2 false g).
  - split; [reflexivity | vm_compute; reflexivity].
  - reflexivity.
  - reflexivity.
Defined.

(** ** Completeness of an ingestion *)

(** After an ingestion that returned success, the id of every parsed
    incident is stored, and every id stored before is still stored. *)
Theorem parsed_incidents_are_stored (W : World) (rag rag1 : IncidentRAG)
    (source source_type : string) (n : nat) (s t : string) :
  load_incidents W rag source source_type = (LoadSuccess n s t, rag1) →
  ∃ incidents,
    parse_source W source source_type = Some (inr incidents)
    ∧ Forall (λ inc, ∃ id, inc !! "id" = Some id ∧ id ∈ Chroma.ids (collection rag1))
        incidents
    ∧ ∀ id, id ∈ Chroma.ids (collection rag) → id ∈ Chroma.ids (collection rag1).
Proof.
  unfold load_incidents.
  destruct (parse_source W source source_type) as [[e|incidents]|];
    [discriminate| |discriminate].
  destruct incidents as [|inc incidents]; [discriminate|].
  destruct (_add_incidents_to_db W rag (inc :: incidents)) as [c1 [e|]] eqn:Hdb;
    [discriminate|].
  intros [= _ _ _ <-]. exists (inc :: incidents). split; [done|].
  unfold _add_incidents_to_db in Hdb.
  apply write_batches_ok in Hdb as [Hmono Hbs]. split; [|exact Hmono].
  apply Forall_forall. intros inc' Hinc'.
  destruct (batches_cover (if use_ollama rag then 10%nat else 50%nat)
              (inc :: incidents) inc') as (b & Hb & Hin); [|done|].
  { destruct (use_ollama rag); lia. }
  pose proof (proj1 (Forall_forall _ _) Hbs b Hb) as Hbatch.
  exact (proj1 (Forall_forall _ _) Hbatch inc' Hin).
Qed.

(** The three rows of the table are stored under their synthesized
    ids. *)
Lemma parsed_incidents_are_stored_witness :
  ∃ incidents,
    parse_source Reference.online "three.csv" "file" = Some (inr incidents)
    ∧ Forall (λ inc, ∃ id, inc !! "id" = Some id
                           ∧ id ∈ Chroma.ids (collection Reference.loaded))
        incidents
    ∧ Chroma.ids (collection Reference.loaded) = ["csv_0"; "csv_1"; "csv_2"].
Proof.
  destruct (parsed_incidents_are_stored Reference.online Reference.fresh Reference.loaded
              "three.csv" "file" 3 "three.csv" "file" eq_refl)
    as (incidents & Hparse & Hstored & _).
  exists incidents. split_and!; [exact Hparse | exact Hstored | vm_compute; reflexivity].
Defined.

(** ** Numbering of the entries of a JSON document *)

Lemma json_batch_numbered filename batch_start idx batch :
  json_batch filename batch_start idx batch
  = omap id (imap (λ j, json_item_incident filename (batch_start + idx + j)) batch).
Proof.
  revert idx. induction batch as [|[fields|] batch IH]; intros idx; [done| |].
  - cbn [json_batch]. rewrite imap_cons. cbn [omap list_omap json_item_incident id].
    rewrite Nat.add_0_r. f_equal. rewrite IH. f_equal. apply imap_ext.
    intros j x _. simpl. f_equal. lia.
  - cbn [json_batch]. rewrite imap_cons. cbn [omap list_omap json_item_incident id].
    rewrite IH. f_equal. apply imap_ext. intros j x _. simpl. f_equal. lia.
Qed.

Lemma batches_from_numbered {A B} (F : nat → A → option B) fuel size start (l : list A) :
  (0 < size)%nat → (length l ≤ fuel)%nat →
  mjoin ((λ b, omap id (imap (λ j, F (b.1 + j)%nat) b.2)) <$> batches_from fuel size start l)
  = omap id (imap (λ j, F (start + j)%nat) l).
Proof.
  intros Hsize. revert start l.
  induction fuel as [|fuel IH]; intros start l Hlen.
  - destruct l; [done | simpl in Hlen; lia].
  - destruct l as [|a l']; [done|].
    cbn [batches_from fmap list_fmap mjoin list_join fst snd].
    rewrite IH by (rewrite length_drop; simpl in *; lia).
    rewrite <- omap_app.
    rewrite <- (take_drop size (a :: l')) at 3.
    rewrite imap_app. do 2 f_equal. apply imap_ext. intros j x Hj. simpl.
    f_equal. rewrite length_take.
    apply lookup_lt_Some in Hj. rewrite length_drop in Hj. lia.
Qed.

Lemma json_incidents_numbered filename data :
  json_incidents filename data
  = omap id (imap (json_item_incident filename) (items_to_process data)).
Proof.
  unfold json_incidents, batches.
  etrans; [|apply (batches_from_numbered (json_item_incident filename)
                     (length (items_to_process data)) 100 0); lia].
  f_equal. apply list_fmap_ext. intros i [start batch] _. simpl.
  rewrite json_batch_numbered. f_equal. apply imap_ext. intros j x _. simpl.
  f_equal. lia.
Qed.

(** JSON entries are numbered by their position in the list of entries,
    counting the entries that are not dictionaries: reading the list in
    batches of 100 does not change the incidents that come out.  The
    dictionary at position [k] gives the incident numbered [k], and there
    are at most as many incidents as entries. *)
Theorem json_items_numbered_by_position (filename : string) (data : jroot) :
  json_incidents filename data
  = omap id (imap (json_item_incident filename) (items_to_process data))
  ∧ (∀ k fields, items_to_process data !! k = Some (ItemDict fields) →
       json_incident filename k fields ∈ json_incidents filename data)
  ∧ (length (json_incidents filename data) ≤ length (items_to_process data))%nat.
Proof.
  pose proof (json_incidents_numbered filename data) as Hnum. split_and!.
  - exact Hnum.
  - intros k fields Hk. rewrite Hnum. apply list_elem_of_omap.
    exists (Some (json_incident filename k fields)). split; [|done].
    apply list_elem_of_lookup. exists k. rewrite list_lookup_imap, Hk. done.
  - rewrite Hnum. etrans; [apply length_omap_le|]. by rewrite length_imap.
Qed.

(** ** Synthesized ids *)

Lemma str_of_nat_inj n m : str_of_nat n = str_of_nat m → n = m.
Proof.
  unfold str_of_nat. intros H.
  apply (f_equal NilEmpty.uint_of_string) in H. rewrite !NilEmpty.usu in H.
  injection H as H. apply (f_equal Nat.of_uint) in H.
  by rewrite !DecimalNat.Unsigned.of_to in H.
Qed.

Lemma numbered_ids_NoDup (prefix : string) (k n : nat) :
  NoDup ((λ i, Some (prefix ++ str_of_nat i)) <$> seq k n).
Proof.
  apply NoDup_fmap_2; [|apply NoDup_seq].
  intros i j [= H]. apply str_of_nat_inj.
  revert H. clear. induction prefix as [|c prefix IH]; simpl; [done|].
  intros [= H]. auto.
Qed.

Lemma kept_ids_sublist {A} (f : nat → A → option Incident) (h : nat → option string)
    (k : nat) (l : list A) :
  (∀ j a inc, a ∈ l → f j a = Some inc → incident_id inc = h j) →
  incident_id <$> omap id (imap (λ j, f (k + j)%nat) l) `sublist_of` h <$> seq k (length l).
Proof.
  revert k. induction l as [|a l IH]; intros k Hf; [done|].
  rewrite imap_cons. cbn [length seq fmap list_fmap].
  assert (imap ((λ j, f (k + j)%nat) ∘ S) l = imap (λ j, f (S k + j)%nat) l) as ->.
  { apply imap_ext. intros j x _. simpl. f_equal. lia. }
  rewrite Nat.add_0_r. cbn [omap list_omap id].
  assert (∀ j a' inc, a' ∈ l → f j a' = Some inc → incident_id inc = h j) as Hl.
  { intros j a' inc Ha'. apply Hf. by apply list_elem_of_further. }
  destruct (f k a) as [inc|] eqn:Hfa.
  - cbn [fmap list_fmap]. rewrite (Hf _ _ _ (list_elem_of_here _ _) Hfa).
    apply sublist_skip, IH, Hl.
  - apply sublist_cons, IH, Hl.
Qed.

Lemma add_extra_csv_keeps row inc col k v :
  inc !! k = Some v → add_extra_csv row inc col !! k = Some v.
Proof.
  unfold add_extra_csv. intros Hk.
  destruct (inc !! col) eqn:Hcol; [done|].
  rewrite lookup_insert_ne; [done|]. intros ->. congruence.
Qed.

Lemma add_extra_json_keeps inc kv k v :
  inc !! k = Some v → add_extra_json inc kv !! k = Some v.
Proof.
  destruct kv as [k' v']. unfold add_extra_json. cbn [fst snd]. intros Hk.
  destruct (inc !! k') eqn:Hk', v'; try done.
  rewrite lookup_insert_ne; [done|]. intros ->. congruence.
Qed.

Lemma web_incident_id url i text inc :
  web_incident url i text = Some inc → incident_id inc = Some ("web_" ++ str_of_nat i).
Proof.
  unfold web_incident. destruct (_ <? _)%nat; [|discriminate]. intros [= <-].
  unfold incident_id. rewrite !lookup_insert_ne by done. by rewrite lookup_insert_eq.
Qed.

Lemma csv_incident_id filename df idx row :
  "id" ∉ df_columns df → "ID" ∉ df_columns df →
  incident_id (csv_incident filename df idx row) = Some ("csv_" ++ idx).
Proof.
  intros Hid HID. unfold incident_id, csv_incident.
  apply (foldl_preserves (λ inc : Incident, inc !! "id" = Some ("csv_" ++ idx))).
  - intros inc col. apply add_extra_csv_keeps.
  - rewrite !lookup_insert_ne by done. rewrite lookup_insert_eq.
    unfold row_get. by rewrite !decide_False.
Qed.

Lemma item_get_absent {V} (item : list (string * V)) k dflt :
  k ∉ item.*1 → item_get item k dflt = dflt.
Proof.
  induction item as [|[k' v] item IH]; [done|]. simpl.
  intros [Hne Hin]%not_elem_of_cons.
  destruct (decide (k' = k)); [congruence | auto].
Qed.

Lemma json_incident_id filename n item :
  "id" ∉ item.*1 → "ID" ∉ item.*1 → "_id" ∉ item.*1 →
  incident_id (json_incident filename n item) = Some ("json_" ++ str_of_nat n).
Proof.
  intros Hid HID H_id. unfold incident_id, json_incident.
  apply (foldl_preserves (λ inc : Incident, inc !! "id" = Some ("json_" ++ str_of_nat n))).
  - intros inc kv. apply add_extra_json_keeps.
  - rewrite !lookup_insert_ne by done. rewrite lookup_insert_eq.
    by rewrite !item_get_absent.
Qed.

Lemma web_ids_NoDup W source :
  NoDup (incident_id <$> _scrape_incidents_from_url W source).
Proof.
  unfold _scrape_incidents_from_url.
  destruct (incident_elements W source) as [e|elements]; [constructor|].
  eapply sublist_NoDup; [apply (numbered_ids_NoDup "web_" 0 (length elements))|].
  apply (kept_ids_sublist (web_incident source) _ 0).
  intros j text inc _. apply web_incident_id.
Qed.

Lemma csv_ids_labelled source df :
  "id" ∉ df_columns df → "ID" ∉ df_columns df →
  incident_id <$> csv_incidents source df
  = (λ i, Some ("csv_" ++ df_index df i)) <$> seq 0 (length (df_rows df)).
Proof.
  intros Hid HID. unfold csv_incidents. rewrite fmap_imap.
  rewrite <- (imap_seq_0 (df_rows df) (λ i, Some ("csv_" ++ df_index df i))).
  apply imap_ext. intros i row _. simpl. by apply csv_incident_id.
Qed.

Lemma prefixed_inj (prefix : string) : Inj (=) (=) (λ s, Some (prefix ++ s)).
Proof.
  intros s1 s2 [= H]. induction prefix as [|c prefix IH]; [done|].
  injection H as H. auto.
Qed.

Lemma csv_ids_NoDup source df :
  "id" ∉ df_columns df → "ID" ∉ df_columns df →
  NoDup (incident_id <$> csv_incidents source df)
  ↔ NoDup (df_index df <$> seq 0 (length (df_rows df))).
Proof.
  intros Hid HID. rewrite csv_ids_labelled by done.
  change (λ i, Some ("csv_" ++ df_index df i))
    with ((λ s, Some ("csv_" ++ s)) ∘ df_index df).
  rewrite list_fmap_compose. split.
  - apply NoDup_fmap_1.
  - apply NoDup_fmap_2, prefixed_inj.
Qed.

Lemma json_ids_NoDup source data :
  Forall lacks_id (items_to_process data) →
  NoDup (incident_id <$> json_incidents source data).
Proof.
  intros Hlack. rewrite json_incidents_numbered.
  eapply sublist_NoDup;
    [apply (numbered_ids_NoDup "json_" 0 (length (items_to_process data)))|].
  apply (kept_ids_sublist (json_item_incident source) _ 0).
  intros j item inc Hin Hinc.
  pose proof (proj1 (Forall_forall _ _) Hlack item Hin) as Hitem.
  destruct item as [fields|]; [|discriminate]. simpl in Hinc, Hitem.
  injection Hinc as <-. destruct Hitem as (? & ? & ?). by apply json_incident_id.
Qed.

(** Synthesized ids and when they collide.  The incidents scraped from a
    page have pairwise distinct ids.  The incidents of a table without
    the columns [id] and [ID] have the ids [csv_<label>] for the index
    labels of the rows, in row order: they are pairwise distinct exactly
    when the labels are, as they are when the rows are numbered 0, 1,
    ...; a table whose labels repeat yields repeated ids.  The incidents
    of a JSON list none of whose entries holds [id], [ID] or [_id] have
    pairwise distinct ids. *)
Theorem synthesized_ids_are_distinct (W : World) (source : string) :
  NoDup (incident_id <$> _scrape_incidents_from_url W source)
  ∧ (∀ df, "id" ∉ df_columns df → "ID" ∉ df_columns df →
       incident_id <$> csv_incidents source df
       = (λ i, Some ("csv_" ++ df_index df i)) <$> seq 0 (length (df_rows df))
       ∧ (NoDup (incident_id <$> csv_incidents source df)
          ↔ NoDup (df_index df <$> seq 0 (length (df_rows df))))
       ∧ ((∀ i, df_index df i = str_of_nat i) →
          NoDup (incident_id <$> csv_incidents source df)))
  ∧ (∀ data, Forall lacks_id (items_to_process data) →
       NoDup (incident_id <$> json_incidents source data)).
Proof.
  split_and!.
  - apply web_ids_NoDup.
  - intros df Hid HID. split_and!.
    + by apply csv_ids_labelled.
    + by apply csv_ids_NoDup.
    + intros Hnum. apply csv_ids_NoDup; [done | done |].
      apply NoDup_fmap_2_strong; [|apply NoDup_seq].
      intros i j _ _. rewrite !Hnum. apply str_of_nat_inj.
  - apply json_ids_NoDup.
Qed.

(** ** Extra fields, by source *)

Lemma add_extra_csv_other row (inc : Incident) col k :
  k ≠ col → add_extra_csv row inc col !! k = inc !! k.
Proof.
  intros Hne. unfold add_extra_csv.
  destruct (inc !! col); [done|]. by rewrite lookup_insert_ne.
Qed.

Lemma foldl_add_extra_csv_copies row (cols : list string) (inc : Incident) col :
  col ∈ cols → inc !! col = None →
  foldl (add_extra_csv row) inc cols !! col = Some (row col).
Proof.
  revert inc. induction cols as [|c cols IH]; intros inc Hin Hnone.
  - by apply elem_of_nil in Hin.
  - cbn [foldl]. destruct (decide (c = col)) as [->|Hne].
    + apply (foldl_preserves (λ i : Incident, i !! col = Some (row col))).
      * intros i c'. apply add_extra_csv_keeps.
      * unfold add_extra_csv. rewrite Hnone. by rewrite lookup_insert_eq.
    + apply IH.
      * apply elem_of_cons in Hin as [Heq|Hin]; [congruence | done].
      * rewrite add_extra_csv_other by done. done.
Qed.

(** What becomes of the fields of the data that are not among the five
    canonical ones depends on the source.  A page yields no such field;
    a JSON entry yields them cut to 500 characters; a table yields each
    such column in full, whatever its length. *)
Theorem extra_fields_by_source (W : World) (source : string) :
  Forall (λ inc, dom inc = list_to_set canonical_keys) (_scrape_incidents_from_url W source)
  ∧ (∀ data, Forall extras_bounded (json_incidents source data))
  ∧ (∀ df idx row col,
       col ∈ df_columns df → col ∉ canonical_keys →
       csv_incident source df idx row !! col = Some (row col)).
Proof.
  split_and!.
  - apply web_no_extra_fields.
  - intros data. apply json_extra_fields_truncated.
  - intros df idx row col Hcol Hextra. unfold csv_incident.
    apply foldl_add_extra_csv_copies; [done|].
    unfold canonical_keys in Hextra.
    rewrite !not_elem_of_cons in Hextra. destruct Hextra as (? & ? & ? & ? & ? & _).
    by rewrite !lookup_insert_ne by done.
Qed.

(** ** Ids of the collection under ingestion *)

Section UniqueIds.
Import Chroma.
Variables (W : World) (rag : IncidentRAG).

Lemma add_or_upsert_NoDup c i d v m :
  NoDup (ids c) → NoDup (ids (add_or_upsert c i d v m).1).
Proof.
  intros Hc. unfold add_or_upsert.
  destruct (add c i d v m) as [e|c1] eqn:Hadd.
  - destruct (upsert c i d v m) as [e'|c2] eqn:Hup; [done|]. simpl.
    by apply upsert_spec in Hup as [Hup _]; apply Hup.
  - simpl. apply add_inr in Hadd as (-> & Hi & Hfresh).
    apply NoDup_app. split_and!; [done | | done].
    intros x Hx Hx'. by apply (proj1 (Forall_forall _ _) Hfresh x Hx').
Qed.

Lemma write_batch_NoDup c batch_start batch :
  NoDup (ids c) → NoDup (ids (write_batch W rag c batch_start batch).1).
Proof.
  intros Hc. unfold write_batch.
  destruct (prepare_batch W rag batch_start batch) as [e|[[[i d] v] m]]; [done|].
  by apply add_or_upsert_NoDup.
Qed.

Lemma write_batches_NoDup bs c :
  NoDup (ids c) → NoDup (ids (write_batches W rag c bs).1).
Proof.
  revert c. induction bs as [|[batch_start batch] bs IH]; intros c Hc; [done|].
  cbn [write_batches].
  pose proof (write_batch_NoDup c batch_start batch Hc) as Hb.
  destruct (write_batch W rag c batch_start batch) as [c1 [e|]]; [done|].
  by apply IH.
Qed.

Lemma batch_ids i batch x :
  Forall2 (λ (inc : Incident) y, inc !! "id" = Some y) batch i →
  x ∈ i ↔ Some x ∈ incident_id <$> batch.
Proof.
  intros Hi. split.
  - intros Hx. apply list_elem_of_lookup in Hx as (j & Hj).
    destruct (Forall2_lookup_r _ _ _ _ _ Hi Hj) as (inc & Hinc & Hid).
    apply list_elem_of_fmap. exists inc. split; [done|].
    apply list_elem_of_lookup. eauto.
  - intros Hx. apply list_elem_of_fmap in Hx as (inc & Hid & Hinc).
    apply list_elem_of_lookup in Hinc as (j & Hj).
    destruct (Forall2_lookup_l _ _ _ _ _ Hi Hj) as (y & Hy & Hid').
    apply list_elem_of_lookup. exists j. unfold incident_id in Hid. congruence.
Qed.

Lemma write_batch_ids c batch_start batch c' :
  write_batch W rag c batch_start batch = (c', None) →
  ∀ x, x ∈ ids c' ↔ x ∈ ids c ∨ Some x ∈ incident_id <$> batch.
Proof.
  unfold write_batch.
  destruct (prepare_batch W rag batch_start batch) as [e'|[[[i d] v] m]] eqn:Hp;
    [discriminate|].
  intros Hw x. rewrite (add_or_upsert_ok _ _ _ _ _ _ Hw x).
  apply prepare_batch_inr in Hp as (Hi & _). by rewrite (batch_ids i batch x Hi).
Qed.

Lemma write_batches_ids bs c c' :
  write_batches W rag c bs = (c', None) →
  ∀ x, x ∈ ids c' ↔ x ∈ ids c ∨ Some x ∈ incident_id <$> mjoin bs.*2.
Proof.
  revert c. induction bs as [|[batch_start batch] bs IH]; intros c.
  - intros [= <-] x. simpl. rewrite elem_of_nil. tauto.
  - cbn [write_batches].
    destruct (write_batch W rag c batch_start batch) as [c1 [e|]] eqn:Hb;
      [discriminate|].
    intros Hrest x. rewrite (IH _ Hrest x), (write_batch_ids _ _ _ _ Hb x).
    cbn [fmap list_fmap mjoin list_join snd]. rewrite fmap_app, elem_of_app. tauto.
Qed.
End UniqueIds.

Lemma add_incidents_NoDup W rag incidents :
  NoDup (Chroma.ids (collection rag)) →
  NoDup (Chroma.ids (_add_incidents_to_db W rag incidents).1).
Proof.
  intros Hc. unfold _add_incidents_to_db.
  destruct incidents; [done|]. by apply write_batches_NoDup.
Qed.

Lemma add_incidents_ids W rag incidents c' :
  _add_incidents_to_db W rag incidents = (c', None) →
  ∀ x, x ∈ Chroma.ids c' ↔
       x ∈ Chroma.ids (collection rag) ∨ Some x ∈ incident_id <$> incidents.
Proof.
  unfold _add_incidents_to_db. destruct incidents as [|inc incidents].
  - intros [= <-] x. simpl. rewrite elem_of_nil. tauto.
  - intros Hw x. rewrite (write_batches_ids _ _ _ _ _ Hw x).
    unfold batches. rewrite batches_from_concat; [done| |done].
    destruct (use_ollama rag); lia.
Qed.

Lemma add_incidents_count W rag incidents c' :
  NoDup (Chroma.ids (collection rag)) →
  _add_incidents_to_db W rag incidents = (c', None) →
  Chroma.count c'
  = size (list_to_set (Chroma.ids (collection rag))
          ∪ list_to_set (omap incident_id incidents) : gset string).
Proof.
  intros Hc Hdb.
  pose proof (add_incidents_NoDup W rag incidents Hc) as Hc'.
  rewrite Hdb in Hc'. cbn [fst] in Hc'.
  pose proof (add_incidents_ids W rag _ c' Hdb) as Hids.
  rewrite count_ids, <- (size_list_to_set (C:=gset string)) by done.
  f_equal. apply set_eq. intros x.
  rewrite elem_of_union, !elem_of_list_to_set, Hids, list_elem_of_omap.
  split; intros [H|H]; auto; right.
  - apply list_elem_of_fmap in H as (i & Hi & Hin). eauto.
  - destruct H as (i & Hin & Hi). apply list_elem_of_fmap. eauto.
Qed.

(** Ids stay unique.  If no two stored entries share an id before
    [load_incidents], none do after it, whatever it returns. *)
Theorem ingestion_keeps_ids_unique (W : World) (rag : IncidentRAG)
    (source source_type : string) :
  NoDup (Chroma.ids (collection rag)) →
  NoDup (Chroma.ids (collection (load_incidents W rag source source_type).2)).
Proof.
  intros Hc. unfold load_incidents.
  destruct (parse_source W source source_type) as [[e|[|inc incidents]]|]; try done.
  pose proof (add_incidents_NoDup W rag (inc :: incidents) Hc) as Hdb.
  by destruct (_add_incidents_to_db W rag (inc :: incidents)) as [c [e|]].
Qed.

(** After an ingestion that returned success, on a collection whose ids
    were unique, the stored ids are those stored before together with
    the ids of the parsed incidents, and [count()] is the number of
    distinct ids among them. *)
Theorem count_after_ingestion (W : World) (rag rag1 : IncidentRAG)
    (source source_type : string) (n : nat) (s t : string) :
  NoDup (Chroma.ids (collection rag)) →
  load_incidents W rag source source_type = (LoadSuccess n s t, rag1) →
  ∃ incidents,
    parse_source W source source_type = Some (inr incidents)
    ∧ n = length incidents
    ∧ (∀ x, x ∈ Chroma.ids (collection rag1) ↔
            x ∈ Chroma.ids (collection rag) ∨ Some x ∈ incident_id <$> incidents)
    ∧ Chroma.count (collection rag1)
      = size (list_to_set (Chroma.ids (collection rag))
              ∪ list_to_set (omap incident_id incidents) : gset string).
Proof.
  intros Hc Hload. unfold load_incidents in Hload.
  destruct (parse_source W source source_type) as [[e|incidents]|];
    [discriminate| |discriminate].
  destruct incidents as [|inc incidents]; [discriminate|].
  destruct (_add_incidents_to_db W rag (inc :: incidents)) as [c1 [e|]] eqn:Hdb;
    [discriminate|].
  injection Hload as <- _ _ <-. exists (inc :: incidents).
  cbn [collection set_collection].
  split_and!; [done | done | by apply (add_incidents_ids W) | by apply (add_incidents_count W)].
Qed.

(** The ids of the three stored rows are pairwise distinct. *)
Lemma ingestion_keeps_ids_unique_witness :
  NoDup (Chroma.ids (collection Reference.fresh))
  ∧ NoDup (Chroma.ids (collection Reference.loaded)).
Proof.
  assert (NoDup (Chroma.ids (collection Reference.fresh))) as Hfresh by constructor.
  split; [exact Hfresh|].
  exact (ingestion_keeps_ids_unique Reference.online Reference.fresh "three.csv" "file"
           Hfresh).
Defined.

(** Three rows into an empty collection: three ids, and a count of
    three. *)
Lemma count_after_ingestion_witness :
  ∃ incidents,
    parse_source Reference.online "three.csv" "file" = Some (inr incidents)
    ∧ Chroma.count (collection Reference.loaded)
      = size (list_to_set (omap incident_id incidents) : gset string)
    ∧ Chroma.count (collection Reference.loaded) = 3%nat.
Proof.
  destruct (count_after_ingestion Reference.online Reference.fresh Reference.loaded
              "three.csv" "file" 3 "three.csv" "file")
    as (incidents & Hparse & _ & _ & Hcount).
  - constructor.
  - reflexivity.
  - exists incidents. split_and!; [exact Hparse | | reflexivity].
    rewrite Hcount. f_equal. cbn [Reference.fresh collection Chroma.ids fmap list_fmap].
    apply (left_id_L ∅ (∪)).
Defined.

(** ** A table ingested into an empty collection *)

Lemma str_drop_app n s :
  (n ≤ String.length s)%nat → ∃ pre, s = pre ++ str_drop n s.
Proof.
  revert s. induction n as [|n IH]; intros s Hn.
  - exists "". by destruct s.
  - destruct s as [|c s]; [simpl in Hn; lia|]. simpl in Hn.
    destruct (IH s) as [pre Hpre]; [lia|]. exists (String c pre). cbn [str_drop]. rewrite Hpre at 1. reflexivity.
Qed.

Lemma endswith_app s suffix :
  endswith s suffix = true → ∃ pre, s = pre ++ suffix.
Proof.
  unfold endswith. intros [Hlen Heq]%andb_prop.
  apply Nat.leb_le in Hlen. apply String.eqb_eq in Heq.
  destruct (str_drop_app (String.length s - String.length suffix) s) as [pre Hpre]; [lia|].
  exists pre. by rewrite <- Heq.
Qed.

Lemma last_char_app pre c s :
  last_char (pre ++ String c s) = last_char (String c s).
Proof.
  induction pre as [|c' pre IH]; [done|].
  change (String c' pre ++ String c s) with (String c' (pre ++ String c s)).
  cbn [last_char]. destruct (pre ++ String c s) eqn:Happ; [|exact IH].
  by destruct pre.
Qed.

Lemma csv_is_not_json filename :
  endswith filename ".csv" = true → endswith filename ".json" = false.
Proof.
  intros [p1 H1]%endswith_app.
  destruct (endswith filename ".json") eqn:Hj; [|done].
  apply endswith_app in Hj as [p2 H2].
  assert (last_char (p1 ++ ".csv") = last_char (p2 ++ ".json")) as Hlast by congruence.
  rewrite !last_char_app in Hlast. discriminate.
Qed.

Lemma omap_of_Some {A B} (f : A → option B) (l : list A) (k : list B) :
  f <$> l = Some <$> k → omap f l = k.
Proof.
  revert k. induction l as [|a l IH]; intros [|b k] H; try done.
  injection H as Ha Hl. cbn [omap list_omap]. rewrite Ha. f_equal. auto.
Qed.

(** A table without the columns [id] and [ID] whose rows have pairwise
    distinct index labels, as they have when the rows are numbered,
    ingested with the remote backend into an empty collection, is loaded
    whole: the call returns success with [incidents_loaded] equal to the
    number of rows, and [count()] is that number. *)
Theorem fresh_table_is_counted (W : World) (rag : IncidentRAG) (filename : string)
    (f : file) (df : dataframe) :
  use_ollama rag = true → collection rag = [] →
  find_file W filename = Some f → endswith filename ".csv" = true →
  read_csv f = inr df → "id" ∉ df_columns df → "ID" ∉ df_columns df →
  NoDup (df_index df <$> seq 0 (length (df_rows df))) →
  df_rows df ≠ [] →
  (load_incidents W rag filename "file").1
  = LoadSuccess (length (df_rows df)) filename "file"
  ∧ Chroma.count (collection (load_incidents W rag filename "file").2)
    = length (df_rows df).
Proof.
  intros Hremote Hempty Hfile Hcsv Hread Hid HID Hlabels Hrows.
  assert (parse_source W filename "file" = Some (inr (csv_incidents filename df)))
    as Hparse.
  { unfold parse_source. rewrite decide_False by done. rewrite decide_True by done.
    unfold _load_incidents_from_file.
    by rewrite Hfile, (csv_is_not_json _ Hcsv), Hcsv, Hread. }
  assert (length (csv_incidents filename df) = length (df_rows df)) as Hlen.
  { unfold csv_incidents. apply length_imap. }
  assert (csv_incidents filename df ≠ []) as Hne.
  { intros Hnil. rewrite Hnil in Hlen. destruct (df_rows df); done. }
  pose proof (add_incidents_remote W rag _ Hremote
                (parse_source_has_id _ _ _ _ Hparse)) as Hnone.
  assert (∃ c1, _add_incidents_to_db W rag (csv_incidents filename df) = (c1, None)
                ∧ load_incidents W rag filename "file"
                  = (LoadSuccess (length (df_rows df)) filename "file",
                     set_collection rag c1)) as (c1 & Hdb & Hload).
  { unfold load_incidents. rewrite Hparse.
    destruct (csv_incidents filename df) as [|inc incidents] eqn:Hincs; [done|].
    destruct (_add_incidents_to_db W rag (inc :: incidents)) as [c1 [e|]];
      [discriminate|].
    exists c1. by rewrite <- Hlen. }
  rewrite Hload. split; [done|].
  cbn [snd collection set_collection].
  rewrite (add_incidents_count W rag _ c1) by (by rewrite ?Hempty; try constructor).
  rewrite Hempty.
  pose proof (csv_ids_labelled filename df Hid HID) as Hids.
  change ((λ i, Some ("csv_" ++ df_index df i)) <$> seq 0 (length (df_rows df)))
    with ((Some ∘ (λ i, "csv_" ++ df_index df i)) <$> seq 0 (length (df_rows df))) in Hids.
  rewrite (list_fmap_compose _ Some) in Hids.
  rewrite (omap_of_Some _ _ _ Hids).
  cbn [Chroma.ids fmap list_fmap list_to_set foldr]. rewrite (left_id_L ∅ (∪)).
  rewrite size_list_to_set.
  - by rewrite length_fmap, length_seq.
  - apply (NoDup_fmap_1 Some). rewrite <- list_fmap_compose.
    change (Some ∘ (λ i, "csv_" ++ df_index df i))
      with ((λ s, Some ("csv_" ++ s)) ∘ df_index df).
    rewrite list_fmap_compose.
    apply NoDup_fmap_2; [apply prefixed_inj | done].
Qed.

(** The table of three rows, with the embedding endpoint down. *)
Lemma fresh_table_is_counted_witness :
  (load_incidents Reference.offline Reference.fresh "three.csv" "file").1
  = LoadSuccess 3 "three.csv" "file"
  ∧ Chroma.count
      (collection (load_incidents Reference.offline Reference.fresh "three.csv" "file").2)
    = 3%nat.
Proof.
  apply (fresh_table_is_counted Reference.offline Reference.fresh "three.csv"
           (File Reference.not_json (ret Reference.three_rows)) Reference.three_rows).
  - reflexivity.
  - reflexivity.
  - reflexivity.
  - reflexivity.
  - reflexivity.
  - refine (bool_decide_unpack _ _). vm_compute. exact I.
  - refine (bool_decide_unpack _ _). vm_compute. exact I.
  - refine (bool_decide_unpack _ _). vm_compute. exact I.
  - discriminate.
Defined.

(** ** Stored entries *)

Lemma metadata_round_trip (inc : Incident) (x : string) :
  inc !! "id" = Some x → <["id" := x]> (metadata_of inc) = inc.
Proof.
  intros Hx. apply map_eq. intros k. unfold metadata_of.
  destruct (decide (k = "id")) as [->|Hne].
  - by rewrite lookup_insert_eq.
  - rewrite lookup_insert_ne by done.
    destruct (inc !! k) as [v|] eqn:Hk.
    + by apply map_lookup_filter_Some.
    + apply map_lookup_filter_None. left. done.
Qed.

Section StoredEntries.
Import Chroma.
Implicit Types (c : Chroma.collection) (e : entry) (b : list entry).

Lemma rows_lookup i d v m b j x :
  rows i d v m = Some b → i !! j = Some x →
  ∃ e, b !! j = Some e ∧ e_id e = x
       ∧ d !! j = Some (e_document e) ∧ v !! j = Some (e_embedding e)
       ∧ m !! j = Some (e_metadata e).
Proof.
  revert d v m b j.
  induction i as [|y i IH]; intros [|y' d] [|z v] [|w m] b j H Hj; simpl in H;
    try discriminate.
  destruct (rows i d v m) as [b'|] eqn:Hb; simpl in H; [|discriminate].
  injection H as <-. destruct j as [|j]; simpl in *.
  - injection Hj as <-. eexists. split; [done|]. done.
  - eauto.
Qed.

Lemma upsert_entry_in c e : e ∈ upsert_entry c e.
Proof.
  induction c as [|e' c IH]; simpl; [apply list_elem_of_here|].
  destruct (decide (e_id e' = e_id e)).
  - apply list_elem_of_here.
  - by apply list_elem_of_further.
Qed.

Lemma upsert_entry_keeps c e e0 :
  e0 ∈ c → e_id e0 ≠ e_id e → e0 ∈ upsert_entry c e.
Proof.
  intros Hin Hne. induction c as [|e' c IH]; simpl; [by apply elem_of_nil in Hin|].
  apply elem_of_cons in Hin as [->|Hin].
  - destruct (decide (e_id e' = e_id e)); [done|]. apply list_elem_of_here.
  - destruct (decide (e_id e' = e_id e)).
    + by apply list_elem_of_further.
    + apply list_elem_of_further. auto.
Qed.

Lemma foldl_upsert_keeps b c e0 :
  e0 ∈ c → e_id e0 ∉ e_id <$> b → e0 ∈ foldl upsert_entry c b.
Proof.
  revert c. induction b as [|e b IH]; intros c Hin Hout; simpl; [done|].
  rewrite fmap_cons in Hout. apply not_elem_of_cons in Hout as [Hne Hout].
  apply IH; [|done]. by apply upsert_entry_keeps.
Qed.

Lemma foldl_upsert_in b c e :
  NoDup (e_id <$> b) → e ∈ b → e ∈ foldl upsert_entry c b.
Proof.
  revert c. induction b as [|e' b IH]; intros c Hnd Hin; simpl;
    [by apply elem_of_nil in Hin|].
  rewrite fmap_cons in Hnd. apply NoDup_cons in Hnd as [Hout Hnd].
  apply elem_of_cons in Hin as [->|Hin].
  - apply foldl_upsert_keeps; [apply upsert_entry_in | done].
  - by apply IH.
Qed.

Lemma add_or_upsert_entries c i d v m c' :
  add_or_upsert c i d v m = (c', None) →
  ∃ b, rows i d v m = Some b
       ∧ (NoDup i → ∀ e, e ∈ b → e ∈ c')
       ∧ (∀ e, e ∈ c → e_id e ∉ i → e ∈ c').
Proof.
  unfold add_or_upsert.
  destruct (add c i d v m) as [e|c1] eqn:Hadd.
  - destruct (upsert c i d v m) as [e'|c2] eqn:Hup; [discriminate|].
    intros [= <-]. apply upsert_inr in Hup as (b & Hb & ->).
    exists b. pose proof (rows_ids _ _ _ _ _ Hb) as Hids. split_and!; [done| |].
    + intros Hnd e0 He0. apply foldl_upsert_in; [by rewrite Hids | done].
    + intros e0 He0 Hout. apply foldl_upsert_keeps; [done | by rewrite Hids].
  - intros [= <-]. unfold add in Hadd.
    destruct (rows i d v m) as [b|] eqn:Hb; [|discriminate].
    destruct (has_duplicates i || conflicts c i); [discriminate|].
    injection Hadd as <-. exists b. split_and!; [done| |].
    + intros _ e0 He0. apply elem_of_app. by right.
    + intros e0 He0 _. apply elem_of_app. by left.
Qed.

Variables (W : World) (rag : IncidentRAG).

Lemma batch_incident_ids batch i :
  Forall2 (λ (inc : Incident) x, inc !! "id" = Some x) batch i →
  incident_id <$> batch = Some <$> i.
Proof.
  induction 1 as [|inc x batch i Hx _ IH]; [done|].
  rewrite !fmap_cons. by f_equal.
Qed.

Lemma write_batch_entries c batch_start batch c' :
  write_batch W rag c batch_start batch = (c', None) →
  NoDup (incident_id <$> batch) →
  (∀ j inc, batch !! j = Some inc →
     ∃ e, e ∈ c' ∧ stores e inc
          ∧ (use_ollama rag = true →
             e_embedding e = ollama_embedding W (batch_start + j) (document_text inc)))
  ∧ (∀ e, e ∈ c → Some (e_id e) ∉ incident_id <$> batch → e ∈ c').
Proof.
  unfold write_batch.
  destruct (prepare_batch W rag batch_start batch) as [e'|[[[i d] v] m]] eqn:Hp;
    [discriminate|].
  intros Hw Hnd.
  apply prepare_batch_inr in Hp as (Hi & -> & -> & Hv).
  pose proof (batch_incident_ids _ _ Hi) as Hids.
  apply add_or_upsert_entries in Hw as (b & Hb & Hnew & Hold).
  rewrite Hids in Hnd. apply (NoDup_fmap_1 Some) in Hnd.
  split.
  - intros j inc Hj.
    destruct (Forall2_lookup_l _ _ _ _ _ Hi Hj) as (x & Hx & Hid).
    destruct (rows_lookup _ _ _ _ _ _ _ Hb Hx)
      as (e & He & Heid & Hdoc & Hemb & Hmeta).
    exists e. split_and!.
    + apply (Hnew Hnd). apply list_elem_of_lookup. eauto.
    + rewrite list_lookup_fmap, Hj in Hdoc. rewrite list_lookup_fmap, Hj in Hmeta.
      simpl in Hdoc, Hmeta.
      injection Hdoc as Hdoc. injection Hmeta as Hmeta.
      unfold stores, incident_id. by rewrite Hid, Heid.
    + intros Hremote. unfold _generate_embeddings in Hv. rewrite Hremote in Hv.
      injection Hv as <-.
      rewrite (ollama_embeddings_lookup W batch_start (document_text <$> batch) j
                 (document_text inc)) in Hemb
        by by rewrite list_lookup_fmap, Hj.
      by injection Hemb as <-.
  - intros e He Hout. apply (Hold e He). intros Hin. apply Hout.
    rewrite Hids. by apply list_elem_of_fmap_2.
Qed.

Lemma write_batches_entries bs c c' :
  write_batches W rag c bs = (c', None) →
  NoDup (incident_id <$> mjoin (bs.*2)) →
  (∀ bt j inc, bt ∈ bs → bt.2 !! j = Some inc →
     ∃ e, e ∈ c' ∧ stores e inc
          ∧ (use_ollama rag = true →
             e_embedding e = ollama_embedding W (bt.1 + j) (document_text inc)))
  ∧ (∀ e, e ∈ c → Some (e_id e) ∉ incident_id <$> mjoin (bs.*2) → e ∈ c').
Proof.
  revert c. induction bs as [|[batch_start batch] bs IH]; intros c; simpl.
  - intros [= <-] _. split; [|done]. intros bt j inc Hbt. by apply elem_of_nil in Hbt.
  - destruct (write_batch W rag c batch_start batch) as [c1 [e|]] eqn:Hb;
      [discriminate|].
    intros Hrest Hnd. rewrite fmap_app in Hnd.
    apply NoDup_app in Hnd as (Hnd1 & Hdisj & Hnd2).
    apply write_batch_entries in Hb as (Hnew1 & Hold1); [|done].
    apply IH in Hrest as (Hnew2 & Hold2); [|done].
    split.
    + intros bt j inc [->|Hin]%elem_of_cons Hj; [|by eapply Hnew2].
      simpl in Hj.
      destruct (Hnew1 j inc Hj) as (e & He & Hst & Hemb). exists e.
      split_and!; [|done|done].
      apply Hold2; [done|]. destruct Hst as (Hid & _). rewrite <- Hid.
      apply Hdisj. apply list_elem_of_fmap_2. apply list_elem_of_lookup. eauto.
    + intros e He Hout. rewrite fmap_app in Hout.
      apply not_elem_of_app in Hout as [Hout1 Hout2]. auto.
Qed.

End StoredEntries.

Lemma batches_from_position {A} fuel size start (l : list A) i a :
  (0 < size)%nat → (length l ≤ fuel)%nat → l !! i = Some a →
  ∃ b j, b ∈ batches_from fuel size start l ∧ b.2 !! j = Some a
         ∧ (b.1 + j = start + i)%nat.
Proof.
  intros Hsize. revert start l i.
  induction fuel as [|fuel IH]; intros start l i Hlen Hi.
  - destruct l; [done | simpl in Hlen; lia].
  - destruct l as [|x l']; [done|]. cbn [batches_from].
    destruct (decide (i < size)%nat) as [Hlt|Hge].
    + exists (start, take size (x :: l')), i. split_and!; [apply list_elem_of_here| |done].
      cbn [snd]. by rewrite lookup_take_lt.
    + destruct (IH (start + size)%nat (drop size (x :: l')) (i - size)%nat)
        as (b & j & Hb & Hj & Hpos).
      * rewrite length_drop. simpl in *. lia.
      * rewrite lookup_drop. rewrite <- Hi. f_equal. lia.
      * exists b, j. split_and!; [by apply list_elem_of_further | done | lia].
Qed.

Lemma add_incidents_entries W rag incidents c' :
  _add_incidents_to_db W rag incidents = (c', None) →
  NoDup (incident_id <$> incidents) →
  (∀ i inc, incidents !! i = Some inc →
     ∃ e, e ∈ c' ∧ stores e inc
          ∧ (use_ollama rag = true →
             Chroma.e_embedding e = ollama_embedding W i (document_text inc)))
  ∧ (∀ e, e ∈ collection rag → Some (Chroma.e_id e) ∉ incident_id <$> incidents → e ∈ c').
Proof.
  unfold _add_incidents_to_db. destruct incidents as [|inc incidents].
  - intros [= <-] _. split; [|done]. intros i inc Hinc. done.
  - intros Hw Hnd.
    assert (0 < (if use_ollama rag then 10 else 50))%nat as Hsize
      by (destruct (use_ollama rag); lia).
    assert (mjoin ((batches (if use_ollama rag then 10%nat else 50%nat)
                      (inc :: incidents)).*2) = inc :: incidents) as Hcat.
    { unfold batches. by apply batches_from_concat. }
    apply write_batches_entries in Hw as [Hnew Hold]; [|by rewrite Hcat].
    rewrite Hcat in Hold. split; [|done].
    intros i inc' Hi.
    destruct (batches_from_position (length (inc :: incidents)) _ 0 _ i inc'
                Hsize (le_n _) Hi) as (b & j & Hb & Hj & Hpos).
    destruct (Hnew b j inc' Hb Hj) as (e & He & Hst & Hemb).
    exists e. split_and!; [done | done |]. intros Hremote.
    rewrite (Hemb Hremote). f_equal. lia.
Qed.

(** Round trip of an ingestion.  When [load_incidents] returns success
    and the parsed incidents have pairwise distinct ids, every parsed
    incident is stored as one entry: the entry has the incident's id,
    its document is the title, the description and the project joined by
    blanks, its metadata is the incident without the id, and putting the
    id back into the metadata gives the incident.  Every entry stored
    before under another id is still stored, unchanged. *)
Theorem ingested_incident_is_recovered (W : World) (rag rag1 : IncidentRAG)
    (source source_type : string) (n : nat) (s t : string) (incidents : list Incident) :
  load_incidents W rag source source_type = (LoadSuccess n s t, rag1) →
  parse_source W source source_type = Some (inr incidents) →
  NoDup (incident_id <$> incidents) →
  (∀ inc, inc ∈ incidents →
     ∃ e, e ∈ collection rag1
          ∧ incident_id inc = Some (Chroma.e_id e)
          ∧ Chroma.e_document e
            = dict_get inc "title" "" ++ " " ++ dict_get inc "description" "" ++ " "
                ++ dict_get inc "Proyecto" ""
          ∧ Chroma.e_metadata e = delete "id" inc
          ∧ <["id" := Chroma.e_id e]> (Chroma.e_metadata e) = inc)
  ∧ (∀ e, e ∈ collection rag →
       Some (Chroma.e_id e) ∉ incident_id <$> incidents → e ∈ collection rag1).
Proof.
  intros Hload Hparse Hnd. unfold load_incidents in Hload. rewrite Hparse in Hload.
  destruct incidents as [|inc0 incidents]; [discriminate|].
  destruct (_add_incidents_to_db W rag (inc0 :: incidents)) as [c1 [e|]] eqn:Hdb;
    [discriminate|].
  injection Hload as _ _ _ <-. cbn [collection set_collection].
  apply add_incidents_entries in Hdb as (Hnew & Hold); [|done].
  split; [|done].
  intros inc Hinc. apply list_elem_of_lookup in Hinc as [i Hi].
  destruct (Hnew i inc Hi) as (e & He & (Hid & Hdoc & Hmeta) & _).
  exists e. split_and!; [done | done | done | |].
  - rewrite Hmeta. unfold metadata_of. apply map_eq. intros k.
    destruct (decide (k = "id")) as [->|Hne].
    + rewrite lookup_delete_eq. apply map_lookup_filter_None. right. intros v _. simpl. tauto.
    + rewrite lookup_delete_ne by done.
      destruct (inc !! k) as [v|] eqn:Hk.
      * by apply map_lookup_filter_Some.
      * apply map_lookup_filter_None. by left.
  - rewrite Hmeta. by apply metadata_round_trip.
Qed.

(** With the remote backend, the entry stored for the parsed incident at
    position [i] holds the vector of request [i], which was made for the
    first 2000 characters of its document; when that request failed, the
    incident is stored all the same, with the zero vector. *)
Theorem stored_embedding_follows_request (W : World) (rag rag1 : IncidentRAG)
    (source source_type : string) (n : nat) (s t : string) (incidents : list Incident) :
  use_ollama rag = true →
  load_incidents W rag source source_type = (LoadSuccess n s t, rag1) →
  parse_source W source source_type = Some (inr incidents) →
  NoDup (incident_id <$> incidents) →
  ∀ i inc, incidents !! i = Some inc →
    ∃ e, e ∈ collection rag1
         ∧ incident_id inc = Some (Chroma.e_id e)
         ∧ Chroma.e_embedding e = ollama_embedding W i (document_text inc)
         ∧ (request_failed (ollama_post W i (str_take 2000 (document_text inc))) →
            Chroma.e_embedding e = zero_vector).
Proof.
  intros Hremote Hload Hparse Hnd i inc Hi.
  unfold load_incidents in Hload. rewrite Hparse in Hload.
  destruct incidents as [|inc0 incidents]; [discriminate|].
  destruct (_add_incidents_to_db W rag (inc0 :: incidents)) as [c1 [e|]] eqn:Hdb;
    [discriminate|].
  injection Hload as _ _ _ <-. cbn [collection set_collection].
  apply add_incidents_entries in Hdb as (Hnew & _); [|done].
  destruct (Hnew i inc Hi) as (e & He & (Hid & _) & Hemb).
  exists e. split_and!; [done | done | by apply Hemb |].
  intros Hfail. rewrite (Hemb Hremote). by apply ollama_embedding_failed.
Qed.

(** The three rows of the table are stored as three entries. *)
Lemma ingested_incident_is_recovered_witness :
  Forall (λ inc, ∃ e, e ∈ collection Reference.loaded
                      ∧ <["id" := Chroma.e_id e]> (Chroma.e_metadata e) = inc)
    (csv_incidents "three.csv" Reference.three_rows).
Proof.
  apply Forall_forall. intros inc Hinc.
  destruct (ingested_incident_is_recovered Reference.online Reference.fresh
              Reference.loaded "three.csv" "file" 3 "three.csv" "file"
              (csv_incidents "three.csv" Reference.three_rows)) as [Hnew _].
  - reflexivity.
  - reflexivity.
  - apply csv_ids_NoDup.
    + refine (bool_decide_unpack _ _). vm_compute. exact I.
    + refine (bool_decide_unpack _ _). vm_compute. exact I.
    + refine (bool_decide_unpack _ _). vm_compute. exact I.
  - destruct (Hnew inc Hinc) as (e & He & _ & _ & _ & Hback). eauto.
Defined.

(** With the endpoint down, the first row of the table is stored with
    the zero vector. *)
Lemma stored_embedding_follows_request_witness :
  ∃ e, e ∈ collection (load_incidents Reference.offline Reference.fresh
                         "three.csv" "file").2
       ∧ Chroma.e_id e = "csv_0"
       ∧ Chroma.e_embedding e = zero_vector.
Proof.
  destruct (stored_embedding_follows_request Reference.offline Reference.fresh
              (load_incidents Reference.offline Reference.fresh "three.csv" "file").2
              "three.csv" "file" 3 "three.csv" "file"
              (csv_incidents "three.csv" Reference.three_rows))
    with (i := 0%nat) (inc := csv_incident "three.csv" Reference.three_rows "0"
                                (Reference.row_of [("Proyecto", "A");
                                   ("Descripción", Reference.repeat_char "x" 30)]))
    as (e & He & Hid & _ & Hzero).
  - reflexivity.
  - reflexivity.
  - reflexivity.
  - apply csv_ids_NoDup.
    + refine (bool_decide_unpack _ _). vm_compute. exact I.
    + refine (bool_decide_unpack _ _). vm_compute. exact I.
    + refine (bool_decide_unpack _ _). vm_compute. exact I.
  - reflexivity.
  - exists e. split_and!; [exact He | | exact (Hzero I)].
    rewrite csv_incident_id in Hid.
    + by injection Hid as <-.
    + refine (bool_decide_unpack _ _). vm_compute. exact I.
    + refine (bool_decide_unpack _ _). vm_compute. exact I.
Defined.

(** ** Contents of the layout *)

Lemma first_seen_elem_of l x : x ∈ first_seen l ↔ x ∈ l.
Proof.
  induction l as [|y l IH]; simpl; [done|].
  rewrite !elem_of_cons, list_elem_of_filter, IH.
  destruct (decide (x = y)); tauto.
Qed.

Lemma first_seen_snoc l x :
  first_seen (l ++ [x])
  = if decide (x ∈ l) then first_seen l else (first_seen l ++ [x])%list.
Proof.
  induction l as [|y l IH]; cbn [app first_seen].
  - rewrite decide_False by apply not_elem_of_nil. done.
  - rewrite IH. destruct (decide (x ∈ l)) as [Hin|Hout].
    + by rewrite decide_True by by apply list_elem_of_further.
    + destruct (decide (x = y)) as [->|Hne].
      * rewrite decide_True by apply list_elem_of_here.
        rewrite filter_app. rewrite (filter_cons_False _ y []) by (simpl; tauto).
        by rewrite filter_nil, app_nil_r.
      * rewrite decide_False by by intros [?|?]%elem_of_cons.
        rewrite filter_app, (filter_cons_True _ x []) by done.
        by rewrite filter_nil.
Qed.

Lemma group_append_other ps project_name inc g :
  g ∈ group_append ps project_name inc → g.1 ≠ project_name → g ∈ ps.
Proof.
  induction ps as [|[n incidents] ps IH]; simpl.
  - intros ->%list_elem_of_singleton. simpl. done.
  - destruct (decide (n = project_name)) as [->|Hne].
    + intros [->|Hin]%elem_of_cons Hg; [done|]. by apply list_elem_of_further.
    + intros [->|Hin]%elem_of_cons Hg; [apply list_elem_of_here|].
      apply list_elem_of_further. auto.
Qed.

Lemma group_append_same ps project_name inc g :
  NoDup ps.*1 →
  g ∈ group_append ps project_name inc → g.1 = project_name →
  ((project_name ∉ ps.*1) ∧ g.2 = [inc])
  ∨ (∃ incidents, (project_name, incidents) ∈ ps ∧ g.2 = (incidents ++ [inc])%list).
Proof.
  induction ps as [|[n incidents] ps IH]; simpl; intros Hnd.
  - intros ->%list_elem_of_singleton _. left. split; [apply not_elem_of_nil | done].
  - apply NoDup_cons in Hnd as [Hn Hnd].
    destruct (decide (n = project_name)) as [->|Hne].
    + intros [->|Hin]%elem_of_cons Hg.
      * right. exists incidents. split; [apply list_elem_of_here | done].
      * exfalso. apply Hn. rewrite <- Hg. by apply list_elem_of_fmap_2.
    + intros [->|Hin]%elem_of_cons Hg; [done|].
      destruct (IH Hnd Hin Hg) as [[Hout Hg2]|(incs & Hin' & Hg2)].
      * left. split; [|done]. by intros [?|?]%elem_of_cons.
      * right. exists incs. split; [by apply list_elem_of_further | done].
Qed.

Lemma first_seen_NoDup l : NoDup (first_seen l).
Proof.
  induction l as [|x l IH]; simpl; [constructor|].
  apply NoDup_cons. split.
  - rewrite list_elem_of_filter. tauto.
  - by apply NoDup_filter.
Qed.

Lemma grouped_snoc p ps e :
  grouped p ps → grouped (p ++ [e]) (group_append ps (entry_project e) (shown e)).
Proof.
  intros [Hnames Hgroups]. split.
  - rewrite group_append_names, fmap_app.
    change (entry_project <$> [e]) with [entry_project e].
    rewrite first_seen_snoc, Hnames.
    destruct (decide (entry_project e ∈ entry_project <$> p)) as [Hin|Hout].
    + by rewrite decide_True by by apply first_seen_elem_of.
    + by rewrite decide_False by by rewrite first_seen_elem_of.
  - apply Forall_forall. intros g Hg. cbv beta.
    unfold entries_of_project. rewrite filter_app.
    destruct (decide (g.1 = entry_project e)) as [Heq|Hne].
    + rewrite (filter_cons_True _ e []) by done. rewrite filter_nil, fmap_app.
      destruct (group_append_same ps (entry_project e) (shown e) g)
        as [[Hout Hg2]|(incs & Hin & Hg2)];
        [rewrite Hnames; apply first_seen_NoDup | done | done | |].
      * rewrite Hg2. rewrite Hnames, first_seen_elem_of in Hout.
        assert (filter (λ e0, entry_project e0 = g.1) p = []) as ->; [|done].
        clear -Hout Heq. induction p as [|e0 p IH]; [done|].
        rewrite fmap_cons in Hout. apply not_elem_of_cons in Hout as [Hne Hout].
        rewrite filter_cons_False by congruence. auto.
      * rewrite Hg2. f_equal.
        pose proof (proj1 (Forall_forall _ _) Hgroups _ Hin) as Hold.
        simpl in Hold. by rewrite Heq.
    + rewrite (filter_cons_False _ e []) by (intros Heq; by apply Hne).
      rewrite filter_nil, app_nil_r.
      apply (proj1 (Forall_forall _ _) Hgroups).
      by eapply group_append_other.
Qed.

Lemma group_projects_grouped (c : Chroma.collection) i ps ps' :
  group_projects (Chroma.get c) i (Chroma.e_metadata <$> drop i c) ps = inr ps' →
  grouped (take i c) ps → grouped c ps'.
Proof.
  remember (length c - i)%nat as k eqn:Hk. revert i ps Hk.
  induction k as [|k IH]; intros i ps Hk.
  - rewrite drop_ge, take_ge by lia. simpl. by intros [= <-].
  - destruct (lookup_lt_is_Some_2 c i) as [e He]; [lia|].
    rewrite (drop_S _ _ _ He), fmap_cons. cbn [group_projects].
    unfold Chroma.get. cbn [Chroma.g_ids Chroma.g_documents]. unfold index.
    rewrite !list_lookup_fmap, He. cbn [fmap option_fmap option_map bind ret].
    intros Hrest Hpre. apply IH in Hrest; [done | lia |].
    rewrite (take_S_r _ _ _ He). by apply grouped_snoc.
Qed.

(** What a generated layout holds.  The suns are the distinct projects of
    the stored entries, in the order in which the projects first occur in
    the store, where the project of an entry is its metadata under
    [Proyecto], else under [proyecto], else [Sin proyecto].  A sun counts
    the entries of its project, of which there is at least one, under
    [size] and [incident_count], and exposes the first 500 of them in
    storage order, each with its id, the first 150 characters of its
    document and its metadata values cut to 50 characters; [has_more]
    tells whether entries were left out. *)
Theorem layout_groups_by_project (L : PyLib) (W : World) (rag : IncidentRAG)
    (use_cache : bool) :
  match (get_galaxy_data L W rag use_cache).1 with
  | Generated g =>
      s_name <$> gd_suns g = first_seen (entry_project <$> collection rag)
      ∧ Forall (λ s,
          let entries := entries_of_project (collection rag) (s_name s) in
          entries ≠ []
          ∧ s_incident_count s = length entries
          ∧ s_size s = length entries
          ∧ s_incidents s = take 500 (shown <$> entries)
          ∧ s_has_more s = bool_decide (500 < length entries)%nat)
          (gd_suns g)
  | _ => True
  end.
Proof.
  unfold get_galaxy_data.
  destruct (load_cache rag use_cache); [done|].
  unfold generate_galaxy.
  destruct (Chroma.g_ids (Chroma.get (collection rag))) as [|id ids] eqn:Hids; [done|].
  destruct (group_projects _ _ _ _) as [e|ps] eqn:Hps; [done|].
  cbn [fst gd_suns].
  apply (group_projects_grouped (collection rag) 0) in Hps as [Hnames Hgroups];
    [|split; [done | constructor]].
  assert (s_name <$> (make_sun L <$> ps) = ps.*1) as Hsuns.
  { rewrite <- list_fmap_compose. apply list_fmap_ext. by intros _ [n l] _. }
  split; [by rewrite Hsuns|].
  apply Forall_fmap. apply Forall_forall. intros [n incidents] Hin.
  pose proof (proj1 (Forall_forall _ _) Hgroups _ Hin) as Hg. simpl in Hg.
  unfold make_sun, compose.
  cbn [s_name s_incident_count s_size s_incidents s_has_more].
  rewrite Hg, length_fmap. split_and!; [|done|done|done|].
  2:{ destruct (Nat.ltb_spec 500 (length (entries_of_project (collection rag) n)));
        [by rewrite bool_decide_true | by rewrite bool_decide_false by lia]. }
  assert (n ∈ entry_project <$> collection rag) as Hn.
  { apply first_seen_elem_of. rewrite <- Hnames.
    by apply (list_elem_of_fmap_2 fst) in Hin. }
  apply list_elem_of_fmap in Hn as (e & -> & He).
  intros Hnil. unfold entries_of_project in Hnil.
  by apply (filter_nil_not_elem_of _ _ e Hnil).
Qed.

(** ** The query vector *)

Lemma search_try_remote W rag incident_description top_k filters :
  use_ollama rag = true →
  search_try W rag incident_description top_k filters
  = search_with W rag (ollama_embedding W 0 incident_description) top_k filters.
Proof.
  intros Hremote. unfold search_try, _generate_embeddings. by rewrite Hremote.
Qed.

(** With the remote backend a search reads the first 2000 characters of
    the description: two descriptions that agree on them get the same
    incidents, the same [total_found] and, on failure, the same error. *)
Theorem remote_search_reads_2000_characters (W : World) (rag : IncidentRAG)
    (d1 d2 : string) (top_k : Z) (filters : option (gmap string string)) :
  use_ollama rag = true →
  str_take 2000 d1 = str_take 2000 d2 →
  search_try W rag d1 top_k filters = search_try W rag d2 top_k filters
  ∧ similar_incidents (search_similar W rag d1 top_k filters)
    = similar_incidents (search_similar W rag d2 top_k filters)
  ∧ total_found (search_similar W rag d1 top_k filters)
    = total_found (search_similar W rag d2 top_k filters).
Proof.
  intros Hremote Hprefix.
  assert (search_try W rag d1 top_k filters = search_try W rag d2 top_k filters) as Htry.
  { rewrite !search_try_remote by done. unfold ollama_embedding. by rewrite Hprefix. }
  unfold search_similar. rewrite Htry.
  by destruct (search_try W rag d2 top_k filters).
Qed.

(** An embedding outage does not fail a search.  With the remote backend,
    when the request for the query fails, the store is asked for the
    neighbours of the zero vector, so the incidents returned do not
    depend on the description. *)
Theorem outage_search_uses_zero_vector (W : World) (rag : IncidentRAG)
    (incident_description : string) (top_k : Z) (filters : option (gmap string string)) :
  use_ollama rag = true →
  request_failed (ollama_post W 0 (str_take 2000 incident_description)) →
  search_try W rag incident_description top_k filters
  = search_with W rag zero_vector top_k filters
  ∧ similar_incidents (search_similar W rag incident_description top_k filters)
    = match search_with W rag zero_vector top_k filters with
      | inr similar => similar
      | inl _ => []
      end.
Proof.
  intros Hremote Hfail.
  assert (search_try W rag incident_description top_k filters
          = search_with W rag zero_vector top_k filters) as Htry.
  { rewrite search_try_remote by done. by rewrite ollama_embedding_failed. }
  unfold search_similar. rewrite Htry.
  by destruct (search_with W rag zero_vector top_k filters).
Qed.

(** Two descriptions of 2001 characters that differ in the last one. *)
Lemma remote_search_reads_2000_characters_witness :
  similar_incidents
    (search_similar Reference.online Reference.loaded
       (Reference.repeat_char "a" 2000 ++ "b") 5 None)
  = similar_incidents
      (search_similar Reference.online Reference.loaded
         (Reference.repeat_char "a" 2000 ++ "c") 5 None).
Proof.
  apply (remote_search_reads_2000_characters Reference.online Reference.loaded
           (Reference.repeat_char "a" 2000 ++ "b") (Reference.repeat_char "a" 2000 ++ "c")
           5 None).
  - reflexivity.
  - vm_compute. reflexivity.
Defined.

(** With the endpoint down, a search on the three stored rows asks for
    the neighbours of the zero vector. *)
Lemma outage_search_uses_zero_vector_witness :
  search_try Reference.offline Reference.loaded "login falla" 5 None
  = search_with Reference.offline Reference.loaded zero_vector 5 None.
Proof.
  apply (outage_search_uses_zero_vector Reference.offline Reference.loaded "login falla"
           5 None).
  - reflexivity.
  - exact I.
Defined.

(** ** What an ingestion leaves behind *)

Section Monotone.
Import Chroma.
Variables (W : World) (rag : IncidentRAG).

Lemma upsert_entry_grows c e :
  (∀ x, x ∈ ids c → x ∈ ids (upsert_entry c e))
  ∧ (count c ≤ count (upsert_entry c e))%nat.
Proof.
  rewrite !count_ids. destruct (decide (e_id e ∈ ids c)) as [Hin|Hout].
  - rewrite upsert_entry_present by done. done.
  - rewrite upsert_entry_absent by done. split.
    + intros x Hx. apply elem_of_app. by left.
    + rewrite length_app. lia.
Qed.

Lemma foldl_upsert_grows b c :
  (∀ x, x ∈ ids c → x ∈ ids (foldl upsert_entry c b))
  ∧ (count c ≤ count (foldl upsert_entry c b))%nat.
Proof.
  revert c. induction b as [|e b IH]; intros c; simpl; [done|].
  destruct (IH (upsert_entry c e)) as [Hids Hcount].
  destruct (upsert_entry_grows c e) as [Hids' Hcount']. split; [auto | lia].
Qed.

Lemma add_or_upsert_grows c i d v m :
  (∀ x, x ∈ ids c → x ∈ ids (add_or_upsert c i d v m).1)
  ∧ (count c ≤ count (add_or_upsert c i d v m).1)%nat.
Proof.
  unfold add_or_upsert.
  destruct (add c i d v m) as [e|c1] eqn:Hadd.
  - destruct (upsert c i d v m) as [e'|c2] eqn:Hup; [done|]. simpl.
    apply upsert_inr in Hup as (b & _ & ->). apply foldl_upsert_grows.
  - simpl. apply add_inr in Hadd as (Hids & _ & _). rewrite !count_ids, Hids. split.
    + intros x Hx. apply elem_of_app. by left.
    + rewrite length_app. lia.
Qed.

Lemma write_batch_grows c batch_start batch :
  (∀ x, x ∈ ids c → x ∈ ids (write_batch W rag c batch_start batch).1)
  ∧ (count c ≤ count (write_batch W rag c batch_start batch).1)%nat.
Proof.
  unfold write_batch.
  destruct (prepare_batch W rag batch_start batch) as [e|[[[i d] v] m]]; [done|].
  apply add_or_upsert_grows.
Qed.

Lemma write_batches_grows bs c :
  (∀ x, x ∈ ids c → x ∈ ids (write_batches W rag c bs).1)
  ∧ (count c ≤ count (write_batches W rag c bs).1)%nat.
Proof.
  revert c. induction bs as [|[batch_start batch] bs IH]; intros c; [done|].
  cbn [write_batches].
  destruct (write_batch_grows c batch_start batch) as [Hids Hcount].
  destruct (write_batch W rag c batch_start batch) as [c1 [e|]]; [done|].
  destruct (IH c1) as [Hids' Hcount']. simpl in *. split; [auto | lia].
Qed.
End Monotone.

Lemma add_incidents_grows W rag incidents :
  (∀ x, x ∈ Chroma.ids (collection rag) →
        x ∈ Chroma.ids (_add_incidents_to_db W rag incidents).1)
  ∧ (Chroma.count (collection rag)
     ≤ Chroma.count (_add_incidents_to_db W rag incidents).1)%nat.
Proof.
  unfold _add_incidents_to_db. destruct incidents; [done|]. apply write_batches_grows.
Qed.

Lemma load_incidents_state W rag source source_type :
  ∃ c, (load_incidents W rag source source_type).2 = set_collection rag c
       ∧ (c = collection rag
          ∨ ∃ incidents, parse_source W source source_type = Some (inr incidents)
                         ∧ c = (_add_incidents_to_db W rag incidents).1).
Proof.
  unfold load_incidents.
  destruct (parse_source W source source_type) as [[e|[|inc incidents]]|];
    try (exists (collection rag); split; [by destruct rag | by left]).
  destruct (_add_incidents_to_db W rag (inc :: incidents)) as [c [e|]] eqn:Hdb;
    (exists c; split; [done|]; right; exists (inc :: incidents); by rewrite Hdb).
Qed.

(** An ingestion never removes anything, whatever it returns: every id
    stored before the call is stored after it, [count()] does not go
    down, and neither the backend nor the layout cache file is
    touched. *)
Theorem ingestion_never_removes (W : World) (rag : IncidentRAG)
    (source source_type : string) :
  (∀ x, x ∈ Chroma.ids (collection rag) →
        x ∈ Chroma.ids (collection (load_incidents W rag source source_type).2))
  ∧ (Chroma.count (collection rag)
     ≤ Chroma.count (collection (load_incidents W rag source source_type).2))%nat
  ∧ use_ollama (load_incidents W rag source source_type).2 = use_ollama rag
  ∧ galaxy_cache (load_incidents W rag source source_type).2 = galaxy_cache rag.
Proof.
  destruct (load_incidents_state W rag source source_type)
    as (c & -> & [->|(incidents & _ & ->)]); cbn [collection set_collection use_ollama galaxy_cache].
  - done.
  - destruct (add_incidents_grows W rag incidents). done.
Qed.

(** Failures on the way to the incidents leave the object as it was, and
    each has its own payload: a page that cannot be fetched counts as a
    page without incidents; a file that is not found, or whose JSON does
    not parse, gives the message of the exception behind the prefix
    [Error al cargar incidencias: ]; a file that is neither [.json] nor
    [.csv] counts as a file without incidents; a source type other than
    [url] and [file] is named in the error. *)
Theorem load_failures_by_source (W : World) (rag : IncidentRAG) (source : string) :
  (∀ e, incident_elements W source = inl e →
     load_incidents W rag source "url" = (LoadError "No se encontraron incidencias", rag))
  ∧ (find_file W source = None →
     load_incidents W rag source "file"
     = (LoadException ("Error al cargar incidencias: Archivo no encontrado: " ++ source)
          (format_exc (Exn "FileNotFoundError" ("Archivo no encontrado: " ++ source))),
        rag))
  ∧ (∀ f msg, find_file W source = Some f → endswith source ".json" = true →
     json_load f = inl (Exn "JSONDecodeError" msg) →
     load_incidents W rag source "file"
     = (LoadException ("Error al cargar incidencias: Error al parsear JSON: " ++ msg)
          (format_exc (Exn "ValueError" ("Error al parsear JSON: " ++ msg))),
        rag))
  ∧ (∀ f, find_file W source = Some f →
     endswith source ".json" = false → endswith source ".csv" = false →
     load_incidents W rag source "file" = (LoadError "No se encontraron incidencias", rag))
  ∧ (∀ source_type, source_type ≠ "url" → source_type ≠ "file" →
     load_incidents W rag source source_type
     = (LoadError ("Tipo de fuente no soportado: " ++ source_type), rag)).
Proof.
  split_and!.
  - intros e He. unfold load_incidents, parse_source, _scrape_incidents_from_url.
    by rewrite decide_True, He by done.
  - intros Hf. unfold load_incidents, parse_source, _load_incidents_from_file.
    rewrite decide_False, decide_True, Hf by done. done.
  - intros f msg Hf Hjson Hload.
    unfold load_incidents, parse_source, _load_incidents_from_file.
    rewrite decide_False, decide_True, Hf, Hjson, Hload by done. done.
  - intros f Hf Hjson Hcsv.
    unfold load_incidents, parse_source, _load_incidents_from_file.
    rewrite decide_False, decide_True, Hf, Hjson, Hcsv by done. done.
  - intros source_type Hurl Hfile. unfold load_incidents, parse_source.
    by rewrite !decide_False by done.
Qed.

Lemma add_incidents_present W rag incidents :
  Forall (λ inc : Incident, ∃ x, inc !! "id" = Some x ∧ x ∈ Chroma.ids (collection rag))
    incidents →
  Chroma.ids (_add_incidents_to_db W rag incidents).1 = Chroma.ids (collection rag).
Proof.
  intros Hin. unfold _add_incidents_to_db. destruct incidents as [|inc incidents]; [done|].
  apply write_batches_present. by apply batches_from_Forall.
Qed.

Lemma cache_served L W rag d :
  galaxy_cache rag = CacheData d →
  cd_total_incidents d = Some (CachedInt (Z.of_nat (Chroma.count (collection rag)))) →
  get_galaxy_data L W rag true = (FromCache d, rag).
Proof.
  intros Hd Ht. unfold get_galaxy_data.
  by rewrite (proj2 (load_cache_Some rag d) (conj Hd Ht)).
Qed.

(** The layout cache is checked against the count only.  When the cached
    layout is being served and an ingestion brings only ids that are
    stored already, the same cached layout is served after the ingestion,
    whether the ingestion went through or raised, although the documents
    and metadata under those ids may have been replaced. *)
Theorem reingestion_does_not_refresh_layout (L L' : PyLib) (W0 W W' : World)
    (rag : IncidentRAG) (source source_type : string) (d : cached_dict)
    (incidents : list Incident) :
  get_galaxy_data L W0 rag true = (FromCache d, rag) →
  parse_source W source source_type = Some (inr incidents) →
  Forall (λ inc, ∃ x, inc !! "id" = Some x ∧ x ∈ Chroma.ids (collection rag)) incidents →
  get_galaxy_data L' W' (load_incidents W rag source source_type).2 true
  = (FromCache d, (load_incidents W rag source source_type).2).
Proof.
  intros Hserved Hparse Hin.
  assert (load_cache rag true = Some d) as Hcache.
  { unfold get_galaxy_data in Hserved.
    destruct (load_cache rag true) as [d'|] eqn:Hload.
    - by injection Hserved as <-.
    - exfalso. unfold generate_galaxy in Hserved.
      destruct (Chroma.g_ids (Chroma.get (collection rag))); [discriminate|].
      by destruct (group_projects _ _ _ _). }
  apply load_cache_Some in Hcache as [Hd Ht].
  destruct (load_incidents_state W rag source source_type)
    as (c & Hstate & Hc).
  rewrite Hstate. apply cache_served; cbn [galaxy_cache collection set_collection]; [done|].
  rewrite Ht. do 3 f_equal. rewrite !count_ids.
  destruct Hc as [->|(incidents' & Hparse' & ->)]; [done|].
  rewrite Hparse in Hparse'. injection Hparse' as <-.
  by rewrite add_incidents_present.
Qed.

(** The layout of the three rows is cached; the same table is ingested
    again; the cached layout is served. *)
Lemma reingestion_does_not_refresh_layout_witness :
  ∃ d, (get_galaxy_data Reference.toy_lib Reference.online
          (load_incidents Reference.online
             (get_galaxy_data Reference.toy_lib Reference.online Reference.loaded false).2
             "three.csv" "file").2 true).1
       = FromCache d
       ∧ cd_total_incidents d = Some (CachedInt 3).
Proof.
  set (rag := (get_galaxy_data Reference.toy_lib Reference.online Reference.loaded false).2).
  pose (d := match galaxy_cache rag with
             | CacheData d => d
             | _ => CachedDict None false [] 0
             end).
  exists d.
  rewrite (reingestion_does_not_refresh_layout Reference.toy_lib Reference.toy_lib
             Reference.online Reference.online Reference.online rag "three.csv" "file" d
             (csv_incidents "three.csv" Reference.three_rows)).
  - split; [reflexivity | vm_compute; reflexivity].
  - reflexivity.
  - reflexivity.
  - repeat constructor.
    + exists "csv_0". split; [reflexivity|].
      refine (bool_decide_unpack _ _). vm_compute. exact I.
    + exists "csv_1". split; [reflexivity|].
      refine (bool_decide_unpack _ _). vm_compute. exact I.
    + exists "csv_2". split; [reflexivity|].
      refine (bool_decide_unpack _ _). vm_compute. exact I.
Defined.

(** ** An ingestion that fails on the way *)

Lemma batches_from_fuel {A} fuel fuel' size start (l : list A) :
  (0 < size)%nat → (length l ≤ fuel)%nat → (length l ≤ fuel')%nat →
  batches_from fuel size start l = batches_from fuel' size start l.
Proof.
  intros Hsize. revert fuel' start l.
  induction fuel as [|fuel IH]; intros fuel' start l Hlen Hlen'.
  - destruct l; [by destruct fuel' | simpl in Hlen; lia].
  - destruct l as [|a l]; [by destruct fuel'|].
    destruct fuel' as [|fuel']; [simpl in Hlen'; lia|].
    cbn [batches_from]. f_equal.
    apply IH; rewrite length_drop; simpl in *; lia.
Qed.

Lemma batches_from_cons {A} fuel size start (l : list A) :
  l ≠ [] →
  batches_from (S fuel) size start l
  = (start, take size l) :: batches_from fuel size (start + size) (drop size l).
Proof. by destruct l. Qed.

Lemma batches_from_prefix {A} fuel size start (l : list A) bs1 rest :
  (0 < size)%nat → (length l ≤ fuel)%nat →
  batches_from fuel size start l = (bs1 ++ rest)%list →
  batches_from fuel size start (take (length bs1 * size) l) = bs1
  ∧ (rest ≠ [] → length bs1 * size < length l)%nat.
Proof.
  intros Hsize. revert start l bs1.
  induction fuel as [|fuel IH]; intros start l bs1 Hlen Hbs.
  - destruct l; [|simpl in Hlen; lia]. simpl in Hbs.
    symmetry in Hbs. apply app_eq_nil in Hbs as [-> ->]. by rewrite take_nil.
  - destruct l as [|a l].
    { simpl in Hbs. symmetry in Hbs. apply app_eq_nil in Hbs as [-> ->]. done. }
    cbn [batches_from] in Hbs. destruct bs1 as [|b bs1].
    + simpl. split; [done|]. intros _. lia.
    + simpl in Hbs. injection Hbs as <- Hbs.
      destruct (IH (start + size)%nat (drop size (a :: l)) bs1) as [Hpre Hlt];
        [rewrite length_drop; simpl in *; lia | done |].
      cbn [length]. split.
      * change (S (length bs1) * size)%nat with (size + length bs1 * size)%nat.
        rewrite batches_from_cons.
        -- f_equal.
           ++ f_equal. rewrite take_take. f_equal. lia.
           ++ by rewrite <- take_drop_commute.
        -- destruct size; [lia | discriminate].
      * intros Hrest. specialize (Hlt Hrest). rewrite length_drop in Hlt.
        simpl in *. lia.
Qed.

Lemma write_batches_raise W rag bs c c' e :
  write_batches W rag c bs = (c', Some e) →
  ∃ bs1 b bs2, bs = (bs1 ++ b :: bs2)%list
               ∧ write_batches W rag c bs1 = (c', None)
               ∧ write_batch W rag c' b.1 b.2 = (c', Some e).
Proof.
  revert c. induction bs as [|[batch_start batch] bs IH]; intros c; [discriminate|].
  cbn [write_batches].
  destruct (write_batch W rag c batch_start batch) as [c1 [e1|]] eqn:Hb.
  - intros [= <- <-]. exists [], (batch_start, batch), bs.
    pose proof (write_batch_raise _ _ _ _ _ _ _ Hb) as ->. done.
  - intros Hrest. destruct (IH _ Hrest) as (bs1 & b & bs2 & -> & Hok & Hfail).
    exists ((batch_start, batch) :: bs1), b, bs2. split_and!; [done| |done].
    cbn [write_batches]. by rewrite Hb.
Qed.

Lemma add_incidents_raise W rag incidents c' e :
  _add_incidents_to_db W rag incidents = (c', Some e) →
  ∃ k, (k * batch_size_of rag < length incidents)%nat
       ∧ _add_incidents_to_db W rag (take (k * batch_size_of rag) incidents) = (c', None).
Proof.
  unfold _add_incidents_to_db, batch_size_of.
  destruct incidents as [|inc incidents]; [discriminate|].
  set (size := if use_ollama rag then 10%nat else 50%nat).
  assert (0 < size)%nat as Hsize by (unfold size; destruct (use_ollama rag); lia).
  intros Hw. apply write_batches_raise in Hw as (bs1 & b & bs2 & Hbs & Hok & _).
  unfold batches in Hbs.
  apply batches_from_prefix in Hbs as [Hpre Hlt]; [|done|done].
  exists (length bs1). split; [by apply Hlt|].
  destruct (take (length bs1 * size) (inc :: incidents)) as [|inc' rest] eqn:Htake.
  - destruct bs1 as [|b1 bs1]; [by injection Hok as <- | discriminate].
  - assert (length (inc' :: rest) ≤ length (inc :: incidents))%nat as Hlen
      by (rewrite <- Htake, length_take; lia).
    unfold batches.
    by rewrite (batches_from_fuel (length (inc' :: rest)) (length (inc :: incidents))
                  size 0 (inc' :: rest) Hsize (le_n _) Hlen), Hpre.
Qed.

(** An ingestion that fails while writing is not undone.  The incidents
    are written in batches of 10 with the remote backend and of 50 with
    the local one; when a batch raises, [load_incidents] returns the
    error with traceback, and the collection is left as a successful
    ingestion of the incidents of the batches before it would leave
    it. *)
Theorem failed_ingestion_keeps_earlier_batches (W : World) (rag : IncidentRAG)
    (source source_type : string) (incidents : list Incident) (e : exn) :
  parse_source W source source_type = Some (inr incidents) →
  (_add_incidents_to_db W rag incidents).2 = Some e →
  ∃ k, (k * batch_size_of rag < length incidents)%nat
       ∧ (_add_incidents_to_db W rag (take (k * batch_size_of rag) incidents)).2 = None
       ∧ load_incidents W rag source source_type
         = (LoadException ("Error al cargar incidencias: " ++ exc_msg e) (format_exc e),
            set_collection rag
              (_add_incidents_to_db W rag (take (k * batch_size_of rag) incidents)).1).
Proof.
  intros Hparse Hfail.
  destruct (_add_incidents_to_db W rag incidents) as [c' [e'|]] eqn:Hdb; [|discriminate].
  injection Hfail as ->.
  destruct (add_incidents_raise _ _ _ _ _ Hdb) as (k & Hk & Hprefix).
  exists k. rewrite Hprefix. split_and!; [done | done |].
  unfold load_incidents. rewrite Hparse.
  destruct incidents as [|inc incidents]; [simpl in Hk; lia|].
  by rewrite Hdb.
Qed.

(** New ids invalidate the cached layout.  When the cached layout is
    being served, the stored ids are pairwise distinct and an ingestion
    that returns success brings at least one id that was not stored,
    [count()] goes up and the next call generates the layout again, for
    the new count. *)
Theorem new_ids_invalidate_layout (L L' : PyLib) (W0 W W' : World)
    (rag rag1 : IncidentRAG) (source source_type : string) (n : nat) (s t : string)
    (d : cached_dict) (incidents : list Incident) (inc : Incident) (x : string) :
  get_galaxy_data L W0 rag true = (FromCache d, rag) →
  NoDup (Chroma.ids (collection rag)) →
  load_incidents W rag source source_type = (LoadSuccess n s t, rag1) →
  parse_source W source source_type = Some (inr incidents) →
  inc ∈ incidents → inc !! "id" = Some x → x ∉ Chroma.ids (collection rag) →
  (Chroma.count (collection rag) < Chroma.count (collection rag1))%nat
  ∧ ∃ g, (get_galaxy_data L' W' rag1 true).1 = Generated g
         ∧ gd_total_incidents g = Chroma.count (collection rag1).
Proof.
  intros Hserved Hnd Hload Hparse Hinc Hx Hnew.
  assert (load_cache rag true = Some d) as Hcache.
  { unfold get_galaxy_data in Hserved.
    destruct (load_cache rag true) as [d'|] eqn:Hc.
    - by injection Hserved as <-.
    - exfalso. unfold generate_galaxy in Hserved.
      destruct (Chroma.g_ids (Chroma.get (collection rag))); [discriminate|].
      by destruct (group_projects _ _ _ _). }
  apply load_cache_Some in Hcache as [Hd Ht].
  unfold load_incidents in Hload. rewrite Hparse in Hload.
  destruct incidents as [|inc0 incidents]; [discriminate|].
  destruct (_add_incidents_to_db W rag (inc0 :: incidents)) as [c1 [e|]] eqn:Hdb;
    [discriminate|].
  injection Hload as _ _ _ <-. cbn [collection set_collection].
  pose proof (add_incidents_ids W rag _ c1 Hdb) as Hids.
  assert (Chroma.count (collection rag) < Chroma.count c1)%nat as Hlt.
  { rewrite !count_ids.
    assert (NoDup (x :: Chroma.ids (collection rag))) as Hnd' by by apply NoDup_cons.
    assert (x :: Chroma.ids (collection rag) ⊆+ Chroma.ids c1) as Hsub.
    { apply NoDup_submseteq; [done|]. intros y [->|Hy]%elem_of_cons.
      - apply Hids. right. apply list_elem_of_fmap. exists inc. done.
      - apply Hids. by left. }
    apply submseteq_length in Hsub. simpl in Hsub. lia. }
  split; [done|].
  unfold get_galaxy_data.
  destruct (load_cache (set_collection rag c1) true) as [d'|] eqn:Hc.
  { apply load_cache_Some in Hc as [Hd' Ht']. cbn [galaxy_cache set_collection] in Hd'.
    rewrite Hd in Hd'. injection Hd' as <-. rewrite Ht in Ht'.
    cbn [collection set_collection] in Ht'. injection Ht' as Ht'. lia. }
  destruct (generate_galaxy_nonempty L' W' (set_collection rag c1)) as (g & Hg & Htot).
  { cbn [collection set_collection]. lia. }
  exists g. split; [done|]. by rewrite Htot.
Qed.

(** A page of 51 incidents with the local backend: the batch of the
    first 50 is written, the batch of the last one raises, and the 50
    stay stored. *)
Lemma failed_ingestion_keeps_earlier_batches_witness :
  ∃ k, (0 < k)%nat
       ∧ load_incidents second_batch_fails Reference.fresh_local "http://tickets" "url"
         = (LoadException "Error al cargar incidencias: out of memory"
              (format_exc (Exn "RuntimeError" "out of memory")),
            set_collection Reference.fresh_local
              (_add_incidents_to_db second_batch_fails Reference.fresh_local
                 (take (k * 50)
                    (_scrape_incidents_from_url second_batch_fails "http://tickets"))).1)
       ∧ Chroma.count
           (collection (load_incidents second_batch_fails Reference.fresh_local
                          "http://tickets" "url").2) = 50%nat.
Proof.
  destruct (failed_ingestion_keeps_earlier_batches second_batch_fails Reference.fresh_local
              "http://tickets" "url"
              (_scrape_incidents_from_url second_batch_fails "http://tickets")
              (Exn "RuntimeError" "out of memory"))
    as (k & Hk & _ & Hload).
  - reflexivity.
  - vm_compute. reflexivity.
  - assert (Chroma.count
              (collection (load_incidents second_batch_fails Reference.fresh_local
                             "http://tickets" "url").2) = 50%nat) as Hcount
      by (vm_compute; reflexivity).
    exists k. split_and!; [|exact Hload|exact Hcount].
    destruct k as [|k]; [|lia].
    rewrite Hload in Hcount. discriminate Hcount.
Defined.

(** An empty collection whose cache file was written for no incident
    takes the three rows: the layout is generated, for three. *)
Lemma new_ids_invalidate_layout_witness :
  ∃ g, (get_galaxy_data Reference.toy_lib Reference.online
          (load_incidents Reference.online
             (Rag true [] (CacheData (CachedDict (Some (CachedInt 0)) true [] 0)))
             "three.csv" "file").2 true).1 = Generated g
       ∧ gd_total_incidents g = 3%nat.
Proof.
  set (rag := Rag true [] (CacheData (CachedDict (Some (CachedInt 0)) true [] 0))).
  destruct (new_ids_invalidate_layout Reference.toy_lib Reference.toy_lib
              Reference.online Reference.online Reference.online
              rag (load_incidents Reference.online rag "three.csv" "file").2
              "three.csv" "file" 3 "three.csv" "file"
              (CachedDict (Some (CachedInt 0)) true [] 0)
              (csv_incidents "three.csv" Reference.three_rows)
              (csv_incident "three.csv" Reference.three_rows "0"
                 (Reference.row_of [("Proyecto", "A");
                    ("Descripción", Reference.repeat_char "x" 30)]))
              "csv_0")
    as (_ & g & Hg & Htot).
  - reflexivity.
  - constructor.
  - reflexivity.
  - reflexivity.
  - apply list_elem_of_here.
  - reflexivity.
  - apply not_elem_of_nil.
  - exists g. split; [exact Hg|]. rewrite Htot. reflexivity.
Defined.

(** ** Keys of a parsed incident *)

Lemma add_extra_json_complete source inc kv :
  complete_from source inc → complete_from source (add_extra_json inc kv).
Proof.
  intros [Hsrc Hkeys]. split.
  - by apply add_extra_json_keeps.
  - eapply Forall_impl; [exact Hkeys|]. intros k [v Hv]. exists v.
    by apply add_extra_json_keeps.
Qed.

Lemma add_extra_csv_complete source row inc col :
  complete_from source inc → complete_from source (add_extra_csv row inc col).
Proof.
  intros [Hsrc Hkeys]. split.
  - by apply add_extra_csv_keeps.
  - eapply Forall_impl; [exact Hkeys|]. intros k [v Hv]. exists v.
    by apply add_extra_csv_keeps.
Qed.

Lemma complete_from_literal source (i t d p : string) :
  complete_from source
    (<["Proyecto" := p]> (<["source" := source]> (<["description" := d]>
      (<["title" := t]> (<["id" := i]> (∅ : Incident)))))).
Proof.
  split; [done|]. unfold canonical_keys. repeat constructor; by eexists.
Qed.

(** Whatever the source, every parsed incident holds the keys [id],
    [title], [description], [source] and [Proyecto], and its [source] is
    the URL or file name that was given: a field or column of the data
    that is itself called [source] does not replace it. *)
Theorem parsed_incidents_name_their_source (W : World) (source source_type : string)
    (incidents : list Incident) :
  parse_source W source source_type = Some (inr incidents) →
  Forall (complete_from source) incidents.
Proof.
  unfold parse_source.
  destruct (decide (source_type = "url")) as [Hurl|Hurl];
    [|destruct (decide (source_type = "file")) as [Hfile|Hfile]]; [| |discriminate].
  - intros [= <-]. apply web_incidents_Forall. intros i text inc. unfold web_incident.
    destruct (_ <? _)%nat; [|discriminate]. intros [= <-]. apply complete_from_literal.
  - intros [= H]. revert H. apply load_file_Forall.
    + intros n item. unfold json_incident.
      apply foldl_preserves; [intros; by apply add_extra_json_complete|].
      apply complete_from_literal.
    + intros df idx row. unfold csv_incident.
      apply foldl_preserves; [intros; by apply add_extra_csv_complete|].
      apply complete_from_literal.
Qed.

(** The three rows of the table name the table. *)
Lemma parsed_incidents_name_their_source_witness :
  Forall (λ inc, inc !! "source" = Some "three.csv")
    (csv_incidents "three.csv" Reference.three_rows).
Proof.
  eapply Forall_impl.
  - apply (parsed_incidents_name_their_source Reference.online "three.csv" "file"
             (csv_incidents "three.csv" Reference.three_rows)).
    reflexivity.
  - intros inc [Hsrc _]. exact Hsrc.
Defined.

(** ** Statistics and reset: what they report *)

Lemma load_success_stores_something W rag rag1 source source_type n s t :
  load_incidents W rag source source_type = (LoadSuccess n s t, rag1) →
  (0 < Chroma.count (collection rag1))%nat.
Proof.
  intros Hload. unfold load_incidents in Hload.
  destruct (parse_source W source source_type) as [[e|incidents]|] eqn:Hparse;
    [discriminate| |discriminate].
  destruct incidents as [|inc incidents]; [discriminate|].
  destruct (_add_incidents_to_db W rag (inc :: incidents)) as [c1 [e|]] eqn:Hdb;
    [discriminate|].
  injection Hload as _ _ _ <-. cbn [collection set_collection].
  pose proof (parse_source_has_id _ _ _ _ Hparse) as Hid.
  apply Forall_cons in Hid as [[x Hx] _].
  assert (x ∈ Chroma.ids c1) as Hin.
  { apply (add_incidents_ids _ _ _ _ Hdb). right.
    apply list_elem_of_fmap. exists inc. split; [done | apply list_elem_of_here]. }
  rewrite count_ids. destruct (Chroma.ids c1); [by apply elem_of_nil in Hin | simpl; lia].
Qed.

(** After an ingestion that returned success the statistics report data:
    [total_incidents] is the count, which is at least one, [has_data] is
    true, and [rag_ready] tells whether the directory holds the database
    file [chroma.sqlite3] or an index file. *)
Theorem stats_after_ingestion (D : Disk) (W : World) (rag rag1 : IncidentRAG)
    (source source_type : string) (n : nat) (s t : string) (entries : list dir_entry) :
  load_incidents W rag source source_type = (LoadSuccess n s t, rag1) →
  iterdir D = inr entries →
  get_stats D rag1
  = Stats (Chroma.count (collection rag1)) "incidents" true (scan_files D entries)
      (sf_faiss (scan_files D entries) || sf_chroma (scan_files D entries))
  ∧ (0 < stats_total (get_stats D rag1))%nat.
Proof.
  intros Hload Hdir.
  pose proof (load_success_stores_something _ _ _ _ _ _ _ _ Hload) as Hpos.
  unfold get_stats. rewrite Hdir. cbn [stats_total].
  destruct (Nat.ltb_spec 0 (Chroma.count (collection rag1))) as [_|Hle]; [done | lia].
Qed.

(** After a reset that returned success the collection is empty and the
    statistics report no data, whatever the directory holds; the layout
    cache file is left where it was, and a layout that was generated and
    cached before the reset is not served after it: the layout reports
    that there is no data. *)
Theorem reset_leaves_no_data (L L' : PyLib) (W W' : World) (D D' : Disk)
    (rag0 rag rag1 : IncidentRAG) (use_cache0 use_cache : bool) (g : galaxy_data)
    (message : string) :
  get_galaxy_data L W rag0 use_cache0 = (Generated g, rag) →
  clear_database D rag = (ClearSuccess message, Some rag1) →
  Chroma.count (collection rag1) = 0%nat
  ∧ stats_total (get_stats D' rag1) = 0%nat
  ∧ stats_has_data (get_stats D' rag1) = false
  ∧ stats_rag_ready (get_stats D' rag1) = false
  ∧ galaxy_cache rag1 = galaxy_cache rag
  ∧ (cache_write W = None →
     get_galaxy_data L' W' rag1 use_cache
     = (NoData "No hay datos en la base de datos. Carga incidencias primero.", rag1)).
Proof.
  intros Hgen Hclear. unfold clear_database in Hclear.
  destruct (delete_collection D); [discriminate|].
  destruct (create_collection D); [discriminate|].
  injection Hclear as _ <-. cbn [collection set_collection galaxy_cache].
  split_and!; try done.
  - unfold get_stats. by destruct (iterdir D').
  - unfold get_stats. by destruct (iterdir D').
  - unfold get_stats. by destruct (iterdir D').
  - intros Hwrite. unfold get_galaxy_data in Hgen.
    destruct (load_cache rag0 use_cache0); [discriminate|].
    unfold generate_galaxy in Hgen.
    destruct (Chroma.g_ids (Chroma.get (collection rag0))) as [|id ids] eqn:Hids;
      [discriminate|].
    destruct (group_projects _ _ _ _) as [e|ps]; [discriminate|].
    injection Hgen as <- <-.
    unfold save_cache. rewrite Hwrite.
    unfold get_galaxy_data, load_cache. cbn.
    by destruct use_cache.
Qed.

(** The three rows are ingested and the directory holds the database
    file. *)
Lemma stats_after_ingestion_witness :
  get_stats {| iterdir := inr [DirEntry "chroma.sqlite3" ".sqlite3"];
               str_lower := λ s, s;
               delete_collection := None; create_collection := None |}
    Reference.loaded
  = Stats 3 "incidents" true (StatsFiles false false true) true.
Proof.
  apply (stats_after_ingestion
           {| iterdir := inr [DirEntry "chroma.sqlite3" ".sqlite3"];
              str_lower := λ s, s;
              delete_collection := None; create_collection := None |}
           Reference.online Reference.fresh Reference.loaded "three.csv" "file"
           3 "three.csv" "file" [DirEntry "chroma.sqlite3" ".sqlite3"]).
  - reflexivity.
  - reflexivity.
Defined.

(** The layout of the three rows is generated and cached, and the
    database is reset. *)
Lemma reset_leaves_no_data_witness :
  ∃ rag1,
    clear_database {| iterdir := inr []; str_lower := λ s, s;
                      delete_collection := None; create_collection := None |}
      (get_galaxy_data Reference.toy_lib Reference.online Reference.loaded false).2
    = (ClearSuccess "Base de datos limpiada", Some rag1)
    ∧ (get_galaxy_data Reference.toy_lib Reference.online rag1 true).1
      = NoData "No hay datos en la base de datos. Carga incidencias primero.".
Proof.
  set (D := {| iterdir := inr []; str_lower := λ s, s;
               delete_collection := None; create_collection := None |}).
  set (r := get_galaxy_data Reference.toy_lib Reference.online Reference.loaded false).
  exists (set_collection r.2 []). split; [reflexivity|].
  pose (g := match r.1 with
             | Generated g => g
             | _ => GalaxyData false [] 0 0
             end).
  destruct (reset_leaves_no_data Reference.toy_lib Reference.toy_lib Reference.online
              Reference.online D D Reference.loaded r.2 (set_collection r.2 []) false true g
              "Base de datos limpiada")
    as (_ & _ & _ & _ & _ & Hlayout).
  - reflexivity.
  - reflexivity.
  - by rewrite Hlayout.
Defined.

(** ** Errors on the way to the dashboard *)

(** The message of a failed ingestion does not reach the dashboard.  For
    a source that is a string and not empty, the dashboard answers 200
    with the number of incidents when the engine returned success; when
    the engine returned an error, with or without traceback, the
    dashboard answers 400 with [Error desconocido], whatever the message
    of the engine was.  The object of the bridge is the one the engine
    left. *)
Theorem dashboard_hides_ingestion_errors (W : World) (rag : IncidentRAG)
    (c : ascii) (s : string) (source_type : jarg) :
  (dashboard_load W rag (ArgStr (String c s)) source_type).2
  = (engine_load W rag (String c s) source_type).2
  ∧ match (engine_load W rag (String c s) source_type).1 with
    | LoadSuccess n source _ =>
        (dashboard_load W rag (ArgStr (String c s)) source_type).1
        = (LoadRagResult true n (Some source) (str_of_nat n ++ " incidencias cargadas"), 200)
    | LoadError _ | LoadException _ _ =>
        (dashboard_load W rag (ArgStr (String c s)) source_type).1
        = (LoadRagError "Error desconocido", 400)
    end.
Proof.
  unfold dashboard_load, load_rag_arguments, tool_load_incidents.
  cbn [fst snd].
  assert (engine_load W rag (String c s)
            match source_type with
            | ArgAbsent => ArgStr "file"
            | _ => source_type
            end
          = engine_load W rag (String c s) source_type) as ->
    by by destruct source_type.
  by destruct (engine_load W rag (String c s) source_type) as [[n s' t'|e|e tb] rag1].
Qed.

(** A search through the dashboard.  A description that is missing, null
    or empty is refused with status 400 and the engine is not called.
    Otherwise the dashboard answers 200 with the payload of
    [search_similar] for the description, [top_k] (5 when the request has
    none) and no filter -- also when that payload is the failure payload
    of the engine. *)
Theorem dashboard_search_answers (W : World) (rag : IncidentRAG) (description : jarg)
    (top_k : option Z) :
  dashboard_search W rag description top_k
  = match description with
    | ArgStr (String c s) =>
        (SearchRagResult (search_similar W rag (String c s) (default 5 top_k) None), 200)
    | _ => (SearchRagError "incident_description es requerido", 400)
    end.
Proof.
  unfold dashboard_search, tool_search_similar_incidents.
  by destruct description as [| |[|c s]].
Qed.
